(** * Notion equation fixer: delimiter scanner, XPath addressing, selector
      and pass controller.

    Shallow embedding of [constants.py] (the three JavaScript helpers
    [JS_EXPAND_TOGGLES], [JS_FIND_MATCHES], [JS_SELECT_MATCH]), of
    [process_all_matches], [send_shortcut_and_enter] and [on_login_gate]
    from [fix_notion_eqns.py] / [notion_eqn_fix.py], and of [is_mac] from
    [utils.py].

    Conventions.
    - A JavaScript / Python string is a [text]: the list of its code units.
    - A DOM node is named by its [path]: the child indices leading to it from
      the [document] node.  Object identity ([sib === el]) is path equality.
    - Browser state touched by the helpers (the tree, the scroll position, the
      selection, the focused element) is threaded explicitly as a [page].
    - What the browser makes of [addRange] and [focus] is a parameter, a
      [browser]; a script that throws is an answer of its own, and ends
      [process_all_matches] as the exception does. *)

From Stdlib Require Import Ascii String.
From Stdlib Require Import List Arith Lia Bool ZArith.
From Stdlib Require Import DecimalString DecimalNat Sorted.
Import ListNotations.

Set Implicit Arguments.
Set Warnings "-register-all".

(* ------------------------------------------------------------------ *)
(** * Text *)
(* ------------------------------------------------------------------ *)

Definition text := list ascii.

(** String literals of the source, as code-unit lists. *)
Definition lit (s : string) : text := list_ascii_of_string s.

Definition dollar : ascii := "$"%char.

Definition text_eqb (a b : text) : bool :=
  if list_eq_dec ascii_dec a b then true else false.

(** [s.indexOf('$') === -1] is [negb (has_dollar s)]. *)
Definition has_dollar (s : text) : bool := existsb (Ascii.eqb dollar) s.

(** [s.slice(a, b)] for [0 <= a] and [0 <= b]. *)
Definition slice (s : text) (a b : nat) : text := firstn (b - a) (skipn a s).

(* ------------------------------------------------------------------ *)
(** * The delimiter regular expression *)
(* ------------------------------------------------------------------ *)

Module Regex.

(** The fragment of the regular-expression language the source uses. *)
Inductive regex : Type :=
| Chr (c : ascii)            (* an escaped literal, [\$] *)
| Dot                        (* [.] under the [s] / DOTALL flag *)
| Seq (r1 r2 : regex)
| Alt (r1 r2 : regex)        (* ordered alternation [r1|r2] *)
| LazyPlus (r : regex)       (* [r+?] *)
| Group (r : regex).         (* capturing parentheses *)

(** The loop of [r+?], given the matcher [m] of [r]: match [r] once, then
    try the continuation [k] before iterating again.  An iteration that
    consumes nothing is rejected, which bounds the loop by the length of the
    input. *)
Fixpoint lazy_iter (A : Type) (m : text -> (text -> option A) -> option A)
  (k : text -> option A) (fuel : nat) (s : text) : option A :=
  match fuel with
  | O => None
  | S fuel' =>
      m s (fun s' =>
             if length s' <? length s then
               match k s' with
               | Some x => Some x
               | None => lazy_iter m k fuel' s'
               end
             else None)
  end.

(** Backtracking matcher, continuation style.  [rmatch r s k] matches [r]
    against a prefix of the remaining input [s] and hands what is left to the
    continuation [k]; [None] makes the matcher backtrack.  Alternatives are
    tried left to right. *)
Fixpoint rmatch (A : Type) (r : regex) : text -> (text -> option A) -> option A :=
  match r with
  | Chr c => fun s k =>
      match s with
      | c' :: s' => if Ascii.eqb c c' then k s' else None
      | [] => None
      end
  | Dot => fun s k =>
      match s with
      | _ :: s' => k s'
      | [] => None
      end
  | Seq r1 r2 => fun s k => rmatch r1 s (fun s' => rmatch r2 s' k)
  | Alt r1 r2 => fun s k =>
      match rmatch r1 s k with
      | Some x => Some x
      | None => rmatch r2 s k
      end
  | LazyPlus r1 => fun s k => lazy_iter (rmatch r1) k (length s) s
  | Group r1 => fun s k => rmatch r1 s k
  end.

(** [\$\$(.+?)\$\$] *)
Definition DOUBLE_DOLLAR : regex :=
  Seq (Chr dollar) (Seq (Chr dollar)
    (Seq (Group (LazyPlus Dot)) (Seq (Chr dollar) (Chr dollar)))).

(** [\$(.+?)\$] *)
Definition SINGLE_DOLLAR : regex :=
  Seq (Chr dollar) (Seq (Group (LazyPlus Dot)) (Chr dollar)).

(** [\$\$(.+?)\$\$|\$(.+?)\$] with the flags [g] and [s] (Python: DOTALL). *)
Definition DOLLAR_RE : regex := Alt DOUBLE_DOLLAR SINGLE_DOLLAR.

(** Length of the match of [r] anchored at the head of [s], if any. *)
Definition match_here (r : regex) (s : text) : option nat :=
  rmatch r s (fun rest => Some (length s - length rest)).

(** Scan forward for the leftmost position where [r] matches; [pos] is the
    index of the head of [s] in the whole subject.  Result: [(index, length)]. *)
Fixpoint search (r : regex) (s : text) (pos : nat) : option (nat * nat) :=
  match match_here r s with
  | Some len => Some (pos, len)
  | None =>
      match s with
      | [] => None
      | _ :: s' => search r s' (S pos)
      end
  end.

(** [re.exec(s)] for a global ([g]) expression whose [lastIndex] is
    [lastIndex]: the search starts there; past the end it fails. *)
Definition exec (r : regex) (s : text) (lastIndex : nat) : option (nat * nat) :=
  if lastIndex <=? length s then search r (skipn lastIndex s) lastIndex
  else None.

(** [re.lastIndex = 0; while ((m = re.exec(s)) !== null) { ... }]
    collecting [(m.index, m.index + m[0].length)].  After a match the engine
    sets [lastIndex] to the end of the match. *)
Fixpoint exec_loop (fuel : nat) (r : regex) (s : text) (lastIndex : nat)
  : list (nat * nat) :=
  match fuel with
  | O => []
  | S fuel' =>
      match exec r s lastIndex with
      | None => []
      | Some (start, len) =>
          (start, start + len) :: exec_loop fuel' r s (start + len)
      end
  end.

(** All matches of the delimiter expression in one text node. *)
Definition find_all (s : text) : list (nat * nat) :=
  exec_loop (S (length s)) DOLLAR_RE s 0.

End Regex.

Import Regex.

(* ------------------------------------------------------------------ *)
(** * The document tree *)
(* ------------------------------------------------------------------ *)

Module Dom.

(** The namespace of an element: the three the HTML parser creates
    elements in. *)
Inductive namespace : Type :=
| NS_HTML
| NS_SVG
| NS_MathML.

(** What the helpers read from an element.  [innerText] and [offsetParent]
    are computed by the layout engine; they are observations here. *)
Record element : Type := mkElement {
  nodeName : text;                     (* [el.nodeName] *)
  namespaceURI : namespace;            (* [el.namespaceURI] *)
  id_attr : option text;               (* the [id] attribute *)
  classList : list text;               (* tokens of the [class] attribute *)
  attributes : list (text * text);     (* the other attributes *)
  offsetParent : bool;                 (* [el.offsetParent !== null] *)
  innerText : text                     (* [el.innerText] *)
}.

Inductive node : Type :=
| ElementNode (e : element) (childNodes : list node)
| TextNode (nodeValue : text)
| CommentNode (data : text).

(** Child indices from the document node down; [[]] is the document. *)
Definition path := list nat.

(** [n.parentNode] *)
Definition parentNode (p : path) : path := removelast p.

Fixpoint node_at (ns : list node) (p : path) : option node :=
  match p with
  | [] => None
  | i :: rest =>
      match nth_error ns i with
      | None => None
      | Some n =>
          match rest with
          | [] => Some n
          | _ :: _ =>
              match n with
              | ElementNode _ ch => node_at ch rest
              | _ => None
              end
          end
      end
  end.

(** [n.childNodes], the document node included. *)
Definition childNodes_at (doc : list node) (p : path) : list node :=
  match p with
  | [] => doc
  | _ :: _ =>
      match node_at doc p with
      | Some (ElementNode _ ch) => ch
      | _ => []
      end
  end.

(** [el.id]: the attribute's value, the empty string when absent. *)
Definition el_id (e : element) : text :=
  match id_attr e with
  | Some v => v
  | None => []
  end.

(** [el.getAttribute(name)] *)
Fixpoint getAttribute (attrs : list (text * text)) (name : text) : option text :=
  match attrs with
  | [] => None
  | (k, v) :: rest => if text_eqb k name then Some v else getAttribute rest name
  end.

(** Nodes of a forest in document order, each with its path relative to the
    forest's parent; [i] is the index of the first tree. *)
Fixpoint forest_nodes (f : node -> list (path * node)) (i : nat) (l : list node)
  : list (path * node) :=
  match l with
  | [] => []
  | c :: l' =>
      map (fun qn => (i :: fst qn, snd qn)) (f c) ++ forest_nodes f (S i) l'
  end.

(** A node and its descendants, document order (pre-order). *)
Fixpoint tree_nodes (n : node) : list (path * node) :=
  ([], n) ::
  match n with
  | ElementNode _ ch => forest_nodes tree_nodes 0 ch
  | _ => []
  end.

(** Proper descendants of the node at [p] (of the document for [[]]),
    with absolute paths. *)
Definition descendants (doc : list node) (p : path) : list (path * node) :=
  map (fun qn => (p ++ fst qn, snd qn))
      (forest_nodes tree_nodes 0 (childNodes_at doc p)).

(** [root.querySelectorAll(sel)]: the descendant elements that satisfy the
    selector, document order. *)
Definition querySelectorAll (doc : list node) (root : path)
  (sel : element -> bool) : list path :=
  flat_map (fun qn =>
              match snd qn with
              | ElementNode e _ => if sel e then [fst qn] else []
              | _ => []
              end)
           (descendants doc root).

(** [document.querySelector(sel)] *)
Definition querySelector (doc : list node) (sel : element -> bool) : option path :=
  hd_error (querySelectorAll doc [] sel).

(** Selector [.c] *)
Definition has_class (c : text) (e : element) : bool :=
  existsb (text_eqb c) (classList e).

(** Selector [[name="value"]] *)
Definition attr_is (name value : text) (e : element) : bool :=
  match getAttribute (attributes e) name with
  | Some v => text_eqb v value
  | None => false
  end.

(** [document.createTreeWalker(el, NodeFilter.SHOW_TEXT, null)] drained with
    [nextNode()]: the text nodes below [el], document order, each with its
    [nodeValue]. *)
Definition getTextNodes (doc : list node) (el : path) : list (path * text) :=
  flat_map (fun qn =>
              match snd qn with
              | TextNode v => [(fst qn, v)]
              | _ => []
              end)
           (descendants doc el).

End Dom.

Import Dom.

(* ------------------------------------------------------------------ *)
(** * Addresses: [getXPath] and XPath evaluation *)
(* ------------------------------------------------------------------ *)

Module Address.

Definition dquote : ascii := ascii_of_nat 34.

(** [String.prototype.toLowerCase] on ASCII names. *)
Definition lower_ascii (c : ascii) : ascii :=
  let n := nat_of_ascii c in
  if (65 <=? n) && (n <=? 90) then ascii_of_nat (n + 32) else c.

Definition toLowerCase (s : text) : text := map lower_ascii s.

(** Number to string, as [tagName + '[' + idx + ']'] does. *)
Definition dec (n : nat) : text :=
  list_ascii_of_string (NilEmpty.string_of_uint (Nat.to_uint n)).

(** [parts.join('/')] *)
Fixpoint join (sep : text) (parts : list text) : text :=
  match parts with
  | [] => []
  | [x] => x
  | x :: rest => x ++ sep ++ join sep rest
  end.

(** The sibling loop of [getXPath]: [nb] counts the element siblings with the
    name of [el], [idx] is the count reached at [el] itself.  [i] is the
    index of the head of [sibs], [self] the index of [el]. *)
Fixpoint count_sibs (sibs : list node) (i self : nat) (name : text)
  (nb idx : nat) : nat * nat :=
  match sibs with
  | [] => (nb, idx)
  | sib :: rest =>
      match sib with
      | ElementNode e _ =>
          if text_eqb (nodeName e) name then
            let nb' := S nb in
            count_sibs rest (S i) self name nb' (if i =? self then nb' else idx)
          else count_sibs rest (S i) self name nb idx
      | _ => count_sibs rest (S i) self name nb idx
      end
  end.

(** One segment: [nb > 1 ? tagName + '[' + idx + ']' : tagName]. *)
Definition part_of (sibs : list node) (self : nat) (e : element) : text :=
  let '(nb, idx) := count_sibs sibs 0 self (nodeName e) 0 0 in
  let tagName := toLowerCase (nodeName e) in
  if 1 <? nb then tagName ++ lit "[" ++ dec idx ++ lit "]" else tagName.

(** [while (el && el.nodeType === Node.ELEMENT_NODE) { ...; parts.unshift(part);
    el = el.parentNode; }].  Each round shortens the path, so a fuel of
    its length plus one runs the loop to its end. *)
Fixpoint getXPath_loop (doc : list node) (fuel : nat) (el : path)
  (parts : list text) : list text :=
  match fuel with
  | O => parts
  | S fuel' =>
      match node_at doc el with
      | Some (ElementNode e _) =>
          let sibs := childNodes_at doc (parentNode el) in
          let part := part_of sibs (last el 0) e in
          getXPath_loop doc fuel' (parentNode el) (part :: parts)
      | _ => parts
      end
  end.

Definition getXPath (doc : list node) (el : path) : text :=
  let by_path := lit "/" ++ join (lit "/") (getXPath_loop doc (S (length el)) el []) in
  match node_at doc el with
  | Some (ElementNode e _) =>
      match el_id e with
      | _ :: _ => lit "//*[@id=" ++ [dquote] ++ el_id e ++ [dquote] ++ lit "]"
      | [] => by_path
      end
  | _ => by_path
  end.

(** ** XPath

    [document.evaluate] belongs to the browser.  It is modelled on the
    fragment of XPath 1.0 that [getXPath] writes: an attribute lookup
    [//*[@id="v"]], or an absolute path of child steps [name] or
    [name[k]].  The parser answers [None] for every other expression.  Of
    those, the ones with a string literal left open are told apart
    ([xpath_malformed]): on them the browser raises a syntax error, which no
    helper catches.  What the others evaluate to is left to the browser (a
    parameter of the session, see [page_driver]). *)

Inductive xpath_expr : Type :=
| ById (v : text)
| ByPath (steps : list (text * option nat)).

Fixpoint strip_prefix (pre s : text) : option text :=
  match pre with
  | [] => Some s
  | c :: pre' =>
      match s with
      | [] => None
      | d :: s' => if Ascii.eqb c d then strip_prefix pre' s' else None
      end
  end.

Fixpoint take_while (f : ascii -> bool) (s : text) : text :=
  match s with
  | [] => []
  | c :: s' => if f c then c :: take_while f s' else []
  end.

Fixpoint drop_while (f : ascii -> bool) (s : text) : text :=
  match s with
  | [] => []
  | c :: s' => if f c then drop_while f s' else s
  end.

(** Split at every occurrence of [sep]; the pieces exclude it. *)
Fixpoint split_on (sep : ascii) (s : text) : list text :=
  match s with
  | [] => [[]]
  | c :: s' =>
      if Ascii.eqb c sep then [] :: split_on sep s'
      else match split_on sep s' with
           | [] => [[c]]
           | x :: rest => (c :: x) :: rest
           end
  end.

Definition in_range (lo hi : nat) (c : ascii) : bool :=
  (lo <=? nat_of_ascii c) && (nat_of_ascii c <=? hi).

Definition is_letter (c : ascii) : bool := in_range 65 90 c || in_range 97 122 c.
Definition is_digit (c : ascii) : bool := in_range 48 57 c.

(** Characters of a name: letters, digits, [-], [_], [.]; a name starts with
    a letter or [_]. *)
Definition is_name_start (c : ascii) : bool :=
  is_letter c || Ascii.eqb c "_"%char.
Definition is_name_char (c : ascii) : bool :=
  is_name_start c || is_digit c || Ascii.eqb c "-"%char || Ascii.eqb c "."%char.

Definition is_name (s : text) : bool :=
  match s with
  | [] => false
  | c :: _ => is_name_start c && forallb is_name_char s
  end.

(** A step [name] or [name[k]]. *)
Definition parse_step (s : text) : option (text * option nat) :=
  let name := take_while is_name_char s in
  let rest := drop_while is_name_char s in
  if is_name name then
    match rest with
    | [] => Some (name, None)
    | c :: rest' =>
        if Ascii.eqb c "["%char then
          let digits := take_while is_digit rest' in
          match digits, drop_while is_digit rest' with
          | _ :: _, [d] =>
              if Ascii.eqb d "]"%char then
                match NilEmpty.uint_of_string (string_of_list_ascii digits) with
                | Some u => Some (name, Some (Nat.of_uint u))
                | None => None
                end
              else None
          | _, _ => None
          end
        else None
    end
  else None.

Fixpoint parse_steps (segs : list text) : option (list (text * option nat)) :=
  match segs with
  | [] => Some []
  | seg :: rest =>
      match parse_step seg, parse_steps rest with
      | Some st, Some sts => Some (st :: sts)
      | _, _ => None
      end
  end.

Definition not_dquote (c : ascii) : bool := negb (Ascii.eqb c dquote).

Definition xpath_parse (s : text) : option xpath_expr :=
  match strip_prefix (lit "//*[@id=" ++ [dquote]) s with
  | Some rest =>
      if text_eqb (drop_while not_dquote rest) (dquote :: lit "]")
      then Some (ById (take_while not_dquote rest))
      else None
  | None =>
      match s with
      | c :: s' =>
          if Ascii.eqb c "/"%char then
            match parse_steps (split_on "/"%char s') with
            | Some (st :: sts) => Some (ByPath (st :: sts))
            | _ => None
            end
          else None
      | [] => None
      end
  end.

(** Name test of a step.  In an HTML document a name without prefix selects
    elements of the HTML namespace only, and compares without regard to
    case; an element of another namespace ([svg], [math] and what they
    contain) passes no such test. *)
Definition name_test (name : text) (n : node) : bool :=
  match n with
  | ElementNode e _ =>
      match namespaceURI e with
      | NS_HTML => text_eqb (toLowerCase name) (toLowerCase (nodeName e))
      | _ => false
      end
  | _ => false
  end.

(** Indices (from [i] on) of the nodes of [l] that pass the name test. *)
Fixpoint named_children (name : text) (i : nat) (l : list node) : list nat :=
  match l with
  | [] => []
  | c :: l' =>
      if name_test name c then i :: named_children name (S i) l'
      else named_children name (S i) l'
  end.

(** [child::name] or [child::name[k]] from the context node [ctx]: [k] is the
    1-based position among the children that pass the name test. *)
Definition eval_step (doc : list node) (ctx : path) (st : text * option nat)
  : list path :=
  let named := named_children (fst st) 0 (childNodes_at doc ctx) in
  match snd st with
  | None => map (fun i => ctx ++ [i]) named
  | Some O => []
  | Some (S k) =>
      match nth_error named k with
      | Some i => [ctx ++ [i]]
      | None => []
      end
  end.

Fixpoint eval_steps (doc : list node) (ctxs : list path)
  (steps : list (text * option nat)) : list path :=
  match steps with
  | [] => ctxs
  | st :: rest => eval_steps doc (flat_map (fun c => eval_step doc c st) ctxs) rest
  end.

Definition has_id (v : text) (e : element) : bool :=
  match id_attr e with
  | Some w => text_eqb w v
  | None => false
  end.

(** The node-set an expression selects, document order. *)
Definition xpath_eval (doc : list node) (x : xpath_expr) : list path :=
  match x with
  | ById v => querySelectorAll doc [] (has_id v)
  | ByPath steps => eval_steps doc [[]] steps
  end.

Definition squote : ascii := ascii_of_nat 39.

(** One sure sign of an expression the browser rejects with a syntax error:
    a string literal left open.  Where the expression holds no single quote,
    every literal opens and closes with a double quote, so an odd number of
    double quotes leaves one open. *)
Definition xpath_malformed (s : text) : bool :=
  forallb (fun c => negb (Ascii.eqb c squote)) s &&
  Nat.odd (count_occ ascii_dec s dquote).

(** [document.evaluate(path, document, null,
    XPathResult.FIRST_ORDERED_NODE_TYPE, null).singleNodeValue]: the first
    node of the node-set in document order, [null] when it is empty.  The
    outer [None]: no value in this model, because the browser throws (see
    [xpath_malformed]) or because the expression lies outside the fragment. *)
Definition elementByXPath (doc : list node) (expr : text) : option (option path) :=
  match xpath_parse expr with
  | None => None
  | Some x => Some (hd_error (xpath_eval doc x))
  end.

End Address.

Import Address.

(* ------------------------------------------------------------------ *)
(** * Browser state *)
(* ------------------------------------------------------------------ *)

Module Browser.

(** A range inside one text node: [range.setStart(tn, start);
    range.setEnd(tn, end)]. *)
Record range : Type := mkRange {
  container : path;
  startOffset : nat;
  endOffset : nat
}.

Record page : Type := mkPage {
  document : list node;           (* children of the document node *)
  scrolled : list path;           (* [scrollIntoView] calls, latest first *)
  selection : list range;         (* ranges of [window.getSelection()] *)
  activeElement : option path     (* the focused element *)
}.

Definition scrollIntoView (p : page) (el : path) : page :=
  mkPage (document p) (el :: scrolled p) (selection p) (activeElement p).

(** Selection and focus are the browser's to keep.  What
    [sel.removeAllRanges(); sel.addRange(range)] and [focusEl.focus()] make
    of them is not decided by the scripts (adding a range may move the focus
    to an editing host, focusing may move or drop the range, and the focus
    may land on an outer editing host): both are operations of the browser
    at hand.  Neither touches the tree. *)
Record browser : Type := mkBrowser {
  addRange : page -> range -> page;
  focus : page -> path -> page;
  addRange_document : forall p r, document (addRange p r) = document p;
  focus_document : forall p el, document (focus p el) = document p
}.

End Browser.

Import Browser.

(* ------------------------------------------------------------------ *)
(** * [JS_EXPAND_TOGGLES] *)
(* ------------------------------------------------------------------ *)

Definition NOTION_PAGE_CONTENT : text := lit "notion-page-content".

(** [[role="button"][aria-expanded="false"]] *)
Definition collapsed_toggle (e : element) : bool :=
  attr_is (lit "role") (lit "button") e &&
  attr_is (lit "aria-expanded") (lit "false") e.

(** What a click does is the page's business: [click] is the page's handler. *)
Definition JS_EXPAND_TOGGLES (click : page -> path -> page) (p : page) : page :=
  match querySelector (document p) (has_class NOTION_PAGE_CONTENT) with
  | None => p
  | Some root =>
      let buttons := querySelectorAll (document p) root collapsed_toggle in
      fold_left click buttons p
  end.

(* ------------------------------------------------------------------ *)
(** * [JS_FIND_MATCHES] *)
(* ------------------------------------------------------------------ *)

Module Scanner.

(** One entry of the result array. *)
Record MatchRef : Type := mkMatchRef {
  xpath : text;
  nodeIndex : nat;
  start : nat;
  end_ : nat;
  preview : text
}.

(** The body of the [while ((m = re.exec(s)) !== null)] loop. *)
Definition push_match (doc : list node) (el : path) (ti : nat) (s : text)
  (m : nat * nat) : MatchRef :=
  let start := fst m in
  let end_ := snd m in
  mkMatchRef (getXPath doc el) ti start end_
    (slice s (Nat.max 0 (start - 10)) (Nat.min (length s) (end_ + 10))).

(** One round of [for (let ti = 0; ti < textNodes.length; ti++)]. *)
Definition scan_text_node (doc : list node) (el : path) (ti : nat) (s : text)
  : list MatchRef :=
  if negb (has_dollar s) then []
  else map (push_match doc el ti s) (find_all s).

Fixpoint scan_text_nodes (doc : list node) (el : path) (ti : nat)
  (textNodes : list (path * text)) : list MatchRef :=
  match textNodes with
  | [] => []
  | tn :: rest =>
      scan_text_node doc el ti (snd tn) ++ scan_text_nodes doc el (S ti) rest
  end.

(** One round of [for (const el of candidates)]. *)
Definition scan_leaf (doc : list node) (el : path) : list MatchRef :=
  match node_at doc el with
  | Some (ElementNode e _) =>
      if negb (has_dollar (innerText e)) then []
      else
        let textNodes := getTextNodes doc el in
        match textNodes with
        | [] => []
        | _ :: _ => scan_text_nodes doc el 0 textNodes
        end
  | _ => []
  end.

Definition editable_leaf : element -> bool :=
  attr_is (lit "data-content-editable-leaf") (lit "true").

(** [.filter(el => el && el.offsetParent !== null)] *)
Definition visible (doc : list node) (el : path) : bool :=
  match node_at doc el with
  | Some (ElementNode e _) => offsetParent e
  | _ => false
  end.

Definition candidates (doc : list node) (root : path) : list path :=
  filter (visible doc) (querySelectorAll doc root editable_leaf).

Definition JS_FIND_MATCHES (p : page) : list MatchRef :=
  let doc := document p in
  match querySelector doc (has_class NOTION_PAGE_CONTENT) with
  | None => []
  | Some root => flat_map (scan_leaf doc) (candidates doc root)
  end.

End Scanner.

Import Scanner.

(* ------------------------------------------------------------------ *)
(** * [JS_SELECT_MATCH] *)
(* ------------------------------------------------------------------ *)

Module Selector.

(** [arguments[0]]: whatever numbers the caller sends. *)
Record SelectArgs : Type := mkSelectArgs {
  arg_xpath : text;
  arg_nodeIndex : Z;
  arg_start : Z;
  arg_end : Z
}.

(** [{ok:true}] or [{ok:false, error:msg}] *)
Inductive SelectResult : Type :=
| SelectOk
| SelectError (error : text).

Definition NOT_FOUND : text := lit "Element not found for XPath".
Definition INDEX_OUT_OF_RANGE : text := lit "Text node index out of range".
Definition INVALID_OFFSETS : text := lit "Offsets invalid for text node".

(** [while (focusEl && focusEl.nodeType === Node.ELEMENT_NODE)]: climb to the
    closest ancestor-or-self with [contenteditable="true"]; [None] when the
    climb leaves the elements ([parentElement] of the root element is null). *)
Fixpoint closest_editable (doc : list node) (fuel : nat) (focusEl : path)
  : option path :=
  match fuel with
  | O => None
  | S fuel' =>
      match node_at doc focusEl with
      | Some (ElementNode e _) =>
          match getAttribute (attributes e) (lit "contenteditable") with
          | Some ce =>
              if text_eqb ce (lit "true") then Some focusEl
              else closest_editable doc fuel' (parentNode focusEl)
          | None => closest_editable doc fuel' (parentNode focusEl)
          end
      | _ => None
      end
  end.

(** Is the node at [q] an element?  Of the nodes of the tree only elements
    have the methods [scrollIntoView] and [focus]. *)
Definition is_element (doc : list node) (q : path) : bool :=
  match node_at doc q with
  | Some (ElementNode _ _) => true
  | _ => false
  end.

(** The helper from [if (!el)] on, state passing, in the browser [B]; [res]
    is what [elementByXPath(xpath)] gave.  The answer [None]: the script
    threw, and the page is as it was left then.  On a node that is not an
    element, [el.scrollIntoView] fails inside its [try], and [focusEl], not
    entering the loop, stays that node, whose [focus] is no function. *)
Definition select_at (B : browser) (p : page) (args : SelectArgs)
  (res : option path) : page * option SelectResult :=
  let doc := document p in
  match res with
  | None => (p, Some (SelectError NOT_FOUND))
  | Some el =>
      let p1 := if is_element doc el then scrollIntoView p el else p in
      let textNodes := getTextNodes doc el in
      if ((arg_nodeIndex args <? 0) ||
          (arg_nodeIndex args >=? Z.of_nat (length textNodes)))%Z
      then (p1, Some (SelectError INDEX_OUT_OF_RANGE))
      else
        match nth_error textNodes (Z.to_nat (arg_nodeIndex args)) with
        | None => (p1, Some (SelectError INDEX_OUT_OF_RANGE))
        | Some (tn, val) =>
            if ((arg_start args <? 0) ||
                (arg_end args >? Z.of_nat (length val)) ||
                (arg_start args >=? arg_end args))%Z
            then (p1, Some (SelectError INVALID_OFFSETS))
            else
              let r := mkRange tn (Z.to_nat (arg_start args))
                                  (Z.to_nat (arg_end args)) in
              let p2 := addRange B p1 r in
              if is_element doc el then
                match closest_editable doc (S (length el)) el with
                | Some focusEl => (focus B p2 focusEl, Some SelectOk)
                | None => (p2, Some SelectOk)
                end
              else (p2, None)
        end
  end.

(** The helper on the addresses of the modelled fragment.  [None]: no
    answer, [document.evaluate] having thrown or been given an expression
    outside the fragment (see [elementByXPath]); the nodes the fragment
    finds are elements, on which the script does not throw. *)
Definition JS_SELECT_MATCH (B : browser) (p : page) (args : SelectArgs)
  : option (page * SelectResult) :=
  match elementByXPath (document p) (arg_xpath args) with
  | None => None
  | Some res =>
      match select_at B p args res with
      | (p', Some r) => Some (p', r)
      | (_, None) => None
      end
  end.

End Selector.

Import Selector.

(* ------------------------------------------------------------------ *)
(** * [process_all_matches] *)
(* ------------------------------------------------------------------ *)

Module Controller.

(** What [driver.execute_script(JS_SELECT_MATCH, ...)] gives the loop: the
    value the script returned ([None] for [null]), or the exception Selenium
    raises when the script throws. *)
Inductive script_result : Type :=
| Returned (sel_res : option SelectResult)
| Raised.

(** The WebDriver session as the loop sees it: four scripts acting on a
    world [W].  The pacing [time.sleep] calls have no effect of their own;
    whatever the renderer does meanwhile belongs to the step before. *)
Record driver (W : Type) : Type := mkDriver {
  expand_toggles : W -> W;                       (* [JS_EXPAND_TOGGLES] *)
  find_matches : W -> W * list MatchRef;         (* [JS_FIND_MATCHES] *)
  select_match : W -> SelectArgs -> W * script_result;
                                                 (* [JS_SELECT_MATCH] *)
  send_shortcut_and_enter : W -> W               (* the conversion trigger *)
}.

(** The dictionary built from [m] for [JS_SELECT_MATCH]. *)
Definition args_of (m : MatchRef) : SelectArgs :=
  mkSelectArgs (xpath m) (Z.of_nat (nodeIndex m))
               (Z.of_nat (start m)) (Z.of_nat (end_ m)).

(** [not sel_res or not sel_res.get("ok")] is [negb (is_ok sel_res)]. *)
Definition is_ok (sel_res : script_result) : bool :=
  match sel_res with
  | Returned (Some SelectOk) => true
  | _ => false
  end.

(** How a call ends.  The loop has no [try]: an exception of the selector
    leaves the function at once, and nothing is returned. *)
Record outcome (W : Type) : Type := mkOutcome {
  final : W;
  processed : nat;      (* the count, when the call ends *)
  passes : nat;         (* loop bodies entered *)
  raised : bool         (* the call ended by the exception *)
}.

Section Loop.
Variable W : Type.
Variable d : driver W.

(** [for _pass in range(max_passes)], [n] rounds left. *)
Fixpoint pass_loop (n : nat) (w : W) (processed passes : nat) : outcome W :=
  match n with
  | O => mkOutcome w processed passes false
  | S n' =>
      let w1 := expand_toggles d w in
      let '(w2, matches) := find_matches d w1 in
      match matches with
      | [] => mkOutcome w2 processed (S passes) false
      | m :: _ =>
          let '(w3, sel_res) := select_match d w2 (args_of m) in
          match sel_res with
          | Raised => mkOutcome w3 processed (S passes) true
          | Returned _ =>
              if is_ok sel_res then
                pass_loop n' (send_shortcut_and_enter d w3)
                          (S processed) (S passes)
              else pass_loop n' w3 processed (S passes)
          end
      end
  end.

(** [range(max_passes)] is empty for a negative bound. *)
Definition run (w : W) (max_passes : Z) : outcome W :=
  pass_loop (Z.to_nat max_passes) w 0 0.

(** The value the call returns; [None] when it ends by the exception. *)
Definition process_all_matches (w : W) (max_passes : Z) : option nat :=
  let o := run w max_passes in
  if raised o then None else Some (processed o).
End Loop.

(** What the session gives for a run of the selector. *)
Definition script_answer (a : page * option SelectResult)
  : page * script_result :=
  match a with
  | (p', Some r) => (p', Returned (Some r))
  | (p', None) => (p', Raised)
  end.

(** The session on a modelled page, in the browser [B].  [click] is the
    page's click handler, [trigger] the effect of the equation shortcut.
    When [document.evaluate] throws, on a malformed address, the script
    throws and Selenium raises.  What an expression outside the modelled
    fragment evaluates to is the browser's to say: [beyond] is its
    [document.evaluate] on those ([None] where it throws). *)
Definition page_driver (B : browser)
  (beyond : page -> text -> option (option path))
  (click : page -> path -> page) (trigger : page -> page)
  : driver page :=
  mkDriver
    (JS_EXPAND_TOGGLES click)
    (fun p => (p, JS_FIND_MATCHES p))
    (fun p args =>
       match elementByXPath (document p) (arg_xpath args) with
       | Some res => script_answer (select_at B p args res)
       | None =>
           if xpath_malformed (arg_xpath args) then (p, Raised)
           else
             match beyond p (arg_xpath args) with
             | Some res => script_answer (select_at B p args res)
             | None => (p, Raised)
             end
       end)
    trigger.

End Controller.

Import Controller.

(* ------------------------------------------------------------------ *)
(** * [send_shortcut_and_enter] and [is_mac] *)
(* ------------------------------------------------------------------ *)

Module Keyboard.

(** The members of [selenium.webdriver.common.keys.Keys] the script names,
    and plain characters. *)
Inductive key : Type :=
| COMMAND
| CONTROL
| SHIFT
| ENTER
| Char (c : ascii).

(** One entry of an [ActionChains] queue. *)
Inductive action : Type :=
| key_down (k : key)
| key_up (k : key)
| send_keys (ks : list key).

(** [sys.platform == "darwin"] *)
Definition is_mac (platform : text) : bool := text_eqb platform (lit "darwin").

(** The two chains the function performs, in this order (a [time.sleep]
    follows each). *)
Definition send_shortcut_and_enter (platform : text) : list (list action) :=
  let mod_ := if is_mac platform then COMMAND else CONTROL in
  [[key_down mod_; key_down SHIFT; send_keys [Char "e"%char];
    key_up SHIFT; key_up mod_];
   [send_keys [ENTER]]].

Definition key_eqb (a b : key) : bool :=
  match a, b with
  | COMMAND, COMMAND | CONTROL, CONTROL | SHIFT, SHIFT | ENTER, ENTER => true
  | Char c, Char d => Ascii.eqb c d
  | _, _ => false
  end.

(** The input state of the session: the keys held down, and the key strokes
    delivered so far (latest first), each with the keys held at that time. *)
Record keyboard : Type := mkKeyboard {
  held : list key;
  typed : list (key * list key)
}.

Definition perform_action (kb : keyboard) (a : action) : keyboard :=
  match a with
  | key_down k => mkKeyboard (k :: held kb) (typed kb)
  | key_up k =>
      mkKeyboard (filter (fun h => negb (key_eqb h k)) (held kb)) (typed kb)
  | send_keys ks =>
      mkKeyboard (held kb) (rev (map (fun k => (k, held kb)) ks) ++ typed kb)
  end.

(** [ActionChains(driver)....perform()] *)
Definition perform (kb : keyboard) (chain : list action) : keyboard :=
  fold_left perform_action chain kb.

Definition perform_all (kb : keyboard) (chains : list (list action)) : keyboard :=
  fold_left perform chains kb.

End Keyboard.

(* ------------------------------------------------------------------ *)
(** * [on_login_gate] *)
(* ------------------------------------------------------------------ *)

Module Login.

Section Gate.
Variable W : Type.

(** [driver.find_elements(By.CSS_SELECTOR, sel)], the selector given as the
    predicate it denotes; [None] when WebDriver raises. *)
Variable find_elements : W -> (element -> bool) -> option (list path).

(** The selector list [input[type="email"], input[name="email"],
    input[autocomplete="email"], input[placeholder*="email" i]], as the
    browser reads it. *)
Variable email_input : element -> bool.

Definition on_login_gate (w : W) : bool :=
  match find_elements w (has_class NOTION_PAGE_CONTENT) with
  | None => false
  | Some canvas =>
      let has_canvas := 0 <? length canvas in
      if has_canvas then false
      else
        match find_elements w email_input with
        | None => false
        | Some email_inputs => 0 <? length email_inputs
        end
  end.
End Gate.

(** The query on a modelled page. *)
Definition page_find_elements (p : page) (sel : element -> bool)
  : option (list path) :=
  Some (querySelectorAll (document p) [] sel).

End Login.

(* ------------------------------------------------------------------ *)
(** * A conversion trigger for the controller properties *)
(* ------------------------------------------------------------------ *)

Module Stub.

(* What the equation shortcut does to the page is decided by the page, not
   by the repository.  The controller properties of the specification are
   stated for a trigger that removes the delimiters of the selected match;
   this module builds that trigger, and small pages to run the loop on. *)

(** Two characters on each side for a [$$...$$] match, one otherwise. *)
Definition delimiter_width (span : text) : nat :=
  match match_here DOUBLE_DOLLAR span with
  | Some len => if len =? length span then 2 else 1
  | None => 1
  end.

Definition strip_delimiters (span : text) : text :=
  let w := delimiter_width span in
  slice span w (length span - w).

Definition remove_delimiters (s : text) (start end_ : nat) : text :=
  firstn start s ++ strip_delimiters (slice s start end_) ++ skipn end_ s.

(** Replace the value of the text node at [p]. *)
Fixpoint update_text (ns : list node) (p : path) (v : text) : list node :=
  match p with
  | [] => ns
  | i :: rest =>
      (fix upd (j : nat) (l : list node) {struct l} : list node :=
         match l with
         | [] => []
         | n :: l' =>
             match j with
             | S j' => n :: upd j' l'
             | O =>
                 match rest, n with
                 | [], TextNode _ => TextNode v
                 | _ :: _, ElementNode e ch => ElementNode e (update_text ch rest v)
                 | _, _ => n
                 end :: l'
             end
         end) i ns
  end.

Fixpoint text_of (n : node) : text :=
  match n with
  | ElementNode _ ch => concat (map text_of ch)
  | TextNode v => v
  | CommentNode _ => []
  end.

(** The renderer's view after a change: [innerText] of every element is the
    text below it. *)
Fixpoint relayout (n : node) : node :=
  match n with
  | ElementNode e ch =>
      ElementNode (mkElement (nodeName e) (namespaceURI e) (id_attr e)
                             (classList e)
                             (attributes e) (offsetParent e)
                             (concat (map text_of ch)))
                  (map relayout ch)
  | _ => n
  end.

(** Modelled from the spec: the effect of the conversion trigger, which the
    page decides and the repository does not contain.  It is the trigger of
    the controller-termination property, one that "deterministically removes
    the triggered match's delimiters": in the selected text node the opening
    and the closing delimiter of the selected span are deleted, every other
    character stays, and the renderer recomputes [innerText]. *)
Definition trigger (p : page) : page :=
  match selection p with
  | [r] =>
      match node_at (document p) (container r) with
      | Some (TextNode s) =>
          let s' := remove_delimiters s (startOffset r) (endOffset r) in
          mkPage (map relayout (update_text (document p) (container r) s'))
                 (scrolled p) [] (activeElement p)
      | _ => p
      end
  | _ => p
  end.

(** A page without click handlers. *)
Definition no_click (p : page) (_ : path) : page := p.

(** A browser to run the examples in: the selection becomes the range
    added, the focus goes to the element focused, and neither moves the
    other.  The properties of the selector are stated for every browser. *)
Definition sample_addRange (p : page) (r : range) : page :=
  mkPage (document p) (scrolled p) [r] (activeElement p).

Definition sample_focus (p : page) (el : path) : page :=
  mkPage (document p) (scrolled p) (selection p) (Some el).

Definition sample_browser : browser :=
  mkBrowser sample_addRange sample_focus
            (fun _ _ => eq_refl) (fun _ _ => eq_refl).

(** A browser that rejects every expression outside the fragment. *)
Definition no_beyond (_ : page) (_ : text) : option (option path) := None.

Definition stub_driver : driver page :=
  page_driver sample_browser no_beyond no_click trigger.

(** A visible element without an id. *)
Definition elem (name : string) (classes : list text)
  (attrs : list (text * text)) : element :=
  mkElement (lit name) NS_HTML None classes attrs true [].

Definition leaf_of (s : text) : node :=
  ElementNode (elem "DIV" []
                 [(lit "data-content-editable-leaf", lit "true");
                  (lit "contenteditable", lit "true")])
              [TextNode s].

(** A document with one visible editable leaf per text of [leaves], inside
    the page canvas. *)
Definition page_of (leaves : list text) : page :=
  mkPage
    (map relayout
       [ElementNode (elem "HTML" [] [])
          [ElementNode (elem "HEAD" [] []) [];
           ElementNode (elem "BODY" [] [])
             [ElementNode (elem "DIV" [NOTION_PAGE_CONTENT] [])
                          (map leaf_of leaves)]]])
    [] [] None.

End Stub.

(* ================================================================== *)
(** * Vocabulary of the properties *)
(* ================================================================== *)

Import Stub.

(** Is there a [$] at index [i] of [u]? *)
Definition dollar_at (u : text) (i : nat) : bool :=
  match nth_error u i with
  | Some c => Ascii.eqb dollar c
  | None => false
  end.

(** Least [n' >= n] below [n + fuel] with [f n']. *)
Fixpoint least_from (f : nat -> bool) (n fuel : nat) : option nat :=
  match fuel with
  | O => None
  | S fuel' => if f n then Some n else least_from f (S n) fuel'
  end.

(** Index of the first closing [$$] that leaves a non-empty body. *)
Definition double_close (u : text) : option nat :=
  if dollar_at u 0 && dollar_at u 1
  then least_from (fun n => dollar_at u n && dollar_at u (S n)) 3 (length u - 2)
  else None.

(** Index of the first closing [$] that leaves a non-empty body. *)
Definition single_close (u : text) : option nat :=
  if dollar_at u 0 then least_from (dollar_at u) 2 (length u - 1) else None.

(** Length of the span the expression matches at the head of [u]. *)
Definition span_len (u : text) : option nat :=
  match double_close u with
  | Some n => Some (n + 2)
  | None =>
      match single_close u with
      | Some n => Some (n + 1)
      | None => None
      end
  end.

(** What [.+?] followed by [k] does: the first proper tail that [k] accepts. *)
Fixpoint scan_tails (A : Type) (k : text -> option A) (s : text) : option A :=
  match s with
  | [] => None
  | _ :: s' =>
      match k s' with
      | Some x => Some x
      | None => scan_tails k s'
      end
  end.

(** The two delimiter shapes, read at the head of [u]: [\$(.+?)\$] needs a
    [$], at least one character of any kind (line breaks included), and a
    [$]; [\$\$(.+?)\$\$] the same with [$$]. *)
Definition single_span (u : text) (len : nat) : bool :=
  (3 <=? len) && (len <=? length u) &&
  dollar_at u 0 && dollar_at u (len - 1).

Definition double_span (u : text) (len : nat) : bool :=
  (5 <=? len) && (len <=? length u) &&
  dollar_at u 0 && dollar_at u 1 &&
  dollar_at u (len - 2) && dollar_at u (len - 1).

(** The match the expression must choose at the head of [u]: the shortest
    [$$...$$] when there is one, otherwise the shortest [$...$]. *)
Definition chosen (u : text) (len : nat) : Prop :=
  (double_span u len = true /\
   forall l, l < len -> double_span u l = false) \/
  ((forall l, double_span u l = false) /\
   single_span u len = true /\
   forall l, l < len -> single_span u l = false).

(** No match starts at index [j] of [s]. *)
Definition no_span_at (s : text) (j : nat) : Prop :=
  forall len, single_span (skipn j s) len = false.

(** The matches a repeated, non-overlapping, leftmost-first scan of [s] from
    index [i] must report. *)
Inductive scan_spec (s : text) : nat -> list (nat * nat) -> Prop :=
| scan_done : forall i,
    (forall j, i <= j <= length s -> no_span_at s j) ->
    scan_spec s i []
| scan_next : forall i start end_ l,
    i <= start ->
    (forall j, i <= j < start -> no_span_at s j) ->
    start < end_ <= length s ->
    chosen (skipn start s) (end_ - start) ->
    scan_spec s end_ l ->
    scan_spec s i ((start, end_) :: l).

(** The [exec] loop, as a relation (no fuel). *)
Inductive matches_from (s : text) : nat -> list (nat * nat) -> Prop :=
| matches_done : forall i,
    exec DOLLAR_RE s i = None -> matches_from s i []
| matches_next : forall i start end_ l,
    exec DOLLAR_RE s i = Some (start, end_ - start) ->
    start + 3 <= end_ <= length s ->
    matches_from s end_ l ->
    matches_from s i ((start, end_) :: l).

(** The page a successful selection leaves in the browser [B]: the
    element [el] scrolled into view, then the range in [tn] given to the
    selection, then the nearest editable element focused, if there is one. *)
Definition selected_page (B : browser) (p : page) (args : SelectArgs)
  (el tn : path) : page :=
  let p2 := addRange B (scrollIntoView p el)
                     (mkRange tn (Z.to_nat (arg_start args))
                              (Z.to_nat (arg_end args))) in
  match closest_editable (document p) (S (length el)) el with
  | Some focusEl => focus B p2 focusEl
  | None => p2
  end.

Definition offsets_valid (args : SelectArgs) (val : text) : Prop :=
  (0 <= arg_start args < arg_end args /\
   arg_end args <= Z.of_nat (length val))%Z.

(** The four ways the selector answers. *)
Inductive select_case (B : browser) (p : page) (args : SelectArgs)
  : option (page * SelectResult) -> Prop :=
| case_not_found :
    forall x, xpath_parse (arg_xpath args) = Some x ->
    hd_error (xpath_eval (document p) x) = None ->
    select_case B p args (Some (p, SelectError NOT_FOUND))
| case_index :
    forall x el, xpath_parse (arg_xpath args) = Some x ->
    hd_error (xpath_eval (document p) x) = Some el ->
    (arg_nodeIndex args < 0 \/
     Z.of_nat (length (getTextNodes (document p) el)) <= arg_nodeIndex args)%Z ->
    select_case B p args
      (Some (scrollIntoView p el, SelectError INDEX_OUT_OF_RANGE))
| case_offsets :
    forall x el tn val, xpath_parse (arg_xpath args) = Some x ->
    hd_error (xpath_eval (document p) x) = Some el ->
    (0 <= arg_nodeIndex args
     < Z.of_nat (length (getTextNodes (document p) el)))%Z ->
    nth_error (getTextNodes (document p) el) (Z.to_nat (arg_nodeIndex args))
    = Some (tn, val) ->
    ~ offsets_valid args val ->
    select_case B p args
      (Some (scrollIntoView p el, SelectError INVALID_OFFSETS))
| case_ok :
    forall x el tn val, xpath_parse (arg_xpath args) = Some x ->
    hd_error (xpath_eval (document p) x) = Some el ->
    (0 <= arg_nodeIndex args
     < Z.of_nat (length (getTextNodes (document p) el)))%Z ->
    nth_error (getTextNodes (document p) el) (Z.to_nat (arg_nodeIndex args))
    = Some (tn, val) ->
    offsets_valid args val ->
    select_case B p args (Some (selected_page B p args el tn, SelectOk)).

(** What the scan of the next pass will report from [w]. *)
Definition next_scan (W : Type) (d : driver W) (w : W) : list MatchRef :=
  snd (find_matches d (expand_toggles d w)).

(** The world right after that scan. *)
Definition after_scan (W : Type) (d : driver W) (w : W) : W :=
  fst (find_matches d (expand_toggles d w)).

(** The world at the end of a pass that selects [m] and triggers. *)
Definition after_pass (W : Type) (d : driver W) (w : W) (m : MatchRef) : W :=
  send_shortcut_and_enter d
    (fst (select_match d (after_scan d w) (args_of m))).

Section NodeInduction.
Variable P : node -> Prop.
Hypothesis P_element : forall e ch, Forall P ch -> P (ElementNode e ch).
Hypothesis P_text : forall v, P (TextNode v).
Hypothesis P_comment : forall v, P (CommentNode v).

Fixpoint node_induction (n : node) : P n :=
  match n with
  | ElementNode e ch =>
      P_element e
        ((fix all (l : list node) : Forall P l :=
            match l with
            | [] => Forall_nil P
            | c :: l' => Forall_cons c (node_induction c) (all l')
            end) ch)
  | TextNode v => P_text v
  | CommentNode v => P_comment v
  end.
End NodeInduction.

(** The node reached from [n] along [q]. *)
Fixpoint sub_at (n : node) (q : path) : option node :=
  match q with
  | [] => Some n
  | i :: q' =>
      match n with
      | ElementNode _ ch =>
          match nth_error ch i with
          | Some c => sub_at c q'
          | None => None
          end
      | _ => None
      end
  end.

(** Document order on paths: an ancestor comes before its descendants, an
    earlier sibling's subtree before a later sibling's. *)
Inductive path_lt : path -> path -> Prop :=
| path_lt_nil : forall i q, path_lt [] (i :: q)
| path_lt_head : forall i j p q, i < j -> path_lt (i :: p) (j :: q)
| path_lt_tail : forall i p q, path_lt p q -> path_lt (i :: p) (i :: q).

(** Order of enumerated nodes. *)
Definition node_lt (a b : path * node) : Prop := path_lt (fst a) (fst b).

(** Where a reported match sits: leaf, index of the text node in the leaf's
    traversal, the text of that node, and the offsets. *)
Definition location : Type := (path * nat * text * (nat * nat))%type.

Definition ref_of (doc : list node) (l : location) : MatchRef :=
  let '(el, ti, s, m) := l in push_match doc el ti s m.

Definition locate_text_node (el : path) (ti : nat) (s : text) : list location :=
  if negb (has_dollar s) then []
  else map (fun m => (el, ti, s, m)) (find_all s).

Fixpoint locate_text_nodes (el : path) (ti : nat)
  (textNodes : list (path * text)) : list location :=
  match textNodes with
  | [] => []
  | tn :: rest =>
      locate_text_node el ti (snd tn) ++ locate_text_nodes el (S ti) rest
  end.

Definition locate_leaf (doc : list node) (el : path) : list location :=
  match node_at doc el with
  | Some (ElementNode e _) =>
      if negb (has_dollar (innerText e)) then []
      else locate_text_nodes el 0 (getTextNodes doc el)
  | _ => []
  end.

Definition locate (doc : list node) : list location :=
  match querySelector doc (has_class NOTION_PAGE_CONTENT) with
  | None => []
  | Some root => flat_map (locate_leaf doc) (candidates doc root)
  end.

(** Leaf in document order, then text node, then match position. *)
Definition location_lt (a b : location) : Prop :=
  let '(el, ti, _, m) := a in
  let '(el', ti', _, m') := b in
  path_lt el el' \/
  (el = el' /\ (ti < ti' \/ (ti = ti' /\ fst m < fst m'))).

Definition upper_ascii (c : ascii) : ascii :=
  let n := nat_of_ascii c in
  if (97 <=? n) && (n <=? 122) then ascii_of_nat (n - 32) else c.

Definition no_lower (c : ascii) : bool := negb (in_range 97 122 c).

(** The [nodeName] of an HTML element in an HTML document: a name in upper
    case. *)
Definition html_name (nm : text) : bool := is_name nm && forallb no_lower nm.

(** An HTML element: of the HTML namespace, with such a name. *)
Definition html_element (e : element) : bool :=
  match namespaceURI e with
  | NS_HTML => html_name (nodeName e)
  | _ => false
  end.

(** Every element of the document is an HTML element. *)
Definition html_names (doc : list node) : bool :=
  forallb (fun qn => match snd qn with
                     | ElementNode e _ => html_element e
                     | _ => true
                     end)
          (forest_nodes tree_nodes 0 doc).

Ltac ascii_cases c :=
  destruct c as [b0 b1 b2 b3 b4 b5 b6 b7];
  destruct b0, b1, b2, b3, b4, b5, b6, b7.

(** A step of the path, before it is written out. *)
Definition step_of (sibs : list node) (self : nat) (e : element)
  : text * option nat :=
  let '(nb, idx) := count_sibs sibs 0 self (nodeName e) 0 0 in
  (toLowerCase (nodeName e), if 1 <? nb then Some idx else None).

Definition render_step (st : text * option nat) : text :=
  match snd st with
  | None => fst st
  | Some k => fst st ++ lit "[" ++ dec k ++ lit "]"
  end.

Definition no_slash (x : text) : bool :=
  forallb (fun c => negb (Ascii.eqb c "/"%char)) x.

(** Indices (from [i] on) of the element nodes of [l] named [nm]. *)
Fixpoint same_name (nm : text) (i : nat) (l : list node) : list nat :=
  match l with
  | [] => []
  | c :: l' =>
      match c with
      | ElementNode e _ =>
          if text_eqb (nodeName e) nm then i :: same_name nm (S i) l'
          else same_name nm (S i) l'
      | _ => same_name nm (S i) l'
      end
  end.

Fixpoint pos_of (x : nat) (l : list nat) : option nat :=
  match l with
  | [] => None
  | y :: l' => if y =? x then Some 0 else option_map S (pos_of x l')
  end.

(** The steps of the path to [p], from the top. *)
Fixpoint steps_down (sibs : list node) (p : path) : list (text * option nat) :=
  match p with
  | [] => []
  | i :: rest =>
      match nth_error sibs i with
      | Some (ElementNode e ch) => step_of sibs i e :: steps_down ch rest
      | _ => []
      end
  end.

Definition named_ok (sibs : list node) : Prop :=
  Forall (fun c => match c with
                   | ElementNode e _ => html_element e = true
                   | _ => True
                   end) sibs.

Definition nats_eqb (a b : list nat) : bool :=
  if list_eq_dec Nat.eq_dec a b then true else false.

(** The child [i] of [sibs] is an element whose name XPath can write, and
    the siblings [getXPath] counts with it (the elements of the same
    [nodeName]) are the children the name test of its step selects (the HTML
    elements of that name, whatever the case of the letters). *)
Definition step_regular (sibs : list node) (i : nat) : bool :=
  match nth_error sibs i with
  | Some (ElementNode e _) =>
      is_name (nodeName e) &&
      nats_eqb (named_children (toLowerCase (nodeName e)) 0 sibs)
               (same_name (nodeName e) 0 sibs)
  | _ => false
  end.

(** So it is at every step of the path [p], from the top. *)
Fixpoint path_regular (sibs : list node) (p : path) : bool :=
  match p with
  | [] => true
  | i :: rest =>
      step_regular sibs i &&
      match nth_error sibs i with
      | Some (ElementNode _ ch) => path_regular ch rest
      | _ => false
      end
  end.

(** A trigger that changes nothing: the scan keeps finding the match. *)
Definition idle_driver : driver page :=
  page_driver sample_browser no_beyond no_click (fun p => p).

(** A page with two spans in two leaves, and the pages the loop goes through
    with the delimiter-removing trigger. *)
Definition two_spans : page := page_of [lit "x $a$ y"; lit "$$b$$"].

Definition one_pass (p : page) : page :=
  match next_scan stub_driver p with
  | m :: _ => after_pass stub_driver p m
  | [] => p
  end.

Definition on_track (p : page) : Prop :=
  p = two_spans \/ p = one_pass two_spans \/ p = one_pass (one_pass two_spans).

(** A page to try the helpers on: two leaves inside the page canvas. *)
Definition demo : page :=
  page_of [lit "Energy is $$E=mc^2$$ always."; lit "$b$"].

Definition first_leaf_address : text := lit "/html/body/div/div[1]".

Definition first_leaf_steps : xpath_expr :=
  ByPath [(lit "html", None); (lit "body", None); (lit "div", None);
          (lit "div", Some 1)].

(** A leaf with two text nodes, the second one nested in a [span]. *)
Definition two_node_leaf : page :=
  mkPage
    (map relayout
       [ElementNode (elem "HTML" [] [])
          [ElementNode (elem "BODY" [] [])
             [ElementNode (elem "DIV" [NOTION_PAGE_CONTENT] [])
                [ElementNode
                   (elem "DIV" [] [(lit "data-content-editable-leaf", lit "true");
                                 (lit "contenteditable", lit "true")])
                   [TextNode (lit "see $x$ ");
                    ElementNode (elem "SPAN" [] []) [TextNode (lit "and $y$")]]]]]])
    [] [] None.

Definition plain (name : string) : element :=
  mkElement (lit name) NS_HTML None [] [] true [].

Definition with_id (name ident : string) : element :=
  mkElement (lit name) NS_HTML (Some (lit ident)) [] [] true [].

(** A document whose [id]s are all different. *)
Definition address_doc : list node :=
  [ElementNode (plain "HTML")
     [ElementNode (plain "HEAD") [];
      ElementNode (plain "BODY")
        [ElementNode (plain "DIV") [TextNode (lit "a")];
         TextNode (lit "x");
         ElementNode (with_id "DIV" "k") [TextNode (lit "b")];
         ElementNode (plain "P") [ElementNode (plain "SPAN") []];
         ElementNode (plain "DIV") [TextNode (lit "c")]]]].

(** A document in which two elements carry the same [id]. *)
Definition duplicate_id_doc : list node :=
  [ElementNode (plain "HTML")
     [ElementNode (plain "BODY")
        [ElementNode (with_id "DIV" "k") [TextNode (lit "first")];
         ElementNode (with_id "DIV" "k") [TextNode (lit "second")]]]].

(** ** Further vocabulary *)

(** Number of [$] in [s]. *)
Definition count_dollar (s : text) : nat := count_occ ascii_dec s dollar.

(** Does the node at [q] carry [contenteditable="true"]? *)
Definition editable (doc : list node) (q : path) : bool :=
  match node_at doc q with
  | Some (ElementNode e _) => attr_is (lit "contenteditable") (lit "true") e
  | _ => false
  end.

Definition paths_eqb (a b : list path) : bool :=
  if list_eq_dec (list_eq_dec Nat.eq_dec) a b then true else false.

(** No [id] of the document holds a double quote. *)
Definition ids_quote_free (doc : list node) : bool :=
  forallb (fun qn => match snd qn with
                     | ElementNode e _ => forallb not_dquote (el_id e)
                     | _ => true
                     end)
          (forest_nodes tree_nodes 0 doc).

(** No [id] of the document is carried by two elements. *)
Definition ids_unique (doc : list node) : bool :=
  forallb (fun qn => match snd qn with
                     | ElementNode e _ =>
                         match el_id e with
                         | [] => true
                         | _ :: _ =>
                             paths_eqb (querySelectorAll doc [] (has_id (el_id e)))
                                       [fst qn]
                         end
                     | _ => true
                     end)
          (forest_nodes tree_nodes 0 doc).

(** What the session observes of a run: the calls, one by one. *)
Inductive event : Type :=
| EvExpand
| EvFind (matches : list MatchRef)
| EvSelect (args : SelectArgs) (ok : bool)
| EvRaise (args : SelectArgs)
| EvTrigger.

(** The driver [d], keeping a log of the calls (latest first). *)
Definition logged (W : Type) (d : driver W) : driver (W * list event) :=
  mkDriver
    (fun wl => (expand_toggles d (fst wl), EvExpand :: snd wl))
    (fun wl => let '(w', ms) := find_matches d (fst wl) in
               ((w', EvFind ms :: snd wl), ms))
    (fun wl a => let '(w', r) := select_match d (fst wl) a in
                 ((w', match r with
                       | Raised => EvRaise a
                       | Returned _ => EvSelect a (is_ok r)
                       end :: snd wl), r))
    (fun wl => (send_shortcut_and_enter d (fst wl), EvTrigger :: snd wl)).

(** The shape of a run, oldest call first: passes of expand, scan, select
    the first match and, only after a successful selection, trigger; an
    empty scan ends the run, and so does a selection that raises. *)
Inductive well_paced : list event -> Prop :=
| paced_out : well_paced []
| paced_break : well_paced [EvExpand; EvFind []]
| paced_raise : forall m ms,
    well_paced [EvExpand; EvFind (m :: ms); EvRaise (args_of m)]
| paced_retry : forall m ms tr,
    well_paced tr ->
    well_paced (EvExpand :: EvFind (m :: ms) :: EvSelect (args_of m) false :: tr)
| paced_trigger : forall m ms tr,
    well_paced tr ->
    well_paced (EvExpand :: EvFind (m :: ms) :: EvSelect (args_of m) true
                  :: EvTrigger :: tr).

Definition is_trigger (e : event) : bool :=
  match e with EvTrigger => true | _ => false end.

Definition is_expand (e : event) : bool :=
  match e with EvExpand => true | _ => false end.

Definition is_raise (e : event) : bool :=
  match e with EvRaise _ => true | _ => false end.

(** A page outside the canvas of which an element carries the [id] of the
    leaf: the address of the leaf resolves to that element. *)
Definition shadowed_leaf : page :=
  mkPage
    (map relayout
       [ElementNode (plain "HTML")
          [ElementNode (plain "BODY")
             [ElementNode (with_id "DIV" "k") [];
              ElementNode (elem "DIV" [NOTION_PAGE_CONTENT] [])
                [ElementNode
                   (mkElement (lit "DIV") NS_HTML (Some (lit "k")) []
                      [(lit "data-content-editable-leaf", lit "true");
                       (lit "contenteditable", lit "true")] true [])
                   [TextNode (lit "$a$")];
                 leaf_of (lit "$b$")]]]])
    [] [] None.

(** A page showing the sign-in form. *)
Definition sign_in_page : page :=
  mkPage
    [ElementNode (plain "HTML")
       [ElementNode (plain "BODY")
          [ElementNode (elem "INPUT" [] [(lit "type", lit "email")]) []]]]
    [] [] None.

(** Does the step [st] select the child [i] of [sibs]?  The child passes
    the name test and, where the step has an ordinal, is the child of that
    rank among those that pass. *)
Definition step_selects (sibs : list node) (i : nat) (st : text * option nat)
  : bool :=
  match nth_error sibs i with
  | Some c =>
      name_test (fst st) c &&
      match snd st with
      | None => true
      | Some k => k =? S (length (filter (name_test (fst st)) (firstn i sibs)))
      end
  | None => false
  end.

(** Do the steps, taken from the top, lead to the node at [p]? *)
Fixpoint path_selects (sibs : list node) (p : path)
  (steps : list (text * option nat)) : bool :=
  match p, steps with
  | [], [] => true
  | i :: p', st :: steps' =>
      step_selects sibs i st &&
      match nth_error sibs i with
      | Some (ElementNode _ ch) => path_selects ch p' steps'
      | _ => false
      end
  | _, _ => false
  end.

(** Does the node at [el] answer the address [x]?  For a lookup it is an
    element whose [id] is the one looked for; for a path, the element the
    steps lead to. *)
Definition selects (doc : list node) (x : xpath_expr) (el : path) : bool :=
  match x with
  | ById v =>
      match node_at doc el with
      | Some (ElementNode e _) => has_id v e
      | _ => false
      end
  | ByPath steps => path_selects doc el steps
  end.

(** A page whose leaf has an [id] with a double quote in it. *)
Definition quoted_leaf : page :=
  mkPage
    (map relayout
       [ElementNode (plain "HTML")
          [ElementNode (plain "BODY")
             [ElementNode (elem "DIV" [NOTION_PAGE_CONTENT] [])
                [ElementNode
                   (mkElement (lit "DIV") NS_HTML
                      (Some (lit "k" ++ [dquote] ++ lit "x")) []
                      [(lit "data-content-editable-leaf", lit "true");
                       (lit "contenteditable", lit "true")] true [])
                   [TextNode (lit "$a$")]]]]])
    [] [] None.

(** A document with an icon: an [svg] element and what it contains are not
    of the HTML namespace. *)
Definition icon_doc : list node :=
  [ElementNode (plain "HTML")
     [ElementNode (plain "BODY")
        [ElementNode (mkElement (lit "svg") NS_SVG None [] [] true [])
           [ElementNode (mkElement (lit "path") NS_SVG None [] [] true []) []];
         ElementNode (plain "DIV") [TextNode (lit "a")];
         ElementNode (plain "DIV") [TextNode (lit "b")]]]].

(** Replace the element at [p] by its image under [f]. *)
Fixpoint update_element (ns : list node) (p : path) (f : element -> element)
  : list node :=
  match p with
  | [] => ns
  | i :: rest =>
      (fix upd (j : nat) (l : list node) {struct l} : list node :=
         match l with
         | [] => []
         | n :: l' =>
             match j with
             | S j' => n :: upd j' l'
             | O =>
                 match n with
                 | ElementNode e ch =>
                     match rest with
                     | [] => ElementNode (f e) ch
                     | _ :: _ => ElementNode e (update_element ch rest f)
                     end
                 | _ => n
                 end :: l'
             end
         end) i ns
  end.

Fixpoint set_attribute (attrs : list (text * text)) (name value : text)
  : list (text * text) :=
  match attrs with
  | [] => [(name, value)]
  | (k, v) :: rest =>
      if text_eqb k name then (k, value) :: rest
      else (k, v) :: set_attribute rest name value
  end.

(** A click handler for toggles: the toggle clicked shows as expanded. *)
Definition open_toggle (q : page) (b : path) : page :=
  mkPage
    (update_element (document q) b
       (fun e => mkElement (nodeName e) (namespaceURI e) (id_attr e)
                           (classList e)
                           (set_attribute (attributes e)
                              (lit "aria-expanded") (lit "true"))
                           (offsetParent e) (innerText e)))
    (scrolled q) (selection q) (activeElement q).

(** A page with one collapsed toggle in the canvas, and one outside it. *)
Definition toggle_page : page :=
  mkPage
    (map relayout
       [ElementNode (plain "HTML")
          [ElementNode (plain "BODY")
             [ElementNode (elem "DIV" [] [(lit "role", lit "button");
                                          (lit "aria-expanded", lit "false")]) [];
              ElementNode (elem "DIV" [NOTION_PAGE_CONTENT] [])
                [ElementNode (elem "DIV" [] [(lit "role", lit "button");
                                             (lit "aria-expanded", lit "false")])
                   [];
                 leaf_of (lit "$b$")]]]])
    [] [] None.

(* ================================================================== *)
(** * Properties *)
(* ================================================================== *)


(** ** The delimiter expression, position by position *)


Lemma least_from_Some : forall f fuel n m,
  least_from f n fuel = Some m ->
  n <= m < n + fuel /\ f m = true /\ (forall j, n <= j < m -> f j = false).
Proof.
  induction fuel as [|fuel IH]; intros n m H; simpl in H; [discriminate|].
  destruct (f n) eqn:E.
  - injection H as <-. split; [lia|]. split; [assumption|].
    intros j Hj; lia.
  - apply IH in H as (Hr & Hm & Hl). split; [lia|]. split; [assumption|].
    intros j Hj. destruct (Nat.eq_dec j n) as [->|]; auto. apply Hl; lia.
Qed.

Lemma least_from_None : forall f fuel n,
  least_from f n fuel = None -> forall j, n <= j < n + fuel -> f j = false.
Proof.
  induction fuel as [|fuel IH]; intros n H j Hj; simpl in H; [lia|].
  destruct (f n) eqn:E; [discriminate|].
  destruct (Nat.eq_dec j n) as [->|]; auto. apply (IH _ H); lia.
Qed.

Lemma least_from_intro : forall f fuel n m,
  n <= m < n + fuel -> f m = true -> (forall j, n <= j < m -> f j = false) ->
  least_from f n fuel = Some m.
Proof.
  induction fuel as [|fuel IH]; intros n m Hr Hm Hl; simpl; [lia|].
  destruct (Nat.eq_dec n m) as [->|Hne].
  - now rewrite Hm.
  - rewrite (Hl n) by lia. apply IH; auto; try lia. intros j Hj; apply Hl; lia.
Qed.

Lemma least_from_none_intro : forall f fuel n,
  (forall j, n <= j < n + fuel -> f j = false) -> least_from f n fuel = None.
Proof.
  induction fuel as [|fuel IH]; intros n H; simpl; auto.
  rewrite (H n) by lia. apply IH. intros j Hj; apply H; lia.
Qed.

Lemma lazy_dot_scan : forall (A : Type) (k : text -> option A) fuel s,
  length s <= fuel ->
  lazy_iter (rmatch (A:=A) Dot) k fuel s = scan_tails k s.
Proof.
  induction fuel as [|fuel IH]; intros s Hs.
  - destruct s; [reflexivity | simpl in Hs; lia].
  - destruct s as [|c s]; [reflexivity|].
    cbn [lazy_iter rmatch scan_tails].
    replace (length s <? length (c :: s)) with true
      by (symmetry; apply Nat.ltb_lt; simpl; lia).
    destruct (k s); auto. apply IH. simpl in Hs; lia.
Qed.

Lemma dollar_at_skipn : forall u j i,
  dollar_at (skipn j u) i = dollar_at u (j + i).
Proof.
  intros u j i. unfold dollar_at. now rewrite nth_error_skipn.
Qed.

Lemma dollar_at_cons : forall c u i,
  dollar_at (c :: u) (S i) = dollar_at u i.
Proof. reflexivity. Qed.

Lemma dollar_at_length : forall u i, dollar_at u i = true -> i < length u.
Proof.
  intros u i H. unfold dollar_at in H.
  destruct (nth_error u i) eqn:E; [|discriminate].
  apply nth_error_Some. congruence.
Qed.

Lemma skipn_step : forall (A : Type) (u : list A) j,
  j < length u -> exists c, skipn j u = c :: skipn (S j) u.
Proof.
  induction u as [|a u IH]; intros j Hj; simpl in Hj; [lia|].
  destruct j as [|j]; [now exists a|].
  destruct (IH j) as [c Hc]; [lia|]. exists c. exact Hc.
Qed.

Lemma scan_tails_pos : forall (A : Type) (u : text) (f : nat -> bool)
  (g : nat -> A) (k : text -> option A),
  (forall j, j <= length u ->
     k (skipn j u) = if f j then Some (g j) else None) ->
  forall fuel j, j + fuel = length u ->
  scan_tails k (skipn j u) = option_map g (least_from f (S j) fuel).
Proof.
  intros A u f g k Hk. induction fuel as [|fuel IH]; intros j Hj.
  - rewrite skipn_all2 by lia. reflexivity.
  - destruct (@skipn_step _ u j) as [c Hc]; [lia|].
    rewrite Hc. cbn [scan_tails least_from].
    rewrite Hk by lia. destruct (f (S j)); [reflexivity|].
    apply IH. lia.
Qed.

Lemma dollar_at_head : forall c u, dollar_at (c :: u) 0 = Ascii.eqb dollar c.
Proof. reflexivity. Qed.

Lemma match_here_double : forall u,
  match_here DOUBLE_DOLLAR u = option_map (fun n => n + 2) (double_close u).
Proof.
  intros u. unfold match_here, DOUBLE_DOLLAR, double_close.
  destruct u as [|a [|b t]]; cbn [rmatch]; try reflexivity.
  - rewrite dollar_at_head. destruct (Ascii.eqb dollar a); reflexivity.
  - rewrite dollar_at_head, dollar_at_cons, dollar_at_head.
    destruct (Ascii.eqb dollar a); [|reflexivity].
    destruct (Ascii.eqb dollar b); [|reflexivity].
    cbn [andb]. rewrite lazy_dot_scan by lia.
    set (u := a :: b :: t).
    change t with (skipn 2 u).
    rewrite (@scan_tails_pos nat u
               (fun n => dollar_at u n && dollar_at u (S n))
               (fun n => n + 2) _) with (fuel := length u - 2).
    + reflexivity.
    + intros j Hj.
      destruct (dollar_at u j && dollar_at u (S j)) eqn:E.
      * apply andb_true_iff in E as [E1 E2].
        pose proof (dollar_at_length _ _ E2) as HL.
        destruct (@skipn_step _ u j) as [c Hc]; [lia|].
        destruct (@skipn_step _ u (S j)) as [c' Hc']; [lia|].
        rewrite Hc, Hc'.
        assert (Ascii.eqb dollar c = true) as ->.
        { rewrite <- E1, <- (Nat.add_0_r j), <- dollar_at_skipn, Hc.
          reflexivity. }
        assert (Ascii.eqb dollar c' = true) as ->.
        { rewrite <- E2, <- (Nat.add_0_r (S j)), <- dollar_at_skipn, Hc'.
          reflexivity. }
        f_equal. rewrite length_skipn. lia.
      * destruct (skipn j u) as [|c v] eqn:Hc; [reflexivity|].
        assert (dollar_at u j = Ascii.eqb dollar c) as E1.
        { rewrite <- (Nat.add_0_r j), <- dollar_at_skipn, Hc. reflexivity. }
        destruct (Ascii.eqb dollar c); [|reflexivity].
        destruct v as [|c' v']; [reflexivity|].
        assert (dollar_at u (S j) = Ascii.eqb dollar c') as E2.
        { replace (S j) with (j + 1) by lia.
          rewrite <- dollar_at_skipn, Hc. reflexivity. }
        rewrite E1, E2 in E. cbn [andb] in E. now rewrite E.
    + subst u. simpl. lia.
Qed.

Lemma match_here_single : forall u,
  match_here SINGLE_DOLLAR u = option_map (fun n => n + 1) (single_close u).
Proof.
  intros u. unfold match_here, SINGLE_DOLLAR, single_close.
  destruct u as [|a t]; cbn [rmatch]; try reflexivity.
  rewrite dollar_at_head.
  destruct (Ascii.eqb dollar a); [|reflexivity].
  rewrite lazy_dot_scan by lia.
  set (u := a :: t).
  change t with (skipn 1 u).
  rewrite (@scan_tails_pos nat u (dollar_at u) (fun n => n + 1) _)
    with (fuel := length u - 1).
  - reflexivity.
  - intros j Hj.
    destruct (dollar_at u j) eqn:E.
    + pose proof (dollar_at_length _ _ E) as HL.
      destruct (@skipn_step _ u j) as [c Hc]; [lia|].
      rewrite Hc.
      assert (Ascii.eqb dollar c = true) as ->.
      { rewrite <- E, <- (Nat.add_0_r j), <- dollar_at_skipn, Hc.
        reflexivity. }
      f_equal. rewrite length_skipn. lia.
    + destruct (skipn j u) as [|c v] eqn:Hc; [reflexivity|].
      assert (dollar_at u j = Ascii.eqb dollar c) as E1.
      { rewrite <- (Nat.add_0_r j), <- dollar_at_skipn, Hc. reflexivity. }
      rewrite E1 in E. now rewrite E.
  - subst u. simpl. lia.
Qed.

Lemma match_here_dollar : forall u, match_here DOLLAR_RE u = span_len u.
Proof.
  intros u. unfold span_len.
  pose proof (match_here_double u) as Hd.
  pose proof (match_here_single u) as Hs.
  unfold match_here, DOLLAR_RE in *. cbn [rmatch].
  fold DOUBLE_DOLLAR SINGLE_DOLLAR. rewrite Hd, Hs.
  destruct (double_close u); [reflexivity|].
  destruct (single_close u); reflexivity.
Qed.

Lemma dollar_at_firstn : forall u L i,
  dollar_at (firstn L u) i = (i <? L) && dollar_at u i.
Proof.
  intros u L i. unfold dollar_at. rewrite nth_error_firstn.
  destruct (i <? L); reflexivity.
Qed.

Lemma double_close_Some : forall u n,
  double_close u = Some n ->
  dollar_at u 0 = true /\ dollar_at u 1 = true /\ 3 <= n /\
  dollar_at u n = true /\ dollar_at u (S n) = true /\ n + 2 <= length u /\
  (forall j, 3 <= j < n -> dollar_at u j && dollar_at u (S j) = false).
Proof.
  intros u n H. unfold double_close in H.
  destruct (dollar_at u 0 && dollar_at u 1) eqn:E; [|discriminate].
  apply andb_true_iff in E as [E0 E1].
  apply least_from_Some in H as (Hr & Hf & Hl).
  apply andb_true_iff in Hf as [Hn Hn'].
  pose proof (dollar_at_length _ _ Hn').
  repeat (split; [first [assumption | lia]|]). exact Hl.
Qed.

Lemma single_close_Some : forall u n,
  single_close u = Some n ->
  dollar_at u 0 = true /\ 2 <= n /\ dollar_at u n = true /\
  n + 1 <= length u /\ (forall j, 2 <= j < n -> dollar_at u j = false).
Proof.
  intros u n H. unfold single_close in H.
  destruct (dollar_at u 0) eqn:E0; [|discriminate].
  apply least_from_Some in H as (Hr & Hf & Hl).
  pose proof (dollar_at_length _ _ Hf).
  repeat (split; [first [assumption | reflexivity | lia]|]). exact Hl.
Qed.

(** A match is at least three characters long, lies inside the text, and
    starts and ends with a [$]. *)
Lemma span_len_bounds : forall u len,
  span_len u = Some len ->
  3 <= len <= length u /\ dollar_at u 0 = true /\ dollar_at u (len - 1) = true.
Proof.
  intros u len H. unfold span_len in H.
  destruct (double_close u) as [n|] eqn:Ed.
  - injection H as <-.
    apply double_close_Some in Ed as (E0 & E1 & Hn & En & En' & HL & _).
    replace (n + 2 - 1) with (S n) by lia. repeat split; auto; lia.
  - destruct (single_close u) as [n|] eqn:Es; [|discriminate].
    injection H as <-.
    apply single_close_Some in Es as (E0 & Hn & En & HL & _).
    replace (n + 1 - 1) with n by lia. repeat split; auto; lia.
Qed.

(** Matching looks at the matched characters only: the match found at the head
    of [u] is also the match found in the matched text alone. *)
Lemma span_len_firstn : forall u len,
  span_len u = Some len -> span_len (firstn len u) = Some len.
Proof.
  intros u len H. unfold span_len in *.
  destruct (double_close u) as [n|] eqn:Ed.
  - injection H as <-.
    apply double_close_Some in Ed as (E0 & E1 & Hn & En & En' & HL & Hmin).
    assert (double_close (firstn (n + 2) u) = Some n) as ->; [|reflexivity].
    unfold double_close. rewrite !dollar_at_firstn, E0, E1.
    replace (0 <? n + 2) with true by (symmetry; apply Nat.ltb_lt; lia).
    replace (1 <? n + 2) with true by (symmetry; apply Nat.ltb_lt; lia).
    cbn [andb]. apply least_from_intro.
    + rewrite length_firstn. lia.
    + rewrite !dollar_at_firstn, En, En'.
      replace (n <? n + 2) with true by (symmetry; apply Nat.ltb_lt; lia).
      replace (S n <? n + 2) with true by (symmetry; apply Nat.ltb_lt; lia).
      reflexivity.
    + intros j Hj. rewrite !dollar_at_firstn.
      specialize (Hmin j Hj).
      apply andb_false_iff in Hmin as [-> | ->];
        rewrite ?andb_false_r; reflexivity.
  - destruct (single_close u) as [n|] eqn:Es; [|discriminate].
    injection H as <-.
    apply single_close_Some in Es as (E0 & Hn & En & HL & Hmin).
    assert (double_close (firstn (n + 1) u) = None) as ->.
    { unfold double_close in *. rewrite !dollar_at_firstn.
      replace (0 <? n + 1) with true by (symmetry; apply Nat.ltb_lt; lia).
      replace (1 <? n + 1) with true by (symmetry; apply Nat.ltb_lt; lia).
      cbn [andb].
      destruct (dollar_at u 0 && dollar_at u 1); [|reflexivity].
      apply least_from_none_intro. intros j Hj.
      rewrite length_firstn in Hj.
      rewrite !dollar_at_firstn.
      destruct (S j <? n + 1) eqn:Lt;
        [|now rewrite andb_false_r].
      apply Nat.ltb_lt in Lt.
      replace (j <? n + 1) with true by (symmetry; apply Nat.ltb_lt; lia).
      cbn [andb].
      pose proof (@least_from_None _ _ _ Ed j) as X. cbv beta in X.
      apply X. lia. }
    assert (single_close (firstn (n + 1) u) = Some n) as ->; [|reflexivity].
    unfold single_close. rewrite dollar_at_firstn, E0.
    replace (0 <? n + 1) with true by (symmetry; apply Nat.ltb_lt; lia).
    cbn [andb]. apply least_from_intro.
    + rewrite length_firstn. lia.
    + rewrite dollar_at_firstn, En.
      replace (n <? n + 1) with true by (symmetry; apply Nat.ltb_lt; lia).
      reflexivity.
    + intros j Hj. rewrite dollar_at_firstn, (Hmin j Hj).
      now rewrite andb_false_r.
Qed.

Lemma span_len_nil : span_len [] = None.
Proof. reflexivity. Qed.

(** ** The search and the [exec] loop *)

Lemma search_Some : forall r s pos st len,
  search r s pos = Some (st, len) ->
  exists j, st = pos + j /\ j <= length s /\
            match_here r (skipn j s) = Some len /\
            (forall i, i < j -> match_here r (skipn i s) = None).
Proof.
  intros r. induction s as [|c s IH]; intros pos st len H; simpl in H.
  - destruct (match_here r []) eqn:E; [|discriminate].
    injection H as <- <-. exists 0.
    repeat split; auto; try lia; intros i Hi; lia.
  - destruct (match_here r (c :: s)) eqn:E.
    + injection H as <- <-. exists 0.
      repeat split; auto; try lia; intros i Hi; lia.
    + apply IH in H as (j & -> & Hj & Hm & Hmin).
      exists (S j). repeat split; simpl; auto; try lia.
      intros [|i] Hi; [exact E|]. apply Hmin. lia.
Qed.

Lemma search_None : forall r s pos,
  search r s pos = None ->
  forall j, j <= length s -> match_here r (skipn j s) = None.
Proof.
  intros r. induction s as [|c s IH]; intros pos H j Hj; simpl in H.
  - destruct (match_here r []) eqn:E; [discriminate|].
    now destruct j.
  - destruct (match_here r (c :: s)) eqn:E; [discriminate|].
    destruct j as [|j]; [exact E|]. simpl in *. apply (IH _ H). lia.
Qed.

Lemma search_intro : forall r s pos j len,
  j <= length s ->
  match_here r (skipn j s) = Some len ->
  (forall i, i < j -> match_here r (skipn i s) = None) ->
  search r s pos = Some (pos + j, len).
Proof.
  intros r. induction s as [|c s IH]; intros pos j len Hj Hm Hmin.
  - simpl in Hj. assert (j = 0) as -> by lia. simpl in *.
    rewrite Hm. now rewrite Nat.add_0_r.
  - destruct j as [|j].
    + simpl in *. rewrite Hm. now rewrite Nat.add_0_r.
    + pose proof (Hmin 0 ltac:(lia)) as H0. simpl in H0.
      cbn [search]. rewrite H0.
      replace (pos + S j) with (S pos + j) by lia.
      apply IH; simpl in *; auto; try lia.
      intros i Hi. apply (Hmin (S i)). lia.
Qed.

(** [exec] returns the leftmost match at or after [lastIndex]. *)
Lemma exec_Some : forall r s i st len,
  exec r s i = Some (st, len) ->
  i <= st <= length s /\
  match_here r (skipn st s) = Some len /\
  (forall j, i <= j < st -> match_here r (skipn j s) = None).
Proof.
  intros r s i st len H. unfold exec in H.
  destruct (i <=? length s) eqn:Le; [|discriminate].
  apply Nat.leb_le in Le.
  apply search_Some in H as (j & -> & Hj & Hm & Hmin).
  rewrite length_skipn in Hj. rewrite skipn_skipn in Hm.
  replace (j + i) with (i + j) in Hm by lia.
  repeat split; auto; try lia.
  intros k Hk. specialize (Hmin (k - i)).
  rewrite skipn_skipn in Hmin.
  replace (k - i + i) with k in Hmin by lia. apply Hmin. lia.
Qed.

Lemma exec_intro : forall r s i st len,
  i <= st <= length s ->
  match_here r (skipn st s) = Some len ->
  (forall j, i <= j < st -> match_here r (skipn j s) = None) ->
  exec r s i = Some (st, len).
Proof.
  intros r s i st len Hr Hm Hmin. unfold exec.
  replace (i <=? length s) with true by (symmetry; apply Nat.leb_le; lia).
  replace st with (i + (st - i)) at 1 by lia.
  apply search_intro.
  - rewrite length_skipn. lia.
  - rewrite skipn_skipn. replace (st - i + i) with st by lia. exact Hm.
  - intros k Hk. rewrite skipn_skipn. apply Hmin. lia.
Qed.

Lemma exec_past_end : forall r s i, length s < i -> exec r s i = None.
Proof.
  intros r s i H. unfold exec.
  replace (i <=? length s) with false; [reflexivity|].
  symmetry. apply Nat.leb_gt. lia.
Qed.

(** Every match is at least three characters long, so the loop ends before
    its fuel does: a fuel above [length s - lastIndex] reaches the final
    failing [exec]. *)
Lemma exec_loop_matches : forall s fuel i,
  length s < fuel + i ->
  matches_from s i (exec_loop fuel DOLLAR_RE s i).
Proof.
  intros s. induction fuel as [|fuel IH]; intros i Hf.
  - apply matches_done. apply exec_past_end. lia.
  - cbn [exec_loop].
    destruct (exec DOLLAR_RE s i) as [[st len]|] eqn:E;
      [|now apply matches_done].
    pose proof (exec_Some _ _ _ E) as (Hr & Hm & _).
    rewrite match_here_dollar in Hm.
    apply span_len_bounds in Hm as (Hlen & _).
    rewrite length_skipn in Hlen.
    apply matches_next.
    + now replace (st + len - st) with len by lia.
    + lia.
    + apply IH. lia.
Qed.

Lemma matches_from_unique : forall s i l1,
  matches_from s i l1 -> forall l2, matches_from s i l2 -> l1 = l2.
Proof.
  intros s i l1 H1. induction H1 as [i E|i st en l E Hb _ IH];
    intros l2 H2; inversion H2 as [i' E'|i' st' en' l' E' Hb' H']; subst;
    try congruence.
  rewrite E in E'. injection E' as <- He.
  assert (en' = en) as -> by lia. f_equal. now apply IH.
Qed.

Lemma find_all_matches : forall s, matches_from s 0 (find_all s).
Proof. intros s. apply exec_loop_matches. lia. Qed.

(** More fuel changes nothing. *)
Lemma find_all_fuel : forall s fuel,
  length s < fuel -> exec_loop fuel DOLLAR_RE s 0 = find_all s.
Proof.
  intros s fuel H.
  apply (@matches_from_unique s 0); [|apply find_all_matches].
  apply exec_loop_matches. lia.
Qed.

Lemma matches_from_next : forall s i l,
  matches_from s i l ->
  forall a e st len,
    In (a, e) l -> exec DOLLAR_RE s e = Some (st, len) ->
    In (st, st + len) l.
Proof.
  intros s i l H. induction H as [i E|i st0 en0 l E Hb Hl IH];
    intros a e st len Hin He; [destruct Hin|].
  destruct Hin as [Heq|Hin].
  - injection Heq as <- <-. right.
    inversion Hl as [i' E'|i' st' en' l' E' Hb' H']; subst.
    + congruence.
    + rewrite He in E'. injection E' as <- ->. left. f_equal. lia.
  - right. eapply IH; eauto.
Qed.

Lemma matches_from_Forall : forall s i l,
  matches_from s i l ->
  Forall (fun m => i <= fst m /\ fst m + 3 <= snd m <= length s /\
                   span_len (skipn (fst m) s) = Some (snd m - fst m)) l.
Proof.
  intros s i l H. induction H as [i E|i st en l E Hb Hl IH]; constructor.
  - pose proof (exec_Some _ _ _ E) as (Hr & Hm & _).
    rewrite match_here_dollar in Hm. simpl. repeat split; auto; lia.
  - eapply Forall_impl; [|exact IH].
    intros [a b] (H1 & H2 & H3). simpl in *.
    pose proof (exec_Some _ _ _ E) as (Hr & _). repeat split; auto; lia.
Qed.

(** ** The engine against the reading of the expression *)

Lemma span_len_chosen : forall u len, span_len u = Some len -> chosen u len.
Proof.
  intros u len H. unfold span_len in H.
  destruct (double_close u) as [n|] eqn:Ed.
  - injection H as <-. left.
    apply double_close_Some in Ed as (E0 & E1 & Hn & En & En' & HL & Hmin).
    split.
    + unfold double_span.
      replace (n + 2 - 2) with n by lia.
      replace (n + 2 - 1) with (S n) by lia.
      rewrite E0, E1, En, En'.
      replace (5 <=? n + 2) with true by (symmetry; apply Nat.leb_le; lia).
      replace (n + 2 <=? length u) with true
        by (symmetry; apply Nat.leb_le; lia).
      reflexivity.
    + intros l Hl. unfold double_span.
      destruct (5 <=? l) eqn:L5; [|reflexivity].
      apply Nat.leb_le in L5.
      specialize (Hmin (l - 2) ltac:(lia)).
      replace (S (l - 2)) with (l - 1) in Hmin by lia.
      rewrite <- !andb_assoc, Hmin, !andb_false_r. reflexivity.
  - destruct (single_close u) as [n|] eqn:Es; [|discriminate].
    injection H as <-. right.
    apply single_close_Some in Es as (E0 & Hn & En & HL & Hmin).
    split; [|split].
    + intros l. unfold double_span.
      destruct (5 <=? l) eqn:L5; [|reflexivity].
      destruct (l <=? length u) eqn:Ll; [|reflexivity].
      apply Nat.leb_le in L5, Ll. cbn [andb].
      unfold double_close in Ed.
      destruct (dollar_at u 0 && dollar_at u 1); [|reflexivity].
      pose proof (@least_from_None _ _ _ Ed (l - 2) ltac:(lia)) as X.
      cbv beta in X. replace (S (l - 2)) with (l - 1) in X by lia.
      cbn [andb]. exact X.
    + unfold single_span. replace (n + 1 - 1) with n by lia.
      rewrite E0, En.
      replace (3 <=? n + 1) with true by (symmetry; apply Nat.leb_le; lia).
      replace (n + 1 <=? length u) with true
        by (symmetry; apply Nat.leb_le; lia).
      reflexivity.
    + intros l Hl. unfold single_span.
      destruct (3 <=? l) eqn:L3; [|reflexivity].
      apply Nat.leb_le in L3.
      rewrite (Hmin (l - 1)) by lia. now rewrite !andb_false_r.
Qed.

Lemma span_len_None : forall u len,
  span_len u = None -> single_span u len = false.
Proof.
  intros u len H. unfold span_len in H.
  destruct (double_close u); [discriminate|].
  destruct (single_close u) eqn:Es; [discriminate|].
  unfold single_span, single_close in *.
  destruct (3 <=? len) eqn:L3; [|reflexivity].
  destruct (len <=? length u) eqn:Ll; [|reflexivity].
  apply Nat.leb_le in L3, Ll.
  destruct (dollar_at u 0); [|reflexivity]. cbn [andb].
  apply (@least_from_None _ _ _ Es). lia.
Qed.

Lemma matches_from_scan_spec : forall s i l,
  matches_from s i l -> scan_spec s i l.
Proof.
  intros s i l H. induction H as [i E|i st en l E Hb Hl IH].
  - apply scan_done. intros j Hj len.
    apply span_len_None. rewrite <- match_here_dollar.
    unfold exec in E.
    replace (i <=? length s) with true in E
      by (symmetry; apply Nat.leb_le; lia).
    pose proof (@search_None _ _ _ E (j - i)) as X.
    rewrite length_skipn, skipn_skipn in X.
    replace (j - i + i) with j in X by lia. apply X. lia.
  - pose proof (exec_Some _ _ _ E) as (Hr & Hm & Hmin).
    apply scan_next; auto; try lia.
    + intros j Hj len. apply span_len_None.
      rewrite <- match_here_dollar. now apply Hmin.
    + apply span_len_chosen. now rewrite <- match_here_dollar.
Qed.

(** ** A [$$...$$] block reached by the scan *)

Lemma has_dollar_false_at : forall x j,
  has_dollar x = false -> dollar_at x j = false.
Proof.
  induction x as [|c x IH]; intros j H.
  - unfold dollar_at. now destruct j.
  - simpl in H. apply orb_false_iff in H as [Hc Hx].
    destruct j as [|j]; [exact Hc|]. rewrite dollar_at_cons. now apply IH.
Qed.

Lemma dollar_at_app : forall a b j,
  dollar_at (a ++ b) j =
  if j <? length a then dollar_at a j else dollar_at b (j - length a).
Proof.
  intros a b j. unfold dollar_at. rewrite nth_error_app.
  destruct (j <? length a); reflexivity.
Qed.

Lemma span_len_no_dollar : forall u, dollar_at u 0 = false -> span_len u = None.
Proof.
  intros u H. unfold span_len, double_close, single_close. now rewrite H.
Qed.

Lemma span_len_block : forall body post,
  body <> [] -> has_dollar body = false ->
  span_len (dollar :: dollar :: body ++ dollar :: dollar :: post)
  = Some (length body + 4).
Proof.
  intros body post Hne Hb.
  assert (1 <= length body) as Hlen by (destruct body; simpl; [congruence|lia]).
  set (u := dollar :: dollar :: body ++ dollar :: dollar :: post).
  assert (forall j, dollar_at u (S (S j)) =
                    dollar_at (body ++ dollar :: dollar :: post) j) as Hu
    by reflexivity.
  assert (double_close u = Some (length body + 2)) as Hd.
  { unfold double_close. change (dollar_at u 0 && dollar_at u 1) with true.
    cbv iota. apply least_from_intro.
    - subst u. simpl. rewrite length_app. simpl. lia.
    - replace (length body + 2) with (S (S (length body))) by lia.
      rewrite Hu. replace (S (S (S (length body))))
        with (S (S (S (length body)))) by lia.
      rewrite (Hu (S (length body))), !dollar_at_app.
      replace (length body <? length body) with false
        by (symmetry; apply Nat.ltb_ge; lia).
      replace (S (length body) <? length body) with false
        by (symmetry; apply Nat.ltb_ge; lia).
      rewrite Nat.sub_diag.
      replace (S (length body) - length body) with 1 by lia. reflexivity.
    - intros j Hj. destruct j as [|[|j]]; try lia.
      rewrite Hu, dollar_at_app.
      replace (j <? length body) with true
        by (symmetry; apply Nat.ltb_lt; lia).
      now rewrite has_dollar_false_at. }
  unfold span_len. rewrite Hd. f_equal. lia.
Qed.

Lemma block_exec : forall done gap body post,
  has_dollar gap = false -> body <> [] -> has_dollar body = false ->
  exec DOLLAR_RE
       (done ++ gap ++ dollar :: dollar :: body ++ dollar :: dollar :: post)
       (length done)
  = Some (length done + length gap, length body + 4).
Proof.
  intros done gap body post Hg Hne Hb.
  set (u := dollar :: dollar :: body ++ dollar :: dollar :: post).
  apply exec_intro.
  - rewrite !length_app. lia.
  - rewrite match_here_dollar.
    rewrite app_assoc, <- length_app, skipn_app, skipn_all, Nat.sub_diag.
    simpl skipn. now apply span_len_block.
  - intros j Hj. rewrite match_here_dollar. apply span_len_no_dollar.
    rewrite dollar_at_skipn, Nat.add_0_r, dollar_at_app.
    replace (j <? length done) with false
      by (symmetry; apply Nat.ltb_ge; lia).
    rewrite dollar_at_app.
    replace (j - length done <? length gap) with true
      by (symmetry; apply Nat.ltb_lt; lia).
    now apply has_dollar_false_at.
Qed.

(** ** The pass loop *)


(** A loop whose every pass selects and triggers, each trigger leaving one
    match fewer, stops in the pass after the last match. *)
Lemma pass_loop_countdown : forall (W : Type) (d : driver W) (Inv : W -> Prop),
  (forall w m ms, Inv w -> next_scan d w = m :: ms ->
     is_ok (snd (select_match d (after_scan d w) (args_of m))) = true /\
     Inv (after_pass d w m) /\
     length (next_scan d (after_pass d w m)) = length ms) ->
  forall N n w pr ps,
    N < n -> Inv w -> length (next_scan d w) = N ->
    let o := pass_loop d n w pr ps in
    processed o = pr + N /\ passes o = ps + N + 1 /\ raised o = false /\
    exists w_last, Inv w_last /\ next_scan d w_last = [] /\
                   final o = after_scan d w_last.
Proof.
  intros W d Inv Hstep. induction N as [|N IH]; intros n w pr ps Hn Hinv Hlen;
    destruct n as [|n]; try lia; cbn [pass_loop].
  - unfold next_scan in Hlen.
    pose proof (eq_refl (after_scan d w)) as Ha. unfold after_scan in Ha at 2.
    destruct (find_matches d (expand_toggles d w)) as [w2 ms] eqn:Ef.
    simpl in Hlen, Ha. destruct ms; [|discriminate]. cbn.
    repeat split; try lia. exists w. repeat split; auto.
    unfold next_scan. now rewrite Ef.
  - pose proof (Hstep w) as Hs. unfold after_pass, after_scan, next_scan in *.
    destruct (find_matches d (expand_toggles d w)) as [w2 ms] eqn:Ef.
    simpl in Hlen, Hs. destruct ms as [|m ms]; [discriminate|].
    specialize (Hs m ms Hinv eq_refl) as (Hok & Hinv' & Hlen').
    destruct (select_match d w2 (args_of m)) as [w3 r] eqn:Es.
    simpl in Hok, Hinv', Hlen'.
    destruct r as [r|]; [|discriminate Hok]. rewrite Hok.
    specialize (IH n (send_shortcut_and_enter d w3) (S pr) (S ps)
                  ltac:(lia) Hinv' ltac:(simpl in Hlen; lia)).
    cbv zeta in IH. destruct IH as (Hp & Hq & Hr & Hl).
    repeat split; try lia; [exact Hr|exact Hl].
Qed.

(** ** The tree and its enumeration *)

Lemma node_at_cons : forall l i q,
  node_at l (i :: q) =
  match nth_error l i with
  | Some c => sub_at c q
  | None => None
  end.
Proof.
  intros l i q. revert l i. induction q as [|j q IH]; intros l i.
  - simpl. now destruct (nth_error l i).
  - cbn [node_at]. destruct (nth_error l i) as [c|]; [|reflexivity].
    destruct c as [e ch| |]; try reflexivity.
    cbn [sub_at]. apply IH.
Qed.

Lemma sub_at_app : forall q n q' m,
  sub_at n q = Some m -> sub_at n (q ++ q') = sub_at m q'.
Proof.
  induction q as [|i q IH]; intros n q' m H; simpl in *.
  - now injection H as <-.
  - destruct n as [e ch| |]; try discriminate.
    destruct (nth_error ch i) as [c|]; [|discriminate]. now apply IH.
Qed.

Lemma sub_at_app_inv : forall q n q' m,
  sub_at n (q ++ q') = Some m -> exists k, sub_at n q = Some k.
Proof.
  induction q as [|i q IH]; intros n q' m H; simpl in *.
  - now exists n.
  - destruct n as [e ch| |]; try discriminate.
    destruct (nth_error ch i) as [c|]; [|discriminate]. eapply IH; eauto.
Qed.

Lemma in_forest_nodes : forall f l i q n,
  In (q, n) (forest_nodes f i l) <->
  exists j c q', nth_error l j = Some c /\ q = (i + j) :: q' /\ In (q', n) (f c).
Proof.
  intros f. induction l as [|c l IH]; intros i q n; cbn [forest_nodes].
  - split; [intros []|]. intros (j & c & q' & H & _). now destruct j.
  - rewrite in_app_iff, in_map_iff, IH. split.
    + intros [([q' m] & Heq & Hin) | (j & c' & q' & Hn & Hq & Hin)].
      * simpl in Heq. injection Heq as <- <-.
        exists 0, c, q'. rewrite Nat.add_0_r. auto.
      * exists (S j), c', q'. simpl. repeat split; auto.
        rewrite Hq. f_equal. lia.
    + intros (j & c' & q' & Hn & Hq & Hin). destruct j as [|j].
      * simpl in Hn. injection Hn as <-. left. exists (q', n).
        simpl. rewrite Hq, Nat.add_0_r. auto.
      * right. exists j, c', q'. repeat split; auto.
        rewrite Hq. f_equal. lia.
Qed.

Lemma in_tree_nodes : forall n q m,
  In (q, m) (tree_nodes n) <-> sub_at n q = Some m.
Proof.
  intros n. induction n as [e ch IH|v|v] using node_induction; intros q m.
  - cbn [tree_nodes In]. rewrite in_forest_nodes. split.
    + intros [Heq | (j & c & q' & Hn & Hq & Hin)].
      * now injection Heq as <- <-.
      * subst q. cbn [sub_at Nat.add]. rewrite Hn.
        rewrite Forall_forall in IH. apply (IH c); [|exact Hin].
        eapply nth_error_In; eauto.
    + destruct q as [|i q]; simpl.
      * intros H. injection H as <-. now left.
      * destruct (nth_error ch i) as [c|] eqn:Hn; [|discriminate].
        intros H. right. exists i, c, q. repeat split; auto.
        rewrite Forall_forall in IH. apply (IH c); [|exact H].
        eapply nth_error_In; eauto.
  - simpl. split.
    + intros [Heq|[]]. now injection Heq as <- <-.
    + destruct q; [|discriminate]. intros H. injection H as <-. now left.
  - simpl. split.
    + intros [Heq|[]]. now injection Heq as <- <-.
    + destruct q; [|discriminate]. intros H. injection H as <-. now left.
Qed.

(** The enumeration of a forest lists exactly the nodes [node_at] reaches. *)
Lemma in_forest_node_at : forall l q n,
  In (q, n) (forest_nodes tree_nodes 0 l) <-> node_at l q = Some n.
Proof.
  intros l q n. rewrite in_forest_nodes. split.
  - intros (j & c & q' & Hn & -> & Hin). cbn [Nat.add].
    rewrite node_at_cons, Hn. now apply in_tree_nodes.
  - destruct q as [|i q]; [discriminate|]. rewrite node_at_cons.
    destruct (nth_error l i) as [c|] eqn:Hn; [|discriminate].
    intros H. exists i, c, q. repeat split; auto. now apply in_tree_nodes.
Qed.

Lemma childNodes_at_cons : forall doc i q e ch,
  nth_error doc i = Some (ElementNode e ch) ->
  childNodes_at doc (i :: q) = childNodes_at ch q.
Proof.
  intros doc i q e ch H. unfold childNodes_at at 1.
  rewrite node_at_cons, H. destruct q as [|j q]; [reflexivity|].
  cbn [childNodes_at]. rewrite node_at_cons. reflexivity.
Qed.

Lemma node_at_nil : forall q, node_at [] q = None.
Proof. intros [|[|i] q]; reflexivity. Qed.

Lemma childNodes_at_leaf : forall doc i q,
  (forall e ch, nth_error doc i <> Some (ElementNode e ch)) ->
  childNodes_at doc (i :: q) = [].
Proof.
  intros doc i q H. unfold childNodes_at. rewrite node_at_cons.
  destruct (nth_error doc i) as [[e ch|v|v]|] eqn:Hn;
    try (destruct q; reflexivity).
  now elim (H e ch).
Qed.

Lemma node_at_app : forall p doc q,
  q <> [] -> node_at doc (p ++ q) = node_at (childNodes_at doc p) q.
Proof.
  induction p as [|i p IH]; intros doc q Hq; [reflexivity|].
  destruct q as [|j q]; [congruence|].
  cbn [app]. rewrite node_at_cons.
  destruct (nth_error doc i) as [[e ch|v|v]|] eqn:Hn.
  - rewrite (@childNodes_at_cons _ _ p _ _ Hn).
    rewrite <- IH by discriminate.
    destruct p as [|k p]; cbn [app sub_at]; now rewrite node_at_cons.
  - rewrite childNodes_at_leaf, node_at_nil by (intros; congruence).
    destruct p; reflexivity.
  - rewrite childNodes_at_leaf, node_at_nil by (intros; congruence).
    destruct p; reflexivity.
  - rewrite childNodes_at_leaf, node_at_nil by (intros; congruence).
    reflexivity.
Qed.

Lemma in_descendants : forall doc p q n,
  In (q, n) (descendants doc p) <->
  exists q', q' <> [] /\ q = p ++ q' /\ node_at doc q = Some n.
Proof.
  intros doc p q n. unfold descendants. rewrite in_map_iff. split.
  - intros ([q' m] & Heq & Hin). simpl in Heq. injection Heq as <- <-.
    apply in_forest_node_at in Hin.
    assert (q' <> []) by (destruct q'; [discriminate|congruence]).
    exists q'. repeat split; auto. now rewrite node_at_app.
  - intros (q' & Hne & -> & Hn). exists (q', n). split; [reflexivity|].
    apply in_forest_node_at. now rewrite <- node_at_app.
Qed.

Lemma in_getTextNodes : forall doc el tn v,
  In (tn, v) (getTextNodes doc el) <->
  exists q', q' <> [] /\ tn = el ++ q' /\ node_at doc tn = Some (TextNode v).
Proof.
  intros doc el tn v. unfold getTextNodes. rewrite in_flat_map. split.
  - intros ([q n] & Hin & Hm). simpl in Hm.
    destruct n as [e ch|w|w]; [destruct Hm| |destruct Hm].
    destruct Hm as [Heq|[]]. injection Heq as <- <-.
    now apply in_descendants.
  - intros H. exists (tn, TextNode v). split; [now apply in_descendants|].
    simpl. now left.
Qed.

Lemma in_querySelectorAll : forall doc root sel q,
  In q (querySelectorAll doc root sel) <->
  exists q' e ch, q' <> [] /\ q = root ++ q' /\
                  node_at doc q = Some (ElementNode e ch) /\ sel e = true.
Proof.
  intros doc root sel q. unfold querySelectorAll. rewrite in_flat_map. split.
  - intros ([q0 n] & Hin & Hm). simpl in Hm.
    destruct n as [e ch|w|w]; [|destruct Hm|destruct Hm].
    destruct (sel e) eqn:Hs; [|destruct Hm].
    destruct Hm as [<-|[]].
    apply in_descendants in Hin as (q' & Hne & -> & Hn).
    exists q', e, ch. auto.
  - intros (q' & e & ch & Hne & -> & Hn & Hs).
    exists (root ++ q', ElementNode e ch). split.
    + apply in_descendants. exists q'. auto.
    + simpl. rewrite Hs. now left.
Qed.

(** ** Document order *)

Lemma SSorted_app : forall (A : Type) (R : A -> A -> Prop) l1 l2,
  StronglySorted R l1 -> StronglySorted R l2 ->
  (forall a b, In a l1 -> In b l2 -> R a b) ->
  StronglySorted R (l1 ++ l2).
Proof.
  intros A R. induction l1 as [|x l1 IH]; intros l2 H1 H2 Hc; [exact H2|].
  apply StronglySorted_inv in H1 as [H1 Hx]. simpl. constructor.
  - apply IH; auto. intros a b Ha Hb. apply Hc; [now right|exact Hb].
  - apply Forall_app. split; [exact Hx|].
    apply Forall_forall. intros b Hb. apply Hc; [now left|exact Hb].
Qed.

Lemma SSorted_map : forall (A B : Type) (f : A -> B) (R : B -> B -> Prop) l,
  StronglySorted (fun a b => R (f a) (f b)) l -> StronglySorted R (map f l).
Proof.
  intros A B f R. induction l as [|x l IH]; intros H; [constructor|].
  apply StronglySorted_inv in H as [H Hx]. simpl. constructor; [auto|].
  apply Forall_map. exact Hx.
Qed.

Lemma SSorted_impl : forall (A : Type) (R S : A -> A -> Prop) l,
  (forall a b, In a l -> In b l -> R a b -> S a b) ->
  StronglySorted R l -> StronglySorted S l.
Proof.
  intros A R S. induction l as [|x l IH]; intros Hi H; [constructor|].
  apply StronglySorted_inv in H as [H Hx]. constructor.
  - apply IH; auto. intros a b Ha Hb. apply Hi; now right.
  - rewrite Forall_forall in *. intros b Hb.
    apply Hi; [now left|now right|auto].
Qed.

Lemma SSorted_flat_map : forall (A B : Type) (R : A -> A -> Prop)
  (S : B -> B -> Prop) (f : A -> list B) l,
  StronglySorted R l ->
  (forall a, In a l -> StronglySorted S (f a)) ->
  (forall a b x y, In a l -> In b l -> R a b ->
                   In x (f a) -> In y (f b) -> S x y) ->
  StronglySorted S (flat_map f l).
Proof.
  intros A B R S f. induction l as [|a l IH]; intros H Hin Hc; [constructor|].
  apply StronglySorted_inv in H as [H Ha]. simpl. apply SSorted_app.
  - apply Hin. now left.
  - apply IH; auto.
    + intros b Hb. apply Hin. now right.
    + intros b c x y Hb Hc'. apply Hc; now right.
  - intros x y Hx Hy. apply in_flat_map in Hy as (b & Hb & Hy).
    rewrite Forall_forall in Ha.
    apply (Hc a b); auto; [now left|now right].
Qed.

Lemma SSorted_filter : forall (A : Type) (R : A -> A -> Prop) (f : A -> bool) l,
  StronglySorted R l -> StronglySorted R (filter f l).
Proof.
  intros A R f. induction l as [|x l IH]; intros H; [constructor|].
  apply StronglySorted_inv in H as [H Hx]. simpl.
  destruct (f x); [|auto]. constructor; [auto|].
  rewrite Forall_forall in *. intros b Hb. apply Hx.
  now apply filter_In in Hb.
Qed.

Lemma path_lt_app : forall p q q', path_lt q q' -> path_lt (p ++ q) (p ++ q').
Proof.
  induction p as [|i p IH]; intros q q' H; [exact H|].
  simpl. apply path_lt_tail. now apply IH.
Qed.

Lemma path_lt_irrefl : forall p, ~ path_lt p p.
Proof.
  induction p as [|i p IH]; intros H; inversion H; subst; [lia|auto].
Qed.

Lemma path_lt_trans : forall p q r, path_lt p q -> path_lt q r -> path_lt p r.
Proof.
  intros p q r H. revert r. induction H as [i q|i j p q Hij|i p q H IH];
    intros r Hr; inversion Hr; subst.
  - constructor.
  - constructor.
  - apply path_lt_head. lia.
  - now apply path_lt_head.
  - now apply path_lt_head.
  - apply path_lt_tail. now apply IH.
Qed.

Lemma forest_nodes_sorted : forall l,
  Forall (fun c => StronglySorted node_lt (tree_nodes c)) l ->
  forall i, StronglySorted node_lt (forest_nodes tree_nodes i l).
Proof.
  induction l as [|c l IH]; intros Hl i; [constructor|].
  apply Forall_cons_iff in Hl as [Hc Hl]. cbn [forest_nodes].
  apply SSorted_app.
  - apply SSorted_map. eapply SSorted_impl; [|exact Hc].
    intros a b _ _ H. unfold node_lt in *. simpl. now apply path_lt_tail.
  - now apply IH.
  - intros a b Ha Hb. apply in_map_iff in Ha as ([q n] & <- & _).
    destruct b as [q' m].
    apply in_forest_nodes in Hb as (j & c' & q'' & _ & -> & _).
    unfold node_lt. simpl. apply path_lt_head. lia.
Qed.

Lemma tree_nodes_sorted : forall n, StronglySorted node_lt (tree_nodes n).
Proof.
  induction n as [e ch IH|v|v] using node_induction;
    cbn [tree_nodes]; constructor; try constructor.
  - now apply forest_nodes_sorted.
  - apply Forall_forall. intros [q m] Hin.
    apply in_forest_nodes in Hin as (j & c & q' & _ & -> & _).
    unfold node_lt. simpl. constructor.
Qed.

Lemma descendants_sorted : forall doc p,
  StronglySorted node_lt (descendants doc p).
Proof.
  intros doc p. unfold descendants. apply SSorted_map.
  eapply SSorted_impl;
    [|apply forest_nodes_sorted, Forall_forall; intros;
      apply tree_nodes_sorted].
  intros a b _ _ H. unfold node_lt in *. simpl. now apply path_lt_app.
Qed.

(** [querySelectorAll] answers in document order, each element once. *)
Lemma querySelectorAll_sorted : forall doc root sel,
  StronglySorted path_lt (querySelectorAll doc root sel).
Proof.
  intros doc root sel. unfold querySelectorAll.
  apply SSorted_flat_map with (R := node_lt).
  - apply descendants_sorted.
  - intros [q n] _. simpl. destruct n as [e ch| |]; try constructor.
    destruct (sel e); repeat constructor.
  - intros [q n] [q' n'] x y _ _ H Hx Hy. simpl in Hx, Hy.
    destruct n as [e ch| |]; try destruct Hx.
    destruct n' as [e' ch'| |]; try destruct Hy.
    destruct (sel e); [|destruct Hx]. destruct (sel e'); [|destruct Hy].
    destruct Hx as [<-|[]]. destruct Hy as [<-|[]]. exact H.
Qed.

(** ** The scanner, with the place of every match *)

Lemma scan_text_nodes_locate : forall doc el tns ti,
  scan_text_nodes doc el ti tns = map (ref_of doc) (locate_text_nodes el ti tns).
Proof.
  intros doc el. induction tns as [|tn tns IH]; intros ti; [reflexivity|].
  cbn [scan_text_nodes locate_text_nodes]. rewrite map_app, IH. f_equal.
  unfold scan_text_node, locate_text_node.
  destruct (negb (has_dollar (snd tn))); [reflexivity|].
  now rewrite map_map.
Qed.

Lemma scan_leaf_locate : forall doc el,
  scan_leaf doc el = map (ref_of doc) (locate_leaf doc el).
Proof.
  intros doc el. unfold scan_leaf, locate_leaf.
  destruct (node_at doc el) as [[e ch|v|v]|]; try reflexivity.
  destruct (negb (has_dollar (innerText e))); [reflexivity|].
  rewrite <- scan_text_nodes_locate.
  now destruct (getTextNodes doc el).
Qed.

Lemma JS_FIND_MATCHES_locate : forall p,
  JS_FIND_MATCHES p = map (ref_of (document p)) (locate (document p)).
Proof.
  intros p. unfold JS_FIND_MATCHES, locate.
  destruct (querySelector (document p) (has_class NOTION_PAGE_CONTENT));
    [|reflexivity].
  induction (candidates (document p) p0) as [|c cs IH]; [reflexivity|].
  simpl. now rewrite map_app, scan_leaf_locate, IH.
Qed.

Lemma in_locate_text_nodes : forall el tns ti l,
  In l (locate_text_nodes el ti tns) ->
  exists k tn s m, nth_error tns k = Some (tn, s) /\
                   l = (el, ti + k, s, m) /\ In m (find_all s).
Proof.
  intros el. induction tns as [|[tn s] tns IH]; intros ti l H; [destruct H|].
  cbn [locate_text_nodes] in H. apply in_app_iff in H as [H|H].
  - unfold locate_text_node in H. simpl in H.
    destruct (negb (has_dollar s)); [destruct H|].
    apply in_map_iff in H as (m & <- & Hm).
    exists 0, tn, s, m. rewrite Nat.add_0_r. auto.
  - apply IH in H as (k & tn' & s' & m & Hn & -> & Hm).
    exists (S k), tn', s', m. repeat split; auto. f_equal. f_equal. f_equal.
    lia.
Qed.

Lemma in_candidates : forall doc root el,
  In el (candidates doc root) ->
  exists e ch, node_at doc el = Some (ElementNode e ch) /\
               editable_leaf e = true /\ offsetParent e = true.
Proof.
  intros doc root el H. unfold candidates in H.
  apply filter_In in H as [H Hv].
  apply in_querySelectorAll in H as (q' & e & ch & _ & _ & Hn & Hs).
  exists e, ch. unfold visible in Hv. rewrite Hn in Hv. auto.
Qed.

Lemma in_locate : forall doc el ti s m,
  In (el, ti, s, m) (locate doc) ->
  (exists e ch, node_at doc el = Some (ElementNode e ch) /\
                editable_leaf e = true /\ offsetParent e = true) /\
  (exists tn, nth_error (getTextNodes doc el) ti = Some (tn, s)) /\
  In m (find_all s).
Proof.
  intros doc el ti s m H. unfold locate in H.
  destruct (querySelector doc (has_class NOTION_PAGE_CONTENT)) as [root|];
    [|destruct H].
  apply in_flat_map in H as (c & Hc & H).
  unfold locate_leaf in H.
  destruct (node_at doc c) as [[e ch|v|v]|] eqn:Hn; try destruct H.
  destruct (negb (has_dollar (innerText e))); [destruct H|].
  apply in_locate_text_nodes in H as (k & tn & s' & m' & Hk & Heq & Hm).
  injection Heq as -> -> -> ->. simpl.
  split; [now apply in_candidates with root|].
  split; [now exists tn|exact Hm].
Qed.

Lemma find_all_in : forall s st en,
  In (st, en) (find_all s) ->
  st + 3 <= en <= length s /\ span_len (skipn st s) = Some (en - st).
Proof.
  intros s st en H.
  pose proof (matches_from_Forall (find_all_matches s)) as F.
  rewrite Forall_forall in F. apply F in H as (_ & H1 & H2). auto.
Qed.

Lemma matches_from_sorted : forall s i l,
  matches_from s i l -> StronglySorted (fun a b => snd a <= fst b) l.
Proof.
  intros s i l H. induction H as [i E|i st en l E Hb Hl IH]; constructor; auto.
  eapply Forall_impl; [|apply (matches_from_Forall Hl)].
  intros [a b] (H1 & _). simpl in *. lia.
Qed.

(** Successive matches do not overlap. *)
Lemma find_all_sorted : forall s,
  StronglySorted (fun a b => snd a <= fst b) (find_all s).
Proof. intros s. eapply matches_from_sorted, find_all_matches. Qed.

(** A matched span, scanned on its own, is one match: the whole of it. *)
Lemma find_all_span : forall u len,
  span_len u = Some len -> find_all (firstn len u) = [(0, len)].
Proof.
  intros u len H.
  pose proof (span_len_bounds _ H) as (Hb & _).
  assert (length (firstn len u) = len) as HL by (rewrite length_firstn; lia).
  apply (@matches_from_unique (firstn len u) 0); [apply find_all_matches|].
  apply matches_next.
  - apply exec_intro; [simpl; lia| |intros j Hj; lia].
    rewrite match_here_dollar, Nat.sub_0_r. now apply span_len_firstn.
  - lia.
  - apply matches_done. unfold exec. rewrite HL, Nat.leb_refl.
    rewrite <- HL at 1. rewrite skipn_all. reflexivity.
Qed.

Lemma locate_text_nodes_sorted : forall el tns ti,
  StronglySorted location_lt (locate_text_nodes el ti tns).
Proof.
  intros el. induction tns as [|[tn s] tns IH]; intros ti; [constructor|].
  cbn [locate_text_nodes]. apply SSorted_app; [|apply IH|].
  - unfold locate_text_node. simpl.
    destruct (negb (has_dollar s)); [constructor|].
    apply SSorted_map.
    eapply SSorted_impl; [|apply find_all_sorted].
    intros [a b] [a' b'] Ha _ H. simpl in *.
    apply find_all_in in Ha. right. split; [reflexivity|]. right. lia.
  - intros a b Ha Hb. unfold locate_text_node in Ha. simpl in Ha.
    destruct (negb (has_dollar s)); [destruct Ha|].
    apply in_map_iff in Ha as (m & <- & _).
    apply in_locate_text_nodes in Hb as (k & tn' & s' & m' & _ & -> & _).
    simpl. right. split; [reflexivity|]. left. lia.
Qed.

Lemma locate_leaf_sorted : forall doc el,
  StronglySorted location_lt (locate_leaf doc el).
Proof.
  intros doc el. unfold locate_leaf.
  destruct (node_at doc el) as [[e ch|v|v]|]; try constructor.
  destruct (negb (has_dollar (innerText e))); [constructor|].
  apply locate_text_nodes_sorted.
Qed.

Lemma locate_leaf_leaf : forall doc el l,
  In l (locate_leaf doc el) -> fst (fst (fst l)) = el.
Proof.
  intros doc el l H. unfold locate_leaf in H.
  destruct (node_at doc el) as [[e ch|v|v]|]; try destruct H.
  destruct (negb (has_dollar (innerText e))); [destruct H|].
  apply in_locate_text_nodes in H as (k & tn & s & m & _ & -> & _).
  reflexivity.
Qed.

(** The matches come leaf by leaf in document order, within a leaf text node
    by text node, within a text node from left to right. *)
Lemma locate_sorted : forall doc, StronglySorted location_lt (locate doc).
Proof.
  intros doc. unfold locate.
  destruct (querySelector doc (has_class NOTION_PAGE_CONTENT)) as [root|];
    [|constructor].
  apply SSorted_flat_map with (R := path_lt).
  - unfold candidates. apply SSorted_filter, querySelectorAll_sorted.
  - intros a _. apply locate_leaf_sorted.
  - intros a b x y _ _ Hab Hx Hy.
    apply locate_leaf_leaf in Hx, Hy.
    destruct x as [[[el ti] s] m], y as [[[el' ti'] s'] m']. simpl in *.
    subst. now left.
Qed.

(** ** Names and numbers in addresses *)

Lemma upper_lower_ascii : forall c,
  no_lower c = true -> upper_ascii (lower_ascii c) = c.
Proof. intros c. ascii_cases c; vm_compute; intro H; first [reflexivity|discriminate H]. Qed.

Lemma lower_name_char : forall c,
  is_name_char c = true -> is_name_char (lower_ascii c) = true.
Proof. intros c. ascii_cases c; vm_compute; intro H; first [reflexivity|discriminate H]. Qed.

Lemma lower_name_start : forall c,
  is_name_start c = true -> is_name_start (lower_ascii c) = true.
Proof. intros c. ascii_cases c; vm_compute; intro H; first [reflexivity|discriminate H]. Qed.

Lemma lower_lower_ascii : forall c, lower_ascii (lower_ascii c) = lower_ascii c.
Proof. intros c. ascii_cases c; reflexivity. Qed.

Lemma name_char_not_slash : forall c,
  is_name_char c = true -> Ascii.eqb c "/"%char = false.
Proof. intros c. ascii_cases c; vm_compute; intro H; first [reflexivity|discriminate H]. Qed.

Lemma digit_not_slash : forall c,
  is_digit c = true -> Ascii.eqb c "/"%char = false.
Proof. intros c. ascii_cases c; vm_compute; intro H; first [reflexivity|discriminate H]. Qed.

Lemma text_eqb_eq : forall a b, text_eqb a b = true <-> a = b.
Proof.
  intros a b. unfold text_eqb. destruct (list_eq_dec ascii_dec a b); split;
    auto; discriminate.
Qed.

Lemma text_eqb_refl : forall a, text_eqb a a = true.
Proof. intros a. now apply text_eqb_eq. Qed.

Lemma toLowerCase_idem : forall s, toLowerCase (toLowerCase s) = toLowerCase s.
Proof.
  intros s. unfold toLowerCase. rewrite map_map. apply map_ext.
  apply lower_lower_ascii.
Qed.

Lemma upper_toLowerCase : forall s,
  forallb no_lower s = true -> map upper_ascii (toLowerCase s) = s.
Proof.
  induction s as [|c s IH]; intros H; [reflexivity|].
  simpl in *. apply andb_true_iff in H as [Hc Hs].
  now rewrite upper_lower_ascii, IH.
Qed.

(** Lowering upper-case names loses nothing. *)
Lemma toLowerCase_inj : forall a b,
  html_name a = true -> html_name b = true ->
  toLowerCase a = toLowerCase b -> a = b.
Proof.
  intros a b Ha Hb H. unfold html_name in *.
  apply andb_true_iff in Ha as [_ Ha]. apply andb_true_iff in Hb as [_ Hb].
  rewrite <- (upper_toLowerCase _ Ha), <- (upper_toLowerCase _ Hb).
  now rewrite H.
Qed.

Lemma forallb_lower_name_char : forall s,
  forallb is_name_char s = true -> forallb is_name_char (toLowerCase s) = true.
Proof.
  induction s as [|c s IH]; intros H; [reflexivity|].
  simpl in *. apply andb_true_iff in H as [Hc Hs].
  now rewrite lower_name_char, IH.
Qed.

Lemma is_name_lower : forall s, is_name s = true -> is_name (toLowerCase s) = true.
Proof.
  intros [|c s] H; [discriminate|].
  unfold is_name in H. apply andb_true_iff in H as [Hc Hs].
  pose proof (forallb_lower_name_char _ Hs) as Hl.
  unfold is_name, toLowerCase in *. cbn [map] in *.
  rewrite Hl. now rewrite lower_name_start.
Qed.

Lemma is_name_chars : forall s, is_name s = true -> forallb is_name_char s = true.
Proof.
  intros [|c s] H; [discriminate|]. unfold is_name in H.
  now apply andb_true_iff in H as [_ H].
Qed.

Lemma dec_digits : forall n, forallb is_digit (dec n) = true.
Proof.
  intros n. unfold dec. generalize (Nat.to_uint n). intros d.
  induction d; simpl; auto.
Qed.

Lemma dec_parse : forall n,
  NilEmpty.uint_of_string (string_of_list_ascii (dec n)) = Some (Nat.to_uint n).
Proof.
  intros n. unfold dec. rewrite string_of_list_ascii_of_string.
  apply NilEmpty.usu.
Qed.

Lemma dec_nonempty : forall n, dec n <> [].
Proof.
  intros n H. pose proof (dec_parse n) as P. rewrite H in P. simpl in P.
  injection P as P.
  pose proof (DecimalNat.Unsigned.of_to n) as Q. rewrite <- P in Q.
  simpl in Q. subst n. discriminate P.
Qed.

(** ** Writing and reading an address *)

Lemma part_of_step : forall sibs self e,
  part_of sibs self e = render_step (step_of sibs self e).
Proof.
  intros sibs self e. unfold part_of, step_of, render_step.
  destruct (count_sibs sibs 0 self (nodeName e) 0 0) as [nb idx].
  now destruct (1 <? nb).
Qed.

Lemma take_drop_all : forall f a,
  forallb f a = true -> take_while f a = a /\ drop_while f a = [].
Proof.
  intros f. induction a as [|c a IH]; intros H; [auto|].
  simpl in *. apply andb_true_iff in H as [Hc Ha]. rewrite Hc.
  destruct (IH Ha) as [-> ->]. auto.
Qed.

Lemma take_drop_app : forall f a c b,
  forallb f a = true -> f c = false ->
  take_while f (a ++ c :: b) = a /\ drop_while f (a ++ c :: b) = c :: b.
Proof.
  intros f. induction a as [|x a IH]; intros c b H Hc; simpl in *.
  - now rewrite Hc.
  - apply andb_true_iff in H as [Hx Ha]. rewrite Hx.
    destruct (IH c b Ha Hc) as [-> ->]. auto.
Qed.

Lemma parse_step_render : forall st,
  is_name (fst st) = true -> parse_step (render_step st) = Some st.
Proof.
  intros [name [k|]] Hn; unfold render_step, parse_step; simpl fst in *;
    simpl snd; pose proof (is_name_chars _ Hn) as Hc.
  - destruct (@take_drop_app is_name_char name "["%char (dec k ++ lit "]") Hc
                eq_refl) as [Ht Hd].
    change (lit "[" ++ dec k ++ lit "]") with ("["%char :: dec k ++ lit "]").
    rewrite Ht, Hd, Hn. cbn [Ascii.eqb Bool.eqb]. cbv iota.
    destruct (@take_drop_app is_digit (dec k) "]"%char [] (dec_digits k)
                eq_refl) as [Ht' Hd'].
    change (lit "]") with ["]"%char]. rewrite Ht', Hd'.
    destruct (dec k) eqn:Ek; [now elim (dec_nonempty k)|].
    rewrite <- Ek. cbn [Ascii.eqb Bool.eqb]. cbv iota.
    rewrite dec_parse. now rewrite DecimalNat.Unsigned.of_to.
  - destruct (take_drop_all _ _ Hc) as [-> ->]. now rewrite Hn.
Qed.

Lemma split_on_plain : forall x, no_slash x = true -> split_on "/"%char x = [x].
Proof.
  induction x as [|c x IH]; intros H; [reflexivity|].
  unfold no_slash in *. simpl in *. apply andb_true_iff in H as [Hc Hx].
  apply negb_true_iff in Hc. rewrite Hc, (IH Hx). reflexivity.
Qed.

Lemma split_on_app : forall x y,
  no_slash x = true ->
  split_on "/"%char (x ++ "/"%char :: y) = x :: split_on "/"%char y.
Proof.
  induction x as [|c x IH]; intros y H; [reflexivity|].
  unfold no_slash in *. simpl in *. apply andb_true_iff in H as [Hc Hx].
  apply negb_true_iff in Hc. rewrite Hc, (IH y Hx). reflexivity.
Qed.

Lemma split_on_join : forall parts,
  parts <> [] -> Forall (fun x => no_slash x = true) parts ->
  split_on "/"%char (join (lit "/") parts) = parts.
Proof.
  induction parts as [|x parts IH]; intros Hne H; [congruence|].
  apply Forall_cons_iff in H as [Hx Hp].
  destruct parts as [|y parts].
  - simpl. now apply split_on_plain.
  - change (join (lit "/") (x :: y :: parts))
      with (x ++ "/"%char :: join (lit "/") (y :: parts)).
    rewrite split_on_app by assumption. f_equal. apply IH; [discriminate|auto].
Qed.

Lemma no_slash_app : forall a b,
  no_slash (a ++ b) = no_slash a && no_slash b.
Proof. intros a b. unfold no_slash. apply forallb_app. Qed.

Lemma no_slash_name : forall nm, forallb is_name_char nm = true -> no_slash nm = true.
Proof.
  induction nm as [|c nm IH]; intros H; [reflexivity|].
  unfold no_slash in *. simpl in *. apply andb_true_iff in H as [Hc Hn].
  now rewrite (name_char_not_slash _ Hc), IH.
Qed.

Lemma no_slash_digits : forall ds, forallb is_digit ds = true -> no_slash ds = true.
Proof.
  induction ds as [|c ds IH]; intros H; [reflexivity|].
  unfold no_slash in *. simpl in *. apply andb_true_iff in H as [Hc Hn].
  now rewrite (digit_not_slash _ Hc), IH.
Qed.

Lemma no_slash_render : forall st,
  is_name (fst st) = true -> no_slash (render_step st) = true.
Proof.
  intros [name [k|]] Hn; cbn [render_step fst snd] in *;
    pose proof (no_slash_name _ (is_name_chars _ Hn)) as Hs; [|exact Hs].
  rewrite !no_slash_app, Hs, (no_slash_digits _ (dec_digits k)). reflexivity.
Qed.

Lemma parse_steps_render : forall steps,
  Forall (fun st => is_name (fst st) = true) steps ->
  parse_steps (map render_step steps) = Some steps.
Proof.
  induction steps as [|st steps IH]; intros H; [reflexivity|].
  apply Forall_cons_iff in H as [Hs H]. simpl.
  now rewrite parse_step_render, IH.
Qed.

Lemma strip_prefix_app : forall pre rest, strip_prefix pre (pre ++ rest) = Some rest.
Proof.
  induction pre as [|c pre IH]; intros rest; [reflexivity|].
  simpl. now rewrite Ascii.eqb_refl.
Qed.

(** The written path reads back as the steps it was written from. *)
Lemma xpath_parse_path : forall steps,
  steps <> [] -> Forall (fun st => is_name (fst st) = true) steps ->
  xpath_parse (lit "/" ++ join (lit "/") (map render_step steps))
  = Some (ByPath steps).
Proof.
  intros steps Hne H.
  assert (exists c rest, join (lit "/") (map render_step steps) = c :: rest /\
                         Ascii.eqb "/"%char c = false) as (c & rest & Hj & Hc).
  { destruct steps as [|[name k] steps]; [congruence|].
    apply Forall_cons_iff in H as [Hn _]. simpl in Hn.
    destruct name as [|c name]; [discriminate|].
    exists c. unfold is_name in Hn. apply andb_true_iff in Hn as [Hs Hn].
    simpl in Hn. apply andb_true_iff in Hn as [Hn _].
    apply name_char_not_slash in Hn. rewrite Ascii.eqb_sym in Hn.
    destruct k as [k|]; destruct steps as [|st steps];
      cbn [map join render_step fst snd app]; eauto. }
  unfold xpath_parse. change (lit "/" ++ ?x) with ("/"%char :: x).
  rewrite Hj.
  change (lit "//*[@id=" ++ [dquote])
    with ("/"%char :: "/"%char :: lit "*[@id=" ++ [dquote]).
  cbn [strip_prefix]. rewrite Ascii.eqb_refl, Hc.
  rewrite <- Hj, split_on_join.
  - rewrite parse_steps_render by assumption.
    destruct steps; [congruence|reflexivity].
  - destruct steps; [congruence|discriminate].
  - apply Forall_map. eapply Forall_impl; [|exact H].
    intros st. apply no_slash_render.
Qed.

(** The written attribute lookup reads back as such. *)
Lemma xpath_parse_id : forall v,
  forallb not_dquote v = true ->
  xpath_parse (lit "//*[@id=" ++ [dquote] ++ v ++ [dquote] ++ lit "]")
  = Some (ById v).
Proof.
  intros v Hv. unfold xpath_parse.
  rewrite app_assoc, strip_prefix_app.
  destruct (@take_drop_app not_dquote v dquote (lit "]") Hv eq_refl)
    as [Ht Hd].
  change ([dquote] ++ lit "]") with (dquote :: lit "]").
  now rewrite Ht, Hd, text_eqb_refl.
Qed.

(** ** A step of the address selects the element it was computed for *)

Lemma same_name_ge : forall nm l i j, In j (same_name nm i l) -> i <= j.
Proof.
  intros nm. induction l as [|c l IH]; intros i j H; [destruct H|].
  simpl in H. destruct c as [e ch| |]; try (apply IH in H; lia).
  destruct (text_eqb (nodeName e) nm); [|apply IH in H; lia].
  destruct H as [<-|H]; [lia|]. apply IH in H; lia.
Qed.

Lemma pos_of_none : forall x l, ~ In x l -> pos_of x l = None.
Proof.
  intros x. induction l as [|y l IH]; intros H; [reflexivity|].
  simpl. destruct (y =? x) eqn:E.
  - apply Nat.eqb_eq in E. elim H. now left.
  - rewrite IH; [reflexivity|]. intros Hin. apply H. now right.
Qed.

Lemma pos_of_nth : forall x l k, pos_of x l = Some k -> nth_error l k = Some x.
Proof.
  intros x. induction l as [|y l IH]; intros k H; [discriminate|].
  simpl in H. destruct (y =? x) eqn:E.
  - injection H as <-. apply Nat.eqb_eq in E. now subst.
  - destruct (pos_of x l) as [k'|]; [|discriminate].
    injection H as <-. simpl. now apply IH.
Qed.

Lemma pos_of_in : forall x l, In x l -> exists k, pos_of x l = Some k.
Proof.
  intros x. induction l as [|y l IH]; intros H; [destruct H|].
  simpl. destruct (y =? x) eqn:E; [now exists 0|].
  destruct H as [->|H]; [now rewrite Nat.eqb_refl in E|].
  destruct (IH H) as [k ->]. now exists (S k).
Qed.

Lemma count_sibs_spec : forall nm self sibs i nb idx,
  count_sibs sibs i self nm nb idx =
  (nb + length (same_name nm i sibs),
   match pos_of self (same_name nm i sibs) with
   | Some k => nb + k + 1
   | None => idx
   end).
Proof.
  intros nm self. induction sibs as [|c sibs IH]; intros i nb idx.
  - simpl. now rewrite Nat.add_0_r.
  - cbn [count_sibs same_name]. destruct c as [e ch| |]; try apply IH.
    destruct (text_eqb (nodeName e) nm); [|apply IH].
    rewrite IH. cbn [length pos_of]. f_equal; [lia|].
    destruct (i =? self) eqn:E.
    + apply Nat.eqb_eq in E. subst i.
      rewrite pos_of_none; [lia|].
      intros H. apply same_name_ge in H. lia.
    + destruct (pos_of self (same_name nm (S i) sibs)); simpl; lia.
Qed.

Lemma in_same_name : forall nm l i j e ch,
  nth_error l j = Some (ElementNode e ch) -> nodeName e = nm ->
  In (i + j) (same_name nm i l).
Proof.
  intros nm. induction l as [|c l IH]; intros i j e ch H Hn;
    [now destruct j|].
  destruct j as [|j]; simpl in H.
  - injection H as ->. simpl. rewrite <- Hn, text_eqb_refl, Nat.add_0_r.
    now left.
  - replace (i + S j) with (S i + j) by lia.
    specialize (IH (S i) j e ch H Hn). simpl.
    destruct c as [e' ch'| |]; auto.
    destruct (text_eqb (nodeName e') nm); [now right|auto].
Qed.

Lemma html_element_name : forall e,
  html_element e = true -> html_name (nodeName e) = true.
Proof.
  intros e H. unfold html_element in H. now destruct (namespaceURI e).
Qed.

Lemma named_same : forall nm sibs i,
  html_name nm = true -> named_ok sibs ->
  named_children (toLowerCase nm) i sibs = same_name nm i sibs.
Proof.
  intros nm. induction sibs as [|c sibs IH]; intros i Hn Hs; [reflexivity|].
  apply Forall_cons_iff in Hs as [Hc Hs].
  cbn [named_children same_name]. rewrite (IH (S i) Hn Hs).
  destruct c as [e ch| |]; try reflexivity.
  unfold name_test. rewrite toLowerCase_idem.
  pose proof (html_element_name _ Hc) as Hc'.
  unfold html_element in Hc. destruct (namespaceURI e); try discriminate Hc.
  destruct (text_eqb (nodeName e) nm) eqn:E.
  - apply text_eqb_eq in E. rewrite E, text_eqb_refl. reflexivity.
  - destruct (text_eqb (toLowerCase nm) (toLowerCase (nodeName e))) eqn:E';
      [|reflexivity].
    apply text_eqb_eq in E'. apply toLowerCase_inj in E'; auto.
    subst nm. now rewrite text_eqb_refl in E.
Qed.

Lemma step_of_name : forall sibs i e,
  fst (step_of sibs i e) = toLowerCase (nodeName e).
Proof.
  intros sibs i e. unfold step_of.
  now destruct (count_sibs sibs 0 i (nodeName e) 0 0).
Qed.

Lemma nats_eqb_eq : forall a b, nats_eqb a b = true -> a = b.
Proof.
  intros a b H. unfold nats_eqb in H.
  now destruct (list_eq_dec Nat.eq_dec a b).
Qed.

Lemma step_regular_inv : forall sibs i e ch,
  nth_error sibs i = Some (ElementNode e ch) -> step_regular sibs i = true ->
  is_name (nodeName e) = true /\
  named_children (toLowerCase (nodeName e)) 0 sibs
  = same_name (nodeName e) 0 sibs.
Proof.
  intros sibs i e ch Hi H. unfold step_regular in H. rewrite Hi in H.
  apply andb_true_iff in H as [H1 H2]. split; [exact H1|].
  now apply nats_eqb_eq.
Qed.

Lemma eval_step_self : forall doc q i e ch,
  nth_error (childNodes_at doc q) i = Some (ElementNode e ch) ->
  step_regular (childNodes_at doc q) i = true ->
  eval_step doc q (step_of (childNodes_at doc q) i e) = [q ++ [i]].
Proof.
  intros doc q i e ch Hi Hs. set (sibs := childNodes_at doc q) in *.
  destruct (step_regular_inv _ _ Hi Hs) as [_ Hsame].
  unfold eval_step. rewrite step_of_name. fold sibs. rewrite Hsame.
  unfold step_of. rewrite count_sibs_spec.
  pose proof (@in_same_name (nodeName e) sibs 0 i e ch Hi eq_refl) as Hin.
  simpl in Hin. destruct (pos_of_in _ _ Hin) as [k Hk]. rewrite Hk.
  pose proof (pos_of_nth _ _ Hk) as Hnth. cbn [fst snd Nat.add].
  destruct (1 <? length (same_name (nodeName e) 0 sibs)) eqn:E.
  - replace (k + 1) with (S k) by lia. now rewrite Hnth.
  - apply Nat.ltb_ge in E.
    destruct (same_name (nodeName e) 0 sibs) as [|a [|b l]];
      [destruct Hin| |simpl in E; lia].
    destruct Hin as [->|[]]. reflexivity.
Qed.

Lemma html_names_at : forall doc p e ch,
  html_names doc = true -> node_at doc p = Some (ElementNode e ch) ->
  html_element e = true.
Proof.
  intros doc p e ch H Hn. unfold html_names in H.
  rewrite forallb_forall in H.
  apply in_forest_node_at in Hn. apply H in Hn. exact Hn.
Qed.

Lemma node_at_snoc : forall doc q i,
  node_at doc (q ++ [i]) = nth_error (childNodes_at doc q) i.
Proof.
  intros doc q i. rewrite node_at_app by discriminate.
  simpl. now destruct (nth_error (childNodes_at doc q) i).
Qed.

Lemma childNodes_at_snoc : forall doc q i e ch,
  nth_error (childNodes_at doc q) i = Some (ElementNode e ch) ->
  childNodes_at doc (q ++ [i]) = ch.
Proof.
  intros doc q i e ch H. rewrite <- node_at_snoc in H.
  unfold childNodes_at. rewrite H. now destruct q.
Qed.

Lemma named_ok_at : forall doc q,
  html_names doc = true -> named_ok (childNodes_at doc q).
Proof.
  intros doc q H. unfold named_ok. apply Forall_forall. intros c Hc.
  destruct c as [e ch| |]; auto.
  apply In_nth_error in Hc as [i Hi]. rewrite <- node_at_snoc in Hi.
  eapply html_names_at; eauto.
Qed.

Lemma nats_eqb_refl : forall a, nats_eqb a a = true.
Proof.
  intros a. unfold nats_eqb. now destruct (list_eq_dec Nat.eq_dec a a).
Qed.

(** In a document of HTML elements every path to an element is regular. *)
Lemma html_names_regular : forall doc,
  html_names doc = true ->
  forall suffix q e ch,
    node_at (childNodes_at doc q) suffix = Some (ElementNode e ch) ->
    path_regular (childNodes_at doc q) suffix = true.
Proof.
  intros doc H. induction suffix as [|i rest IH]; intros q e ch Hn;
    [reflexivity|].
  rewrite node_at_cons in Hn.
  destruct (nth_error (childNodes_at doc q) i) as [c|] eqn:Hi;
    [|discriminate].
  assert (exists e' ch', c = ElementNode e' ch') as (e' & ch' & ->).
  { destruct rest; simpl in Hn.
    - injection Hn as ->. eauto.
    - destruct c; try discriminate. eauto. }
  cbn [path_regular]. unfold step_regular. rewrite Hi.
  assert (html_name (nodeName e') = true) as Hname.
  { apply html_element_name. rewrite <- node_at_snoc in Hi.
    exact (@html_names_at doc _ _ _ H Hi). }
  rewrite (@named_same (nodeName e') _ 0 Hname (@named_ok_at doc q H)).
  rewrite nats_eqb_refl, andb_true_r.
  unfold html_name in Hname. apply andb_true_iff in Hname as [Hname _].
  rewrite Hname. cbn [andb].
  destruct rest as [|j rest']; [reflexivity|].
  rewrite <- (@childNodes_at_snoc doc q i _ _ Hi). apply (IH _ e ch).
  rewrite (@childNodes_at_snoc doc q i _ _ Hi).
  rewrite node_at_cons. exact Hn.
Qed.

Lemma steps_down_names : forall doc suffix q,
  path_regular (childNodes_at doc q) suffix = true ->
  Forall (fun st => is_name (fst st) = true)
         (steps_down (childNodes_at doc q) suffix).
Proof.
  intros doc. induction suffix as [|i rest IH]; intros q H; [constructor|].
  cbn [steps_down]. cbn [path_regular] in H.
  apply andb_true_iff in H as [Hs Hr].
  destruct (nth_error (childNodes_at doc q) i) as [[e ch|v|v]|] eqn:Hi;
    try constructor.
  - rewrite step_of_name. apply is_name_lower.
    now destruct (step_regular_inv _ _ Hi Hs).
  - rewrite <- (@childNodes_at_snoc doc q i _ _ Hi). apply IH.
    now rewrite (@childNodes_at_snoc doc q i _ _ Hi).
Qed.

(** Evaluating the steps written for [suffix] from the context [q] selects
    the node at [q ++ suffix] and nothing else. *)
Lemma eval_steps_down : forall doc suffix q,
  suffix <> [] ->
  path_regular (childNodes_at doc q) suffix = true ->
  eval_steps doc [q] (steps_down (childNodes_at doc q) suffix)
  = [q ++ suffix].
Proof.
  intros doc. induction suffix as [|i rest IH]; intros q Hne H;
    [now elim Hne|].
  cbn [path_regular] in H. apply andb_true_iff in H as [Hs Hr].
  destruct (nth_error (childNodes_at doc q) i) as [[e ch|v|v]|] eqn:Hi;
    try discriminate Hr.
  cbn [steps_down]. rewrite Hi. cbn [eval_steps flat_map].
  rewrite (@eval_step_self doc q i _ _ Hi Hs). cbn [app].
  replace (q ++ i :: rest) with ((q ++ [i]) ++ rest)
    by (now rewrite <- app_assoc).
  destruct rest as [|j rest'].
  - simpl. now rewrite app_nil_r.
  - rewrite <- (@childNodes_at_snoc doc q i _ _ Hi). apply IH;
      [discriminate|]. now rewrite (@childNodes_at_snoc doc q i _ _ Hi).
Qed.

(** ** [getXPath], from the top *)

Lemma sub_at_element : forall e ch i q,
  sub_at (ElementNode e ch) (i :: q) = node_at ch (i :: q).
Proof. intros. now rewrite node_at_cons. Qed.

Lemma steps_down_snoc : forall q doc i e ch,
  node_at doc (q ++ [i]) = Some (ElementNode e ch) ->
  steps_down doc (q ++ [i]) =
  steps_down doc q ++ [step_of (childNodes_at doc q) i e].
Proof.
  induction q as [|j q IH]; intros doc i e ch H.
  - simpl in *. destruct (nth_error doc i) as [c|]; [|discriminate].
    injection H as ->. reflexivity.
  - cbn [app] in *. rewrite node_at_cons in H.
    destruct (nth_error doc j) as [c|] eqn:Hj; [|discriminate].
    assert (exists e' ch', c = ElementNode e' ch') as (e' & ch' & ->).
    { destruct q; simpl in H; destruct c; try discriminate; eauto. }
    assert (node_at ch' (q ++ [i]) = Some (ElementNode e ch)) as H'.
    { destruct q; cbn [app] in *; now rewrite <- sub_at_element with (e := e'). }
    cbn [steps_down]. rewrite Hj. rewrite (IH ch' i e ch H').
    now rewrite (@childNodes_at_cons doc j q e' ch' Hj).
Qed.

Lemma parent_is_element : forall doc q i n,
  node_at doc (q ++ [i]) = Some n ->
  q = [] \/ exists e ch, node_at doc q = Some (ElementNode e ch).
Proof.
  intros doc q i n H. destruct q as [|j q]; [now left|]. right.
  rewrite node_at_snoc in H. unfold childNodes_at in H.
  destruct (node_at doc (j :: q)) as [[e ch|v|v]|]; eauto;
    now destruct i.
Qed.

Lemma getXPath_loop_down : forall doc n q,
  length q = n ->
  (q = [] \/ exists e ch, node_at doc q = Some (ElementNode e ch)) ->
  forall fuel acc, n < fuel ->
    getXPath_loop doc fuel q acc = map render_step (steps_down doc q) ++ acc.
Proof.
  intros doc. induction n as [|n IH]; intros q Hl Hq fuel acc Hf.
  - destruct q; [|discriminate]. destruct fuel; [lia|]. reflexivity.
  - destruct (@exists_last _ q) as (q' & i & ->);
      [intros ->; discriminate|].
    rewrite length_app in Hl. simpl in Hl.
    destruct Hq as [Hq|(e & ch & Hq)];
      [now destruct q'|].
    destruct fuel as [|fuel]; [lia|]. cbn [getXPath_loop]. rewrite Hq.
    unfold parentNode. rewrite removelast_last, last_last.
    rewrite (IH q'); [| lia | eapply parent_is_element; eauto | lia].
    rewrite (steps_down_snoc _ _ _ Hq), map_app, <- app_assoc.
    now rewrite part_of_step.
Qed.

Lemma getXPath_path : forall doc el e ch,
  node_at doc el = Some (ElementNode e ch) -> el_id e = [] ->
  getXPath doc el =
  lit "/" ++ join (lit "/") (map render_step (steps_down doc el)).
Proof.
  intros doc el e ch H Hid. unfold getXPath. rewrite H, Hid.
  rewrite (@getXPath_loop_down doc (length el) el eq_refl); [|eauto|lia].
  now rewrite app_nil_r.
Qed.

Lemma getXPath_id : forall doc el e ch,
  node_at doc el = Some (ElementNode e ch) -> el_id e <> [] ->
  getXPath doc el = lit "//*[@id=" ++ [dquote] ++ el_id e ++ [dquote] ++ lit "]".
Proof.
  intros doc el e ch H Hid. unfold getXPath. rewrite H.
  destruct (el_id e); [congruence|reflexivity].
Qed.

(** Decoding the path written for an element without [id]. *)
Lemma decode_encode_path : forall doc el e ch,
  path_regular doc el = true ->
  node_at doc el = Some (ElementNode e ch) -> el_id e = [] ->
  elementByXPath doc (getXPath doc el) = Some (Some el).
Proof.
  intros doc el e ch Hreg H Hid.
  assert (el <> []) as Hne by (intros ->; discriminate H).
  rewrite (getXPath_path _ _ H Hid). unfold elementByXPath.
  rewrite xpath_parse_path.
  - cbn [xpath_eval].
    pose proof (@eval_steps_down doc el [] Hne Hreg) as E.
    cbn [childNodes_at app] in E.
    exact (f_equal (fun l => Some (hd_error l)) E).
  - destruct el as [|i rest]; [discriminate|].
    rewrite node_at_cons in H. cbn [steps_down].
    destruct (nth_error doc i) as [c|]; [|discriminate].
    destruct rest; simpl in H; destruct c; try discriminate; discriminate.
  - apply (@steps_down_names doc el [] Hreg).
Qed.

Lemma decode_encode_html : forall doc el e ch,
  html_names doc = true ->
  node_at doc el = Some (ElementNode e ch) -> el_id e = [] ->
  elementByXPath doc (getXPath doc el) = Some (Some el).
Proof.
  intros doc el e ch Hnames H Hid.
  apply decode_encode_path with e ch; auto.
  exact (@html_names_regular doc Hnames el [] e ch H).
Qed.

(** Decoding the lookup written for an element with an [id]. *)
Lemma decode_encode_id : forall doc el e ch,
  node_at doc el = Some (ElementNode e ch) -> el_id e <> [] ->
  forallb not_dquote (el_id e) = true ->
  querySelectorAll doc [] (has_id (el_id e)) = [el] ->
  elementByXPath doc (getXPath doc el) = Some (Some el).
Proof.
  intros doc el e ch H Hid Hq Hu.
  rewrite (getXPath_id _ _ H Hid). unfold elementByXPath.
  rewrite xpath_parse_id by assumption. cbn [xpath_eval]. now rewrite Hu.
Qed.

(** ** The node-set of an address *)

Lemma in_named_children : forall nm l i j,
  In j (named_children nm i l) ->
  exists k e ch, j = i + k /\ nth_error l k = Some (ElementNode e ch) /\
                 name_test nm (ElementNode e ch) = true.
Proof.
  intros nm. induction l as [|c l IH]; intros i j H; [destruct H|].
  cbn [named_children] in H.
  destruct (name_test nm c) eqn:E.
  - destruct H as [<-|H].
    + destruct c as [e ch| |]; try discriminate.
      exists 0, e, ch. rewrite Nat.add_0_r. auto.
    + apply IH in H as (k & e & ch & -> & Hk & Hn).
      exists (S k), e, ch. repeat split; auto; lia.
  - apply IH in H as (k & e & ch & -> & Hk & Hn).
    exists (S k), e, ch. repeat split; auto; lia.
Qed.

Lemma named_children_sorted : forall nm l i,
  StronglySorted lt (named_children nm i l).
Proof.
  intros nm. induction l as [|c l IH]; intros i; [constructor|].
  cbn [named_children]. destruct (name_test nm c); [|apply IH].
  constructor; [apply IH|]. apply Forall_forall. intros j Hj.
  apply in_named_children in Hj as (k & _ & _ & -> & _). lia.
Qed.

Lemma in_eval_step : forall doc c st p,
  In p (eval_step doc c st) ->
  exists i e ch, p = c ++ [i] /\ node_at doc p = Some (ElementNode e ch) /\
                 toLowerCase (nodeName e) = toLowerCase (fst st).
Proof.
  intros doc c st p H. unfold eval_step in H.
  assert (forall i, In i (named_children (fst st) 0 (childNodes_at doc c)) ->
            exists e ch, node_at doc (c ++ [i]) = Some (ElementNode e ch) /\
                         toLowerCase (nodeName e) = toLowerCase (fst st)) as K.
  { intros i Hi. apply in_named_children in Hi as (k & e & ch & -> & Hk & Hn).
    exists e, ch. rewrite node_at_snoc. split; [exact Hk|].
    simpl in Hn. destruct (namespaceURI e); try discriminate Hn.
    apply text_eqb_eq in Hn. now symmetry. }
  destruct (snd st) as [[|k]|].
  - destruct H.
  - destruct (nth_error _ k) as [i|] eqn:Hi; [|destruct H].
    destruct H as [<-|[]]. apply nth_error_In in Hi.
    destruct (K i Hi) as (e & ch & H1 & H2). exists i, e, ch. auto.
  - apply in_map_iff in H as (i & <- & Hi).
    destruct (K i Hi) as (e & ch & H1 & H2). exists i, e, ch. auto.
Qed.

Lemma eval_step_sorted : forall doc c st,
  StronglySorted path_lt (eval_step doc c st).
Proof.
  intros doc c st. unfold eval_step. destruct (snd st) as [[|k]|].
  - constructor.
  - destruct (nth_error _ k); repeat constructor.
  - apply SSorted_map. eapply SSorted_impl; [|apply named_children_sorted].
    intros a b _ _ H. apply path_lt_app. now apply path_lt_head.
Qed.

Lemma path_lt_same_length : forall c c' a b,
  path_lt c c' -> length c = length c' -> path_lt (c ++ a) (c' ++ b).
Proof.
  intros c c' a b H. induction H as [i q|i j p q Hij|i p q H IH];
    intros Hl; simpl in *.
  - discriminate.
  - now apply path_lt_head.
  - apply path_lt_tail. apply IH. lia.
Qed.

Lemma eval_steps_sorted : forall doc steps ctxs n,
  StronglySorted path_lt ctxs -> Forall (fun c => length c = n) ctxs ->
  StronglySorted path_lt (eval_steps doc ctxs steps).
Proof.
  intros doc. induction steps as [|st steps IH]; intros ctxs n Hs Hl;
    [exact Hs|].
  cbn [eval_steps]. apply (IH _ (S n)).
  - apply SSorted_flat_map with (R := path_lt); auto.
    + intros a _. apply eval_step_sorted.
    + intros a b x y Ha Hb Hab Hx Hy.
      apply in_eval_step in Hx as (i & _ & _ & -> & _).
      apply in_eval_step in Hy as (j & _ & _ & -> & _).
      rewrite Forall_forall in Hl.
      apply path_lt_same_length; auto. rewrite (Hl a Ha), (Hl b Hb).
      reflexivity.
  - apply Forall_forall. intros p Hp.
    apply in_flat_map in Hp as (c & Hc & Hp).
    apply in_eval_step in Hp as (i & _ & _ & -> & _).
    rewrite Forall_forall in Hl. rewrite length_app, (Hl c Hc). simpl. lia.
Qed.

Lemma eval_steps_elements : forall doc steps ctxs p,
  steps <> [] -> In p (eval_steps doc ctxs steps) ->
  exists e ch, node_at doc p = Some (ElementNode e ch).
Proof.
  intros doc. induction steps as [|st steps IH]; intros ctxs p Hne H;
    [congruence|].
  cbn [eval_steps] in H. destruct steps as [|st' steps'].
  - simpl in H. apply in_flat_map in H as (c & _ & H).
    apply in_eval_step in H as (i & e & ch & _ & H & _). eauto.
  - eapply IH; [discriminate|exact H].
Qed.

Lemma xpath_parse_steps : forall a steps,
  xpath_parse a = Some (ByPath steps) -> steps <> [].
Proof.
  intros a steps H. unfold xpath_parse in H.
  destruct (strip_prefix _ a).
  - destruct (text_eqb _ _); discriminate.
  - destruct a as [|c a']; [discriminate|].
    destruct (Ascii.eqb c "/"%char); [|discriminate].
    destruct (parse_steps _) as [[|st sts]|]; try discriminate.
    injection H as <-. discriminate.
Qed.

(** The node-set is in document order, without repetition. *)
Lemma xpath_eval_sorted : forall doc x, StronglySorted path_lt (xpath_eval doc x).
Proof.
  intros doc [v|steps]; cbn [xpath_eval].
  - apply querySelectorAll_sorted.
  - apply eval_steps_sorted with (n := 0); repeat constructor.
Qed.

Lemma xpath_eval_elements : forall doc a x el,
  xpath_parse a = Some x -> In el (xpath_eval doc x) ->
  exists e ch, node_at doc el = Some (ElementNode e ch).
Proof.
  intros doc a [v|steps] el Hp H; cbn [xpath_eval] in H.
  - apply in_querySelectorAll in H as (_ & e & ch & _ & _ & H & _). eauto.
  - eapply eval_steps_elements; [|exact H]. eapply xpath_parse_steps; eauto.
Qed.

Lemma sorted_head_least : forall l el,
  StronglySorted path_lt l ->
  (hd_error l = Some el <->
   In el l /\ forall el', In el' l -> el' = el \/ path_lt el el').
Proof.
  intros l el Hs. destruct l as [|h t]; simpl.
  - split; [discriminate|]. now intros [[] _].
  - apply StronglySorted_inv in Hs as [_ Hh]. rewrite Forall_forall in Hh.
    split.
    + intros H. injection H as ->. split; [now left|].
      intros el' [->|H]; [now left|right; now apply Hh].
    + intros [[->|Hin] Hmin]; [reflexivity|].
      destruct (Hmin h (or_introl eq_refl)) as [->|Hlt]; [reflexivity|].
      elim (@path_lt_irrefl h). eapply path_lt_trans; [|exact Hlt]. auto.
Qed.

(** ** What an address selects *)

Lemma nth_named_children : forall nm l i r j,
  nth_error (named_children nm i l) r = Some j <->
  exists k c, j = i + k /\ nth_error l k = Some c /\ name_test nm c = true /\
              r = length (filter (name_test nm) (firstn k l)).
Proof.
  intros nm. induction l as [|c l IH]; intros i r j.
  - simpl. split.
    + intros H. destruct r; discriminate H.
    + intros (k & c & _ & H & _). destruct k; discriminate H.
  - cbn [named_children]. destruct (name_test nm c) eqn:E.
    + destruct r as [|r]; cbn [nth_error].
      * split.
        -- intros H. injection H as <-. exists 0, c.
           rewrite Nat.add_0_r. auto.
        -- intros (k & c' & -> & Hk & Hn & Hr). destruct k as [|k].
           ++ now rewrite Nat.add_0_r.
           ++ cbn [firstn filter] in Hr. rewrite E in Hr. discriminate Hr.
      * rewrite IH. split.
        -- intros (k & c' & -> & Hk & Hn & ->). exists (S k), c'.
           cbn [firstn filter nth_error]. rewrite E. cbn [length].
           repeat split; auto; lia.
        -- intros (k & c' & -> & Hk & Hn & Hr). destruct k as [|k].
           ++ discriminate Hr.
           ++ cbn [firstn filter nth_error] in Hk, Hr. rewrite E in Hr.
              cbn [length] in Hr. exists k, c'.
              repeat split; auto; lia.
    + rewrite IH. split.
      * intros (k & c' & -> & Hk & Hn & ->). exists (S k), c'.
        cbn [firstn filter nth_error]. rewrite E.
        repeat split; auto; lia.
      * intros (k & c' & -> & Hk & Hn & Hr). destruct k as [|k].
        -- cbn [nth_error] in Hk. injection Hk as <-. congruence.
        -- cbn [firstn filter nth_error] in Hk, Hr. rewrite E in Hr.
           exists k, c'. repeat split; auto; lia.
Qed.

Lemma in_eval_step_iff : forall doc c st p,
  In p (eval_step doc c st) <->
  exists i, p = c ++ [i] /\ step_selects (childNodes_at doc c) i st = true.
Proof.
  intros doc c st p. unfold eval_step, step_selects.
  set (sibs := childNodes_at doc c). destruct st as [nm [k|]]; cbn [fst snd].
  - destruct k as [|k].
    + split; [intros []|]. intros (i & _ & H).
      destruct (nth_error sibs i); [|discriminate H].
      apply andb_true_iff in H as [_ H]. discriminate H.
    + destruct (nth_error (named_children nm 0 sibs) k) as [i|] eqn:Hk.
      * apply nth_named_children in Hk as (j & n & -> & Hj & Hn & Hr).
        simpl. split.
        -- intros [<-|[]]. exists j. split; [reflexivity|].
           rewrite Hj, Hn. cbn [andb]. apply Nat.eqb_eq. now rewrite Hr.
        -- intros (i & -> & H). left.
           destruct (nth_error sibs i) as [n'|] eqn:Hi; [|discriminate H].
           apply andb_true_iff in H as [Hn' H]. apply Nat.eqb_eq in H.
           assert (nth_error (named_children nm 0 sibs) k = Some i) as Hi'.
           { apply nth_named_children. exists i, n'. repeat split; auto; lia. }
           assert (nth_error (named_children nm 0 sibs) k = Some j) as Hj'.
           { apply nth_named_children. exists j, n. repeat split; auto; lia. }
           congruence.
      * split; [intros []|]. intros (i & -> & H).
        destruct (nth_error sibs i) as [n'|] eqn:Hi; [|discriminate H].
        apply andb_true_iff in H as [Hn' H]. apply Nat.eqb_eq in H.
        assert (nth_error (named_children nm 0 sibs) k = Some i) as Hi'.
        { apply nth_named_children. exists i, n'. repeat split; auto; lia. }
        congruence.
  - rewrite in_map_iff. split.
    + intros (i & <- & Hi). apply In_nth_error in Hi as [r Hr].
      apply nth_named_children in Hr as (j & n & -> & Hj & Hn & _).
      exists j. split; [reflexivity|]. rewrite Hj, Hn. reflexivity.
    + intros (i & -> & H). exists i. split; [reflexivity|].
      destruct (nth_error sibs i) as [n'|] eqn:Hi; [|discriminate H].
      apply andb_true_iff in H as [Hn' _].
      apply nth_error_In with (length (filter (name_test nm) (firstn i sibs))).
      apply nth_named_children. exists i, n'. auto.
Qed.

Lemma step_selects_element : forall sibs i st,
  step_selects sibs i st = true ->
  exists e ch, nth_error sibs i = Some (ElementNode e ch).
Proof.
  intros sibs i st H. unfold step_selects in H.
  destruct (nth_error sibs i) as [[e ch|v|v]|]; try discriminate H; eauto.
Qed.

Lemma in_eval_steps_iff : forall doc steps ctxs p,
  In p (eval_steps doc ctxs steps) <->
  exists c suffix, In c ctxs /\ p = c ++ suffix /\
                   path_selects (childNodes_at doc c) suffix steps = true.
Proof.
  intros doc. induction steps as [|st steps IH]; intros ctxs p.
  - cbn [eval_steps]. split.
    + intros H. exists p, []. rewrite app_nil_r. auto.
    + intros (c & suffix & Hc & -> & H). destruct suffix; [|discriminate H].
      now rewrite app_nil_r.
  - cbn [eval_steps]. rewrite IH. split.
    + intros (c' & suffix & Hc' & -> & H).
      apply in_flat_map in Hc' as (c & Hc & Hc').
      apply in_eval_step_iff in Hc' as (i & -> & Hi).
      exists c, (i :: suffix). split; [exact Hc|].
      split; [now rewrite <- app_assoc|].
      cbn [path_selects]. rewrite Hi. cbn [andb].
      destruct (step_selects_element _ _ _ Hi) as (e & ch & He).
      rewrite He. now rewrite (@childNodes_at_snoc doc c i e ch He) in H.
    + intros (c & suffix & Hc & -> & H).
      destruct suffix as [|i suffix]; [discriminate H|].
      cbn [path_selects] in H. apply andb_true_iff in H as [Hi H].
      destruct (step_selects_element _ _ _ Hi) as (e & ch & He).
      rewrite He in H.
      exists (c ++ [i]), suffix. split.
      * apply in_flat_map. exists c. split; [exact Hc|].
        apply in_eval_step_iff. exists i. auto.
      * split; [now rewrite <- app_assoc|].
        now rewrite (@childNodes_at_snoc doc c i e ch He).
Qed.

(** The node-set of an address holds the nodes that answer it. *)
Lemma xpath_eval_selects : forall doc x el,
  In el (xpath_eval doc x) <-> selects doc x el = true.
Proof.
  intros doc [v|steps] el; cbn [xpath_eval selects].
  - rewrite in_querySelectorAll. split.
    + intros (q' & e & ch & _ & _ & Hn & Hs). now rewrite Hn.
    + intros H. destruct (node_at doc el) as [[e ch|v'|v']|] eqn:Hn;
        try discriminate H.
      exists el, e, ch. repeat split; auto.
      intros ->. discriminate Hn.
  - rewrite in_eval_steps_iff. split.
    + intros (c & suffix & [<-|[]] & -> & H). exact H.
    + intros H. exists [], el. repeat split; auto. now left.
Qed.

(** ** Expressions left open *)

Lemma strip_prefix_Some : forall pre s rest,
  strip_prefix pre s = Some rest -> s = pre ++ rest.
Proof.
  induction pre as [|c pre IH]; intros s rest H.
  - simpl in H. now injection H as ->.
  - destruct s as [|d s]; [discriminate H|]. cbn [strip_prefix] in H.
    destruct (Ascii.eqb c d) eqn:E; [|discriminate H].
    apply Ascii.eqb_eq in E. subst d. simpl. f_equal. now apply IH.
Qed.

Lemma take_drop_while : forall f s, s = take_while f s ++ drop_while f s.
Proof.
  intros f. induction s as [|c s IH]; [reflexivity|].
  cbn [take_while drop_while]. destruct (f c); [|reflexivity].
  simpl. now f_equal.
Qed.

Lemma take_while_all : forall f s, forallb f (take_while f s) = true.
Proof.
  intros f. induction s as [|c s IH]; [reflexivity|].
  cbn [take_while]. destruct (f c) eqn:E; [|reflexivity].
  cbn [forallb]. now rewrite E.
Qed.

Lemma count_none : forall (f : ascii -> bool) c s,
  f c = false -> forallb f s = true -> count_occ ascii_dec s c = 0.
Proof.
  intros f c. induction s as [|d s IH]; intros Hc H; [reflexivity|].
  cbn [forallb] in H. apply andb_true_iff in H as [Hd Hs].
  cbn [count_occ]. destruct (ascii_dec d c) as [->|_]; [congruence|auto].
Qed.

Lemma name_char_not_dquote : forall c,
  is_name_char c = true -> not_dquote c = true.
Proof. intros c. ascii_cases c; vm_compute; congruence. Qed.

Lemma digit_not_dquote : forall c, is_digit c = true -> not_dquote c = true.
Proof. intros c. ascii_cases c; vm_compute; congruence. Qed.

Lemma forallb_impl : forall (A : Type) (f g : A -> bool) l,
  (forall a, f a = true -> g a = true) ->
  forallb f l = true -> forallb g l = true.
Proof.
  intros A f g. induction l as [|a l IH]; intros Hfg H; [reflexivity|].
  cbn [forallb] in *. apply andb_true_iff in H as [Ha Hl].
  now rewrite (Hfg a Ha), IH.
Qed.

Lemma parse_step_no_dquote : forall seg st,
  parse_step seg = Some st -> forallb not_dquote seg = true.
Proof.
  intros seg st H. unfold parse_step in H.
  rewrite (take_drop_while is_name_char seg), forallb_app.
  rewrite (forallb_impl _ _ _ name_char_not_dquote (take_while_all _ _)).
  cbn [andb].
  destruct (is_name (take_while is_name_char seg)); [|discriminate H].
  destruct (drop_while is_name_char seg) as [|c rest]; [reflexivity|].
  destruct (Ascii.eqb c "["%char) eqn:Ec; [|discriminate H].
  apply Ascii.eqb_eq in Ec. subst c.
  rewrite (take_drop_while is_digit rest).
  destruct (take_while is_digit rest) as [|d ds] eqn:Ed; [discriminate H|].
  destruct (drop_while is_digit rest) as [|b [|? ?]]; try discriminate H.
  destruct (Ascii.eqb b "]"%char) eqn:Eb; [|discriminate H].
  apply Ascii.eqb_eq in Eb. subst b.
  pose proof (take_while_all is_digit rest) as Hd. rewrite Ed in Hd.
  cbn [forallb]. rewrite forallb_app.
  rewrite (forallb_impl _ _ _ digit_not_dquote Hd). reflexivity.
Qed.

Lemma parse_steps_no_dquote : forall segs steps,
  parse_steps segs = Some steps ->
  Forall (fun seg => forallb not_dquote seg = true) segs.
Proof.
  induction segs as [|seg segs IH]; intros steps H; [constructor|].
  cbn [parse_steps] in H.
  destruct (parse_step seg) as [st|] eqn:E; [|discriminate H].
  destruct (parse_steps segs) as [sts|] eqn:E'; [|discriminate H].
  constructor; [exact (parse_step_no_dquote _ E)|]. now apply IH with sts.
Qed.

Lemma split_on_all : forall (f : ascii -> bool) sep s,
  f sep = true ->
  Forall (fun seg => forallb f seg = true) (split_on sep s) ->
  forallb f s = true.
Proof.
  intros f sep. induction s as [|c s IH]; intros Hsep H; [reflexivity|].
  cbn [split_on] in H. cbn [forallb].
  destruct (Ascii.eqb c sep) eqn:E.
  - apply Ascii.eqb_eq in E. subst c. rewrite Hsep.
    apply Forall_cons_iff in H as [_ H]. now apply IH.
  - destruct (split_on sep s) as [|x rest] eqn:Es.
    + apply Forall_cons_iff in H as [H _]. cbn [forallb] in H.
      apply andb_true_iff in H as [Hc _]. rewrite Hc.
      apply IH; [exact Hsep|constructor].
    + apply Forall_cons_iff in H as [H Hrest]. cbn [forallb] in H.
      apply andb_true_iff in H as [Hc Hx]. rewrite Hc.
      apply IH; [exact Hsep|]. now constructor.
Qed.

(** An expression of the fragment is not one of those left open. *)
Lemma parsed_not_malformed : forall s x,
  xpath_parse s = Some x -> xpath_malformed s = false.
Proof.
  intros s x H. unfold xpath_malformed. apply andb_false_iff. right.
  unfold xpath_parse in H.
  destruct (strip_prefix (lit "//*[@id=" ++ [dquote]) s) as [rest|] eqn:Ep.
  - apply strip_prefix_Some in Ep. subst s.
    destruct (text_eqb (drop_while not_dquote rest) (dquote :: lit "]")) eqn:Ed;
      [|discriminate H].
    apply text_eqb_eq in Ed.
    rewrite (take_drop_while not_dquote rest), Ed.
    rewrite !count_occ_app.
    rewrite (count_none not_dquote dquote (take_while not_dquote rest) eq_refl
               (take_while_all _ _)).
    reflexivity.
  - destruct s as [|c s']; [discriminate H|].
    destruct (Ascii.eqb c "/"%char) eqn:Ec; [|discriminate H].
    apply Ascii.eqb_eq in Ec. subst c.
    destruct (parse_steps (split_on "/"%char s')) as [[|st sts]|] eqn:Es;
      try discriminate H.
    apply parse_steps_no_dquote in Es.
    apply (split_on_all not_dquote) in Es; [|reflexivity].
    cbn [count_occ]. destruct (ascii_dec "/"%char dquote) as [E|_];
      [discriminate E|].
    now rewrite (count_none not_dquote dquote s' eq_refl Es).
Qed.

Lemma malformed_not_evaluated : forall doc s,
  xpath_malformed s = true -> elementByXPath doc s = None.
Proof.
  intros doc s H. unfold elementByXPath.
  destruct (xpath_parse s) as [x|] eqn:E; [|reflexivity].
  apply parsed_not_malformed in E. congruence.
Qed.

(** ** The selector, case by case *)

Lemma hd_error_In : forall (A : Type) (l : list A) x, hd_error l = Some x -> In x l.
Proof. intros A [|y l] x H; [discriminate H|]. injection H as ->. now left. Qed.

Lemma evaluated_is_element : forall doc a x el,
  xpath_parse a = Some x -> hd_error (xpath_eval doc x) = Some el ->
  is_element doc el = true.
Proof.
  intros doc a x el Hx Hel. apply hd_error_In in Hel.
  destruct (@xpath_eval_elements doc a x el Hx Hel) as (e & ch & He).
  unfold is_element. now rewrite He.
Qed.

Lemma JS_SELECT_MATCH_cases : forall B p args x,
  xpath_parse (arg_xpath args) = Some x ->
  select_case B p args (JS_SELECT_MATCH B p args).
Proof.
  intros B p args x Hx. unfold JS_SELECT_MATCH, elementByXPath. rewrite Hx.
  set (doc := document p).
  destruct (hd_error (xpath_eval doc x)) as [el|] eqn:Hel;
    [|now apply case_not_found with x].
  unfold select_at. fold doc.
  rewrite (@evaluated_is_element doc (arg_xpath args) x el Hx Hel).
  set (idx := arg_nodeIndex args).
  set (lo := arg_start args). set (hi := arg_end args).
  destruct ((idx <? 0) || (idx >=? Z.of_nat (length (getTextNodes doc el))))%Z
    eqn:Hidx.
  - apply case_index with x; auto.
    apply orb_true_iff in Hidx as [H|H].
    + left. now apply Z.ltb_lt.
    + right. rewrite Z.geb_leb in H. now apply Z.leb_le.
  - apply orb_false_iff in Hidx as [H1 H2].
    apply Z.ltb_ge in H1. rewrite Z.geb_leb in H2. apply Z.leb_gt in H2.
    destruct (nth_error (getTextNodes doc el) (Z.to_nat idx))
      as [[tn val]|] eqn:Hnth.
    + destruct ((lo <? 0) || (hi >? Z.of_nat (length val)) || (lo >=? hi))%Z
        eqn:Hoff.
      * apply case_offsets with x tn val; auto.
        unfold offsets_valid. fold lo hi. intros (Ha & Hb).
        apply orb_true_iff in Hoff as [Hoff|Hoff];
          [apply orb_true_iff in Hoff as [Hoff|Hoff]|].
        -- apply Z.ltb_lt in Hoff. lia.
        -- rewrite Z.gtb_ltb in Hoff. apply Z.ltb_lt in Hoff. lia.
        -- rewrite Z.geb_leb in Hoff. apply Z.leb_le in Hoff. lia.
      * apply orb_false_iff in Hoff as [Hoff H5].
        apply orb_false_iff in Hoff as [H3 H4].
        apply Z.ltb_ge in H3. rewrite Z.gtb_ltb in H4. apply Z.ltb_ge in H4.
        rewrite Z.geb_leb in H5. apply Z.leb_gt in H5.
        assert (offsets_valid args val) as Hv
          by (unfold offsets_valid; fold lo hi; lia).
        pose proof (@case_ok B p args x el tn val Hx Hel (conj H1 H2) Hnth Hv)
          as C.
        unfold selected_page in C. fold doc lo hi in C.
        destruct (closest_editable doc (S (length el)) el); exact C.
    + exfalso. apply nth_error_None in Hnth. lia.
Qed.

(* ================================================================== *)
(** * The specification, claim by claim *)
(* ================================================================== *)

(** ** Delimiter matching *)

(** C1, as stated, fails.  The text [$a$$b$$] contains the well-formed block
    [$$b$$] at offsets 2 to 7, yet the scan reports the two single-dollar
    matches [$a$] and [$b$]: the block is not matched as one span. *)
Lemma double_block_split :
  let s := lit "$a$$b$$" in
  s = lit "$a" ++ dollar :: dollar :: lit "b" ++ dollar :: dollar :: [] /\
  lit "b" <> [] /\ has_dollar (lit "b") = false /\
  find_all s = [(0, 3); (3, 6)] /\
  ~ In (2, 7) (find_all s).
Proof.
  cbv zeta. split; [reflexivity|]. split; [discriminate|].
  split; [reflexivity|]. split; [reflexivity|].
  vm_compute. intros [H|[H|[]]]; discriminate H.
Qed.

(** C1, amended.  For every text, the scan of a text node reports matches
    repeatedly, without overlap and leftmost first; at each position the
    shortest [$$...$$] is taken when there is one, otherwise the shortest
    [$...$], the body being one or more characters of any kind.
    Consequently a block [$$body$$] whose body is non-empty and free of [$]
    is reported as one match whenever no [$] lies between the point the scan
    has reached (the start of the text, or the end of a reported match) and
    the block. *)
Theorem delimiter_matching : forall s,
  scan_spec s 0 (find_all s) /\
  forall done gap body post,
    s = done ++ gap ++ dollar :: dollar :: body ++ dollar :: dollar :: post ->
    (done = [] \/ exists a, In (a, length done) (find_all s)) ->
    has_dollar gap = false -> body <> [] -> has_dollar body = false ->
    In (length done + length gap, length done + length gap + (length body + 4))
       (find_all s).
Proof.
  intros s. pose proof (find_all_matches s) as M.
  split; [now apply matches_from_scan_spec|].
  intros done gap body post Hs Hd Hg Hne Hb.
  pose proof (@block_exec done gap body post Hg Hne Hb) as E. rewrite <- Hs in E.
  destruct Hd as [->|[a Ha]].
  - simpl in E. inversion M as [i E'|i st en l E' Hb' Hl]; subst.
    + rewrite E in E'. discriminate E'.
    + rewrite E in E'. injection E' as <- He. left. simpl. f_equal. lia.
  - exact (@matches_from_next _ _ _ M _ _ _ _ Ha E).
Qed.

Lemma delimiter_matching_witness :
  let s := lit "x $a$ y $$b+c$$ z" in
  let done := lit "x $a$" in
  let gap := lit " y " in
  let body := lit "b+c" in
  let post := lit " z" in
  (s = done ++ gap ++ dollar :: dollar :: body ++ dollar :: dollar :: post) /\
  (done = [] \/ exists a, In (a, length done) (find_all s)) /\
  has_dollar gap = false /\ body <> [] /\ has_dollar body = false /\
  scan_spec s 0 (find_all s) /\
  In (length done + length gap, length done + length gap + (length body + 4))
     (find_all s).
Proof.
  intros s done gap body post.
  assert (done = [] \/ exists a, In (a, length done) (find_all s)) as Hd.
  { right. exists 2. vm_compute. left. reflexivity. }
  assert (body <> []) as Hne by discriminate.
  split; [reflexivity|]. split; [exact Hd|]. split; [reflexivity|].
  split; [exact Hne|]. split; [reflexivity|].
  destruct (delimiter_matching s) as [H1 H2]. split; [exact H1|].
  exact (H2 done gap body post eq_refl Hd eq_refl Hne eq_refl).
Defined.

(** The law of the scan on the two texts above, where no block is found. *)
Example scan_law_without_block :
  scan_spec (lit "$a$") 0 [(0, 3)] /\
  scan_spec (lit "$a$$b$$") 0 [(0, 3); (3, 6)].
Proof.
  split.
  - change [(0, 3)] with (find_all (lit "$a$")).
    apply matches_from_scan_spec, find_all_matches.
  - change [(0, 3); (3, 6)] with (find_all (lit "$a$$b$$")).
    apply matches_from_scan_spec, find_all_matches.
Qed.

(** ** The pass loop *)



(** With the trigger that changes nothing, all seven passes are used. *)
Example idle_trigger_uses_every_pass :
  let o := run idle_driver (page_of [lit "$x$"]) 7 in
  processed o = 7 /\ passes o = 7 /\
  process_all_matches idle_driver (page_of [lit "$x$"]) 7 = Some 7.
Proof. vm_compute. repeat split; reflexivity. Qed.

(** C2, as stated, fails.  The page holds the single match [$$a$b$$]
    (followed by [c$]).  Removing the four delimiter characters of that match
    leaves [a$bc$], in which the scan finds the new match [$bc$]; every
    selection succeeds, the loop ends in its third pass and returns 2. *)
Lemma trigger_may_leave_a_match :
  let p := page_of [lit "$$a$b$$c$"] in
  let o := run stub_driver p 2000 in
  length (JS_FIND_MATCHES p) = 1 /\ (1 < 2000)%Z /\
  map snd (getTextNodes (document (stub_driver.(send_shortcut_and_enter)
             (fst (stub_driver.(select_match) p
                     (args_of (hd (mkMatchRef [] 0 0 0 [])
                                  (JS_FIND_MATCHES p))))))) [])
    = [lit "a$bc$"] /\
  processed o = 2 /\ passes o = 3 /\ processed o <> 1 /\
  process_all_matches stub_driver p 2000 = Some 2.
Proof.
  cbv zeta. split; [reflexivity|]. split; [reflexivity|].
  split; [reflexivity|]. split; [reflexivity|]. split; [reflexivity|].
  split; [vm_compute; discriminate|]. vm_compute. reflexivity.
Qed.

(** C2, amended.  Let the scan of the first pass find [N] matches with
    [N < max_passes], and let every pass go as intended: the selection of
    the first match succeeds and the trigger leaves the next scan with
    exactly one match fewer.  Then the loop ends in pass [N + 1], whose scan
    finds nothing, and returns [N].  ([Inv] holds of the worlds the loop goes
    through.) *)
Theorem process_all_matches_countdown :
  forall (W : Type) (d : driver W) (Inv : W -> Prop)
         (N : nat) (max_passes : Z) (w : W),
  (Z.of_nat N < max_passes)%Z ->
  Inv w ->
  length (next_scan d w) = N ->
  (forall w m ms, Inv w -> next_scan d w = m :: ms ->
     is_ok (snd (select_match d (after_scan d w) (args_of m))) = true /\
     Inv (after_pass d w m) /\
     length (next_scan d (after_pass d w m)) = length ms) ->
  process_all_matches d w max_passes = Some N /\
  passes (run d w max_passes) = N + 1 /\
  exists w_last, Inv w_last /\ next_scan d w_last = [] /\
                 final (run d w max_passes) = after_scan d w_last.
Proof.
  intros W d Inv N max_passes w Hn Hinv Hlen Hstep.
  unfold process_all_matches, run.
  pose proof (@pass_loop_countdown W d Inv Hstep N (Z.to_nat max_passes) w 0 0
                ltac:(lia) Hinv Hlen) as P.
  cbv zeta in P. destruct P as (P1 & P2 & P3 & P4).
  rewrite P3, P1. auto.
Qed.

Lemma process_all_matches_countdown_witness :
  (Z.of_nat 2 < 2000)%Z /\ on_track two_spans /\
  length (next_scan stub_driver two_spans) = 2 /\
  process_all_matches stub_driver two_spans 2000 = Some 2 /\
  passes (run stub_driver two_spans 2000) = 2 + 1 /\
  exists w_last, on_track w_last /\ next_scan stub_driver w_last = [] /\
                 final (run stub_driver two_spans 2000)
                 = after_scan stub_driver w_last.
Proof.
  assert (Z.of_nat 2 < 2000)%Z as H1 by (vm_compute; reflexivity).
  assert (on_track two_spans) as H2 by (left; reflexivity).
  assert (length (next_scan stub_driver two_spans) = 2) as H3
    by (vm_compute; reflexivity).
  split; [exact H1|]. split; [exact H2|]. split; [exact H3|].
  apply (@process_all_matches_countdown page stub_driver on_track 2 2000
           two_spans H1 H2 H3).
  intros w m ms [-> | [-> | ->]] Hn; vm_compute in Hn;
    try discriminate Hn; injection Hn as <- <-.
  - split; [vm_compute; reflexivity|].
    split; [right; left; vm_compute; reflexivity|vm_compute; reflexivity].
  - split; [vm_compute; reflexivity|].
    split; [right; right; vm_compute; reflexivity|vm_compute; reflexivity].
Defined.

(** ** The selector *)

Lemma select_parses : forall B p args out,
  JS_SELECT_MATCH B p args = Some out ->
  exists x, xpath_parse (arg_xpath args) = Some x.
Proof.
  intros B p args out H. unfold JS_SELECT_MATCH, elementByXPath in H.
  destruct (xpath_parse (arg_xpath args)) as [x|]; [eauto|discriminate].
Qed.

(** The script from [if (!el)] on, for a node found: the three ways it
    goes. *)
Lemma select_at_some : forall B p args el,
  let doc := document p in
  let textNodes := getTextNodes doc el in
  let p1 := if is_element doc el then scrollIntoView p el else p in
  ((arg_nodeIndex args < 0 \/
    Z.of_nat (length textNodes) <= arg_nodeIndex args)%Z /\
   select_at B p args (Some el)
   = (p1, Some (SelectError INDEX_OUT_OF_RANGE))) \/
  (exists tn val,
     (0 <= arg_nodeIndex args < Z.of_nat (length textNodes))%Z /\
     nth_error textNodes (Z.to_nat (arg_nodeIndex args)) = Some (tn, val) /\
     ((~ offsets_valid args val /\
       select_at B p args (Some el)
       = (p1, Some (SelectError INVALID_OFFSETS))) \/
      (offsets_valid args val /\
       select_at B p args (Some el)
       = let p2 := addRange B p1 (mkRange tn (Z.to_nat (arg_start args))
                                          (Z.to_nat (arg_end args))) in
         if is_element doc el then
           match closest_editable doc (S (length el)) el with
           | Some focusEl => (focus B p2 focusEl, Some SelectOk)
           | None => (p2, Some SelectOk)
           end
         else (p2, None)))).
Proof.
  intros B p args el. cbv zeta. unfold select_at.
  set (doc := document p). set (idx := arg_nodeIndex args).
  set (lo := arg_start args). set (hi := arg_end args).
  set (p1 := if is_element doc el then scrollIntoView p el else p).
  destruct ((idx <? 0) || (idx >=? Z.of_nat (length (getTextNodes doc el))))%Z
    eqn:Hidx.
  - left. split; [|reflexivity].
    apply orb_true_iff in Hidx as [H|H].
    + left. now apply Z.ltb_lt.
    + right. rewrite Z.geb_leb in H. now apply Z.leb_le.
  - apply orb_false_iff in Hidx as [H1 H2].
    apply Z.ltb_ge in H1. rewrite Z.geb_leb in H2. apply Z.leb_gt in H2.
    destruct (nth_error (getTextNodes doc el) (Z.to_nat idx))
      as [[tn val]|] eqn:Hnth;
      [|exfalso; apply nth_error_None in Hnth; lia].
    right. exists tn, val. split; [lia|]. split; [reflexivity|].
    destruct ((lo <? 0) || (hi >? Z.of_nat (length val)) || (lo >=? hi))%Z
      eqn:Hoff.
    + left. split; [|reflexivity].
      unfold offsets_valid. fold lo hi. intros (Ha & Hb).
      apply orb_true_iff in Hoff as [Hoff|Hoff];
        [apply orb_true_iff in Hoff as [Hoff|Hoff]|].
      * apply Z.ltb_lt in Hoff. lia.
      * rewrite Z.gtb_ltb in Hoff. apply Z.ltb_lt in Hoff. lia.
      * rewrite Z.geb_leb in Hoff. apply Z.leb_le in Hoff. lia.
    + right. split; [|reflexivity].
      apply orb_false_iff in Hoff as [Hoff H5].
      apply orb_false_iff in Hoff as [H3 H4].
      apply Z.ltb_ge in H3. rewrite Z.gtb_ltb in H4. apply Z.ltb_ge in H4.
      rewrite Z.geb_leb in H5. apply Z.leb_gt in H5.
      unfold offsets_valid. fold lo hi. lia.
Qed.

(** No step of the script touches the tree. *)
Lemma select_at_document : forall B p args res,
  document (fst (select_at B p args res)) = document p.
Proof.
  intros B p args [el|]; [|reflexivity].
  assert (document (if is_element (document p) el
                    then scrollIntoView p el else p) = document p) as H1
    by now destruct (is_element (document p) el).
  destruct (select_at_some B p args el)
    as [[_ E]|(tn & val & _ & _ & [[_ E]|[_ E]])]; rewrite E; cbv zeta.
  - exact H1.
  - exact H1.
  - destruct (is_element (document p) el).
    + destruct (closest_editable _ _ _); cbn [fst].
      * now rewrite focus_document, addRange_document.
      * now rewrite addRange_document.
    + cbn [fst]. now rewrite addRange_document.
Qed.

(** The answer depends on the tree only. *)
Lemma select_at_answer : forall B p w args res,
  document w = document p ->
  snd (select_at B w args res) = snd (select_at B p args res).
Proof.
  intros B p w args [el|] Hd; [|reflexivity].
  unfold select_at. rewrite Hd.
  repeat match goal with
         | |- context [match ?c with _ => _ end] => destruct c
         | |- context [if ?c then _ else _] => destruct c
         end; reflexivity.
Qed.

(** On an element the script does not throw. *)
Lemma select_at_answers : forall B p args res,
  match res with
  | Some el => is_element (document p) el = true
  | None => True
  end ->
  exists p' r, select_at B p args res = (p', Some r).
Proof.
  intros B p args [el|] H; [|simpl; eauto].
  destruct (select_at_some B p args el) as [[_ E]|(tn & val & _ & _ & [[_ E]|[_ E]])];
    rewrite E; cbv zeta; eauto.
  rewrite H. destruct (closest_editable _ _ _); eauto.
Qed.

Lemma evaluated_res_element : forall doc a res,
  elementByXPath doc a = Some res ->
  match res with
  | Some el => is_element doc el = true
  | None => True
  end.
Proof.
  intros doc a res H. unfold elementByXPath in H.
  destruct (xpath_parse a) as [x|] eqn:Hx; [|discriminate H].
  injection H as <-.
  destruct (hd_error (xpath_eval doc x)) as [el|] eqn:Hel; [|exact I].
  exact (@evaluated_is_element doc a x el Hx Hel).
Qed.




(** C8.  The selector leaves the tree as it found it: the same document,
    hence the same value in every text node, whether it answers [ok:true],
    fails or throws.  Its effects are calls of the browser and nothing else,
    in this order: [scrollIntoView] on the node the address resolved to (an
    element); then, only once the three checks have passed,
    [removeAllRanges] and [addRange] with the range from [start] to [end] in
    the text node that [nodeIndex] names below that node; then [focus] on the
    nearest element with [contenteditable="true"] among the node and its
    ancestors, if there is one.  What the selection and the focus are after
    these calls is the browser's to decide; neither call touches the tree.
    [res] is what the address resolved to. *)
Theorem select_keeps_text : forall B p args res p' r,
  select_at B p args res = (p', r) ->
  document p' = document p /\
  (forall q, node_at (document p') q = node_at (document p) q) /\
  (forall el, getTextNodes (document p') el = getTextNodes (document p) el) /\
  (elementByXPath (document p) (arg_xpath args) = Some res ->
   exists r', r = Some r' /\ JS_SELECT_MATCH B p args = Some (p', r')) /\
  match res with
  | None => p' = p /\ r = Some (SelectError NOT_FOUND)
  | Some el =>
      let p1 := if is_element (document p) el then scrollIntoView p el
                else p in
      (p' = p1 /\
       (r = Some (SelectError INDEX_OUT_OF_RANGE) \/
        r = Some (SelectError INVALID_OFFSETS))) \/
      (exists tn val,
         (0 <= arg_nodeIndex args)%Z /\
         nth_error (getTextNodes (document p) el)
                   (Z.to_nat (arg_nodeIndex args)) = Some (tn, val) /\
         (0 <= arg_start args < arg_end args)%Z /\
         (arg_end args <= Z.of_nat (length val))%Z /\
         let p2 := addRange B p1 (mkRange tn (Z.to_nat (arg_start args))
                                          (Z.to_nat (arg_end args))) in
         (r = Some SelectOk /\ is_element (document p) el = true /\
          p' = match closest_editable (document p) (S (length el)) el with
               | Some focusEl => focus B p2 focusEl
               | None => p2
               end) \/
         (r = None /\ is_element (document p) el = false /\ p' = p2))
  end.
Proof.
  intros B p args res p' r H.
  assert (match res with
  | None => p' = p /\ r = Some (SelectError NOT_FOUND)
  | Some el =>
      let p1 := if is_element (document p) el then scrollIntoView p el
                else p in
      (p' = p1 /\
       (r = Some (SelectError INDEX_OUT_OF_RANGE) \/
        r = Some (SelectError INVALID_OFFSETS))) \/
      (exists tn val,
         (0 <= arg_nodeIndex args)%Z /\
         nth_error (getTextNodes (document p) el)
                   (Z.to_nat (arg_nodeIndex args)) = Some (tn, val) /\
         (0 <= arg_start args < arg_end args)%Z /\
         (arg_end args <= Z.of_nat (length val))%Z /\
         let p2 := addRange B p1 (mkRange tn (Z.to_nat (arg_start args))
                                          (Z.to_nat (arg_end args))) in
         (r = Some SelectOk /\ is_element (document p) el = true /\
          p' = match closest_editable (document p) (S (length el)) el with
               | Some focusEl => focus B p2 focusEl
               | None => p2
               end) \/
         (r = None /\ is_element (document p) el = false /\ p' = p2))
  end) as Shape.
  { destruct res as [el|]; [|simpl in H; injection H as <- <-; auto].
    cbv zeta.
    destruct (select_at_some B p args el)
      as [[Hidx E]|(tn & val & Hidx & Hnth & [[Hoff E]|[Hoff E]])];
      rewrite E in H; cbv zeta in H.
    - injection H as <- <-. left. auto.
    - injection H as <- <-. left. auto.
    - right. exists tn, val. unfold offsets_valid in Hoff.
      split; [lia|]. split; [exact Hnth|]. split; [lia|]. split; [lia|].
      destruct (is_element (document p) el) eqn:He.
      + left. destruct (closest_editable _ _ _); injection H as <- <-; auto.
      + right. injection H as <- <-. auto. }
  assert (document p' = document p) as Hd.
  { pose proof (select_at_document B p args res) as D.
    now rewrite H in D. }
  split; [exact Hd|]. rewrite Hd.
  split; [reflexivity|]. split; [reflexivity|]. split; [|exact Shape].
  intros Hres.
  destruct (select_at_answers B p args res (evaluated_res_element _ _ Hres))
    as (q & r' & E).
  rewrite E in H. injection H as <- <-. exists r'. split; [reflexivity|].
  unfold JS_SELECT_MATCH. now rewrite Hres, E.
Qed.

Lemma select_keeps_text_witness :
  let B := sample_browser in
  let p := demo in
  let args := mkSelectArgs first_leaf_address 0 10 20 in
  let res := Some [0; 1; 0; 0] in
  let p' := selected_page B p args [0; 1; 0; 0] [0; 1; 0; 0; 0] in
  let r := Some SelectOk in
  select_at B p args res = (p', r) /\
  elementByXPath (document p) (arg_xpath args) = Some res /\
  document p' = document p /\
  (forall q, node_at (document p') q = node_at (document p) q) /\
  (forall el, getTextNodes (document p') el = getTextNodes (document p) el) /\
  exists r', r = Some r' /\ JS_SELECT_MATCH B p args = Some (p', r').
Proof.
  intros B p args res p' r.
  assert (select_at B p args res = (p', r)) as H by (vm_compute; reflexivity).
  assert (elementByXPath (document p) (arg_xpath args) = Some res) as H'
    by (vm_compute; reflexivity).
  split; [exact H|]. split; [exact H'|].
  destruct (@select_keeps_text B p args res p' r H) as (H1 & H2 & H3 & H4 & _).
  split; [exact H1|]. split; [exact H2|]. split; [exact H3|]. exact (H4 H').
Defined.

(** The node an address resolves to need not be an element: [/] is the
    document.  It has no [scrollIntoView] and no [focus]; the range is given
    to the selection all the same, and then the script throws. *)
Example select_on_the_document_throws :
  forall B,
  is_element (document demo) [] = false /\
  select_at B demo (mkSelectArgs (lit "/") 0 10 20) (Some [])
  = (addRange B demo (mkRange [0; 1; 0; 0; 0] 10 20), None).
Proof. intros B. split; reflexivity. Qed.



Example select_rejects_reversed_offsets :
  forall B,
  JS_SELECT_MATCH B demo (mkSelectArgs first_leaf_address 0 5 3)
  = Some (scrollIntoView demo [0; 1; 0; 0], SelectError INVALID_OFFSETS).
Proof. intros B. vm_compute. reflexivity. Qed.

Example select_rejects_index_99 :
  forall B,
  length (getTextNodes (document two_node_leaf) [0; 0; 0; 0]) = 2 /\
  JS_SELECT_MATCH B two_node_leaf
    (mkSelectArgs (lit "/html/body/div/div") 99 4 7)
  = Some (scrollIntoView two_node_leaf [0; 0; 0; 0],
          SelectError INDEX_OUT_OF_RANGE).
Proof. intros B. vm_compute. split; reflexivity. Qed.

Example select_rejects_missing_element :
  forall B,
  JS_SELECT_MATCH B demo (mkSelectArgs (lit "/html/body/div/div[7]") 0 10 20)
  = Some (demo, SelectError NOT_FOUND).
Proof. intros B. vm_compute. reflexivity. Qed.

(** ** The scanner *)

(** The end-to-end example of the specification. *)
Example scan_energy :
  JS_FIND_MATCHES (page_of [lit "Energy is $$E=mc^2$$ always."])
  = [mkMatchRef (lit "/html/body/div/div") 0 10 20
                (lit "Energy is $$E=mc^2$$ always.")].
Proof. vm_compute. reflexivity. Qed.

(** Two leaves, [$$a$$] and [$b$]: two matches, in document order. *)
Example scan_two_leaves :
  map (fun r => (xpath r, start r, end_ r))
      (JS_FIND_MATCHES (page_of [lit "$$a$$"; lit "$b$"]))
  = [(lit "/html/body/div/div[1]", 0, 5); (lit "/html/body/div/div[2]", 0, 3)].
Proof. vm_compute. reflexivity. Qed.

(** C6.  Every MatchRef the scanner emits points into a text node of the
    tree: its address is the one written for a leaf element, [nodeIndex] is
    the place of a text node in that leaf's traversal, and the offsets satisfy
    [0 <= start < end <= length] of that node's value.  The text between the
    offsets is the match the expression makes at [start], delimiters
    included, and scanning that text alone finds exactly one match, the whole
    of it. *)
Theorem scanner_offsets : forall p r,
  In r (JS_FIND_MATCHES p) ->
  exists el tn s,
    (exists e ch, node_at (document p) el = Some (ElementNode e ch)) /\
    xpath r = getXPath (document p) el /\
    nth_error (getTextNodes (document p) el) (nodeIndex r) = Some (tn, s) /\
    node_at (document p) tn = Some (TextNode s) /\
    0 <= start r /\ start r < end_ r /\ end_ r <= length s /\
    match_here DOLLAR_RE (skipn (start r) s) = Some (end_ r - start r) /\
    chosen (skipn (start r) s) (end_ r - start r) /\
    find_all (slice s (start r) (end_ r)) = [(0, end_ r - start r)].
Proof.
  intros p r H. rewrite JS_FIND_MATCHES_locate in H.
  apply in_map_iff in H as ([[[el ti] s] [st en]] & <- & H).
  apply in_locate in H as ((e & ch & He & _) & (tn & Htn) & Hm).
  apply find_all_in in Hm as (Hb & Hs).
  exists el, tn, s. cbn [ref_of push_match xpath nodeIndex start end_ fst snd].
  split; [eauto|]. split; [reflexivity|]. split; [exact Htn|].
  split.
  { apply nth_error_In in Htn.
    apply in_getTextNodes in Htn as (_ & _ & _ & H). exact H. }
  split; [lia|]. split; [lia|]. split; [lia|].
  split; [now rewrite match_here_dollar|].
  split; [now apply span_len_chosen|].
  unfold slice. now apply find_all_span.
Qed.

Lemma scanner_offsets_witness :
  let p := demo in
  let r := mkMatchRef first_leaf_address 0 10 20
                      (lit "Energy is $$E=mc^2$$ always.") in
  In r (JS_FIND_MATCHES p) /\
  exists el tn s,
    (exists e ch, node_at (document p) el = Some (ElementNode e ch)) /\
    xpath r = getXPath (document p) el /\
    nth_error (getTextNodes (document p) el) (nodeIndex r) = Some (tn, s) /\
    node_at (document p) tn = Some (TextNode s) /\
    0 <= start r /\ start r < end_ r /\ end_ r <= length s /\
    match_here DOLLAR_RE (skipn (start r) s) = Some (end_ r - start r) /\
    chosen (skipn (start r) s) (end_ r - start r) /\
    find_all (slice s (start r) (end_ r)) = [(0, end_ r - start r)].
Proof.
  intros p r.
  assert (In r (JS_FIND_MATCHES p)) as H by (vm_compute; left; reflexivity).
  split; [exact H|]. exact (@scanner_offsets p r H).
Defined.

(** C9.  The scan reads the tree and nothing else, and changes nothing: on
    two pages with the same tree (whatever their scroll position, selection
    and focus) it returns the same MatchRefs in the same order, and it hands
    the page back as it was.  The order is that of the places of the
    matches: leaves in document order, then text nodes in the order of the
    leaf's traversal, then match positions from left to right. *)
Theorem scan_deterministic_in_document_order : forall p p',
  document p' = document p ->
  JS_FIND_MATCHES p' = JS_FIND_MATCHES p /\
  (forall B beyond click trigger,
     find_matches (page_driver B beyond click trigger) p
     = (p, JS_FIND_MATCHES p)) /\
  JS_FIND_MATCHES p = map (ref_of (document p)) (locate (document p)) /\
  StronglySorted location_lt (locate (document p)) /\
  (forall el ti s m, In (el, ti, s, m) (locate (document p)) ->
     exists tn, nth_error (getTextNodes (document p) el) ti = Some (tn, s)).
Proof.
  intros p p' H. split; [unfold JS_FIND_MATCHES; now rewrite H|].
  split; [reflexivity|]. split; [apply JS_FIND_MATCHES_locate|].
  split; [apply locate_sorted|].
  intros el ti s m Hin. now apply in_locate in Hin as (_ & Htn & _).
Qed.

Lemma scan_deterministic_in_document_order_witness :
  let p := demo in
  let p' := selected_page sample_browser demo
                          (mkSelectArgs first_leaf_address 0 10 20)
                          [0; 1; 0; 0] [0; 1; 0; 0; 0] in
  document p' = document p /\
  JS_FIND_MATCHES p' = JS_FIND_MATCHES p /\
  (forall B beyond click trigger,
     find_matches (page_driver B beyond click trigger) p
     = (p, JS_FIND_MATCHES p)) /\
  JS_FIND_MATCHES p = map (ref_of (document p)) (locate (document p)) /\
  StronglySorted location_lt (locate (document p)) /\
  (forall el ti s m, In (el, ti, s, m) (locate (document p)) ->
     exists tn, nth_error (getTextNodes (document p) el) ti = Some (tn, s)).
Proof.
  intros p p'.
  assert (document p' = document p) as H by (vm_compute; reflexivity).
  split; [exact H|]. exact (@scan_deterministic_in_document_order p p' H).
Defined.

(** ** Addresses *)

Example getXPath_examples :
  map (getXPath address_doc) [[0; 1; 0]; [0; 1; 3; 0]; [0; 1; 4]; [0]]
  = [lit "/html/body/div[1]"; lit "/html/body/p/span";
     lit "/html/body/div[3]"; lit "/html"] /\
  getXPath address_doc [0; 1; 2]
  = lit "//*[@id=" ++ [dquote] ++ lit "k" ++ [dquote] ++ lit "]".
Proof. vm_compute. split; reflexivity. Qed.

(** C3, as stated, fails.  When two elements carry the same [id], the
    address of the second is the [id] lookup, and decoding it yields the
    first. *)
Lemma duplicate_id_decodes_to_first :
  let doc := duplicate_id_doc in
  let e := [0; 0; 1] in
  node_at doc e
  = Some (ElementNode (with_id "DIV" "k") [TextNode (lit "second")]) /\
  elementByXPath doc (getXPath doc e) = Some (Some [0; 0; 0]) /\
  elementByXPath doc (getXPath doc e) <> Some (Some e).
Proof.
  cbv zeta. split; [reflexivity|]. split; [vm_compute; reflexivity|].
  vm_compute. discriminate.
Qed.

(** C3, amended.  For an element with an [id] that holds no double quote,
    decoding the address written for it yields the first element of the
    tree, in document order, that carries this [id]: the element itself
    exactly when no earlier element carries the same [id].  For an element
    without [id], decoding yields the element itself when, at every step
    from the top to the element, the name is one XPath can write and the
    siblings [getXPath] counts (the elements of the same [nodeName]) are the
    ones the name test selects (the HTML elements of that name); in
    particular in every tree of HTML elements.  The tree is the same at both
    times. *)
Theorem decode_encode : forall doc el e ch,
  node_at doc el = Some (ElementNode e ch) ->
  (el_id e <> [] -> forallb not_dquote (el_id e) = true ->
   elementByXPath doc (getXPath doc el)
   = Some (querySelector doc (has_id (el_id e))) /\
   (elementByXPath doc (getXPath doc el) = Some (Some el) <->
    querySelector doc (has_id (el_id e)) = Some el)) /\
  (el_id e = [] -> path_regular doc el = true ->
   elementByXPath doc (getXPath doc el) = Some (Some el)) /\
  (el_id e = [] -> html_names doc = true ->
   elementByXPath doc (getXPath doc el) = Some (Some el)).
Proof.
  intros doc el e ch H. split; [|split].
  - intros Hid Hq.
    assert (elementByXPath doc (getXPath doc el)
            = Some (querySelector doc (has_id (el_id e)))) as E.
    { rewrite (@getXPath_id doc el e ch H Hid). unfold elementByXPath.
      now rewrite xpath_parse_id by assumption. }
    split; [exact E|]. rewrite E. split; intros H'; congruence.
  - intros Hid Hreg. now apply decode_encode_path with e ch.
  - intros Hid Hn. now apply decode_encode_html with e ch.
Qed.

Lemma decode_encode_witness :
  let doc := icon_doc in
  let el := [0; 0; 2] in
  let e := plain "DIV" in
  let ch := [TextNode (lit "b")] in
  node_at doc el = Some (ElementNode e ch) /\
  el_id e = [] /\ path_regular doc el = true /\
  elementByXPath doc (getXPath doc el) = Some (Some el).
Proof.
  intros doc el e ch.
  assert (node_at doc el = Some (ElementNode e ch)) as H1 by reflexivity.
  assert (el_id e = []) as H2 by reflexivity.
  assert (path_regular doc el = true) as H3 by (vm_compute; reflexivity).
  split; [exact H1|]. split; [exact H2|]. split; [exact H3|].
  destruct (@decode_encode doc el e ch H1) as (_ & Hpath & _).
  exact (Hpath H2 H3).
Defined.

(** The element with the unique [id] decodes to itself as well. *)
Example decode_encode_by_id :
  elementByXPath address_doc (getXPath address_doc [0; 1; 2])
  = Some (Some [0; 1; 2]).
Proof. vm_compute. reflexivity. Qed.

(** An [id] that holds a double quote ends the quoted literal of the lookup
    early; what follows leaves a literal open, and evaluating the expression
    throws instead of resolving to an element. *)
Example quoted_id_is_no_address :
  let e := mkElement (lit "DIV") NS_HTML
                     (Some (lit "k" ++ [dquote] ++ lit "x"))
                     [] [] true [] in
  let doc := [ElementNode (plain "HTML")
                [ElementNode (plain "BODY") [ElementNode e []]]] in
  getXPath doc [0; 0; 0]
  = lit "//*[@id=" ++ [dquote] ++ lit "k" ++ [dquote] ++ lit "x" ++ [dquote]
    ++ lit "]" /\
  querySelectorAll doc [] (has_id (el_id e)) = [[0; 0; 0]] /\
  xpath_malformed (getXPath doc [0; 0; 0]) = true /\
  elementByXPath doc (getXPath doc [0; 0; 0]) = None.
Proof. vm_compute. repeat split; reflexivity. Qed.

(** An element of another namespace passes no name test: the path written
    for the icon finds nothing, while the second [div] beside it is found by
    its own. *)
Example icon_addresses :
  getXPath icon_doc [0; 0; 0] = lit "/html/body/svg" /\
  elementByXPath icon_doc (getXPath icon_doc [0; 0; 0]) = Some None /\
  getXPath icon_doc [0; 0; 2] = lit "/html/body/div[2]" /\
  elementByXPath icon_doc (getXPath icon_doc [0; 0; 2]) = Some (Some [0; 0; 2]).
Proof. vm_compute. repeat split; reflexivity. Qed.

(** C4, as stated, fails.  In this document [/html/body/div] selects two
    elements; the resolver does not report not-found, it returns the first. *)
Lemma ambiguous_address_resolves :
  let doc := duplicate_id_doc in
  let address := lit "/html/body/div" in
  let x := ByPath [(lit "html", None); (lit "body", None); (lit "div", None)] in
  xpath_parse address = Some x /\
  xpath_eval doc x = [[0; 0; 0]; [0; 0; 1]] /\
  elementByXPath doc address = Some (Some [0; 0; 0]) /\
  elementByXPath doc address <> Some None.
Proof.
  cbv zeta. split; [vm_compute; reflexivity|].
  split; [vm_compute; reflexivity|]. split; [vm_compute; reflexivity|].
  vm_compute. discriminate.
Qed.

(** C4, amended.  For every address of the language [getXPath] writes (the
    lookup of an [id], or an absolute path of steps [name] or [name[k]]) and
    every tree: decoding reports not-found exactly when no element of the
    tree answers the address; when one or more do, it returns the first of
    them in document order, without checking that there is only one.  What
    it returns is always an element of the tree.  On an expression left open
    (an odd number of double quotes and no single quote) decoding throws
    instead of reporting not-found. *)
Theorem decode_first_match : forall doc address,
  (xpath_malformed address = true -> elementByXPath doc address = None) /\
  forall x, xpath_parse address = Some x ->
    (elementByXPath doc address = Some None <->
     forall el, selects doc x el = false) /\
    (forall el,
       elementByXPath doc address = Some (Some el) <->
       selects doc x el = true /\
       forall el', selects doc x el' = true -> el' = el \/ path_lt el el') /\
    (forall el, selects doc x el = true ->
       exists e ch, node_at doc el = Some (ElementNode e ch)).
Proof.
  intros doc address. split; [apply malformed_not_evaluated|].
  intros x Hx. unfold elementByXPath. rewrite Hx.
  split; [|split].
  - split.
    + intros H el. destruct (selects doc x el) eqn:E; [|reflexivity].
      apply xpath_eval_selects in E.
      destruct (xpath_eval doc x); [destruct E|discriminate H].
    + intros H. destruct (xpath_eval doc x) as [|el l] eqn:E; [reflexivity|].
      assert (selects doc x el = true) as S
        by (apply xpath_eval_selects; rewrite E; now left).
      rewrite H in S. discriminate S.
  - intros el.
    pose proof (@sorted_head_least _ el (xpath_eval_sorted doc x)) as L.
    split.
    + intros H. assert (hd_error (xpath_eval doc x) = Some el) as H'
        by (destruct (hd_error (xpath_eval doc x)); congruence).
      apply L in H' as [H1 H2]. split; [now apply xpath_eval_selects|].
      intros el' Hel'. apply H2. now apply xpath_eval_selects.
    + intros [H1 H2].
      assert (hd_error (xpath_eval doc x) = Some el) as H'.
      { apply L. split; [now apply xpath_eval_selects|].
        intros el' Hel'. apply H2. now apply xpath_eval_selects. }
      now rewrite H'.
  - intros el H. apply xpath_eval_selects in H.
    now apply xpath_eval_elements with address x.
Qed.

Lemma decode_first_match_witness :
  let doc := address_doc in
  let address := lit "/html/body/div[3]" in
  let x := ByPath [(lit "html", None); (lit "body", None);
                   (lit "div", Some 3)] in
  xpath_parse address = Some x /\
  (elementByXPath doc address = Some None <->
   forall el, selects doc x el = false) /\
  (forall el,
     elementByXPath doc address = Some (Some el) <->
     selects doc x el = true /\
     forall el', selects doc x el' = true -> el' = el \/ path_lt el el') /\
  (forall el, selects doc x el = true ->
     exists e ch, node_at doc el = Some (ElementNode e ch)).
Proof.
  intros doc address x.
  assert (xpath_parse address = Some x) as H by (vm_compute; reflexivity).
  split; [exact H|].
  destruct (decode_first_match doc address) as [_ D]. exact (D x H).
Defined.

(* ================================================================== *)
(** * Further properties of the code *)
(* ================================================================== *)

(** ** The scan of one text node *)

Lemma count_dollar_app : forall a b,
  count_dollar (a ++ b) = count_dollar a + count_dollar b.
Proof. intros a b. unfold count_dollar. apply count_occ_app. Qed.

Lemma count_dollar_cons : forall c u,
  count_dollar (c :: u) = (if Ascii.eqb dollar c then 1 else 0) + count_dollar u.
Proof.
  intros c u. unfold count_dollar. cbn [count_occ].
  destruct (ascii_dec c dollar) as [->|N].
  - now rewrite Ascii.eqb_refl.
  - destruct (Ascii.eqb dollar c) eqn:E; [|reflexivity].
    apply Ascii.eqb_eq in E. now elim N.
Qed.

Lemma count_dollar_at : forall u j L,
  dollar_at u j = true -> j < L -> 1 <= count_dollar (firstn L u).
Proof.
  induction u as [|c u IH]; intros j L H HL.
  - unfold dollar_at in H. destruct j; discriminate H.
  - destruct L as [|L]; [lia|]. cbn [firstn]. rewrite count_dollar_cons.
    destruct j as [|j].
    + rewrite dollar_at_head in H. rewrite H. lia.
    + rewrite dollar_at_cons in H.
      assert (1 <= count_dollar (firstn L u)) by (apply IH with j; [auto|lia]).
      lia.
Qed.

Lemma span_len_dollars : forall u len,
  span_len u = Some len -> 2 <= count_dollar (firstn len u).
Proof.
  intros u len H. apply span_len_bounds in H as (Hl & H0 & H1).
  destruct u as [|c u]; [simpl in Hl; lia|].
  destruct len as [|len]; [lia|]. cbn [firstn]. rewrite count_dollar_cons.
  rewrite dollar_at_head in H0. rewrite H0.
  replace (S len - 1) with (S (len - 1)) in H1 by lia.
  rewrite dollar_at_cons in H1.
  assert (1 <= count_dollar (firstn len u))
    by (apply count_dollar_at with (len - 1); [auto|lia]).
  lia.
Qed.

Lemma count_dollar_skipn : forall u j,
  count_dollar u = count_dollar (firstn j u) + count_dollar (skipn j u).
Proof.
  intros u j. rewrite <- count_dollar_app. now rewrite firstn_skipn.
Qed.

Lemma matches_from_dollars : forall s i l,
  matches_from s i l -> 2 * length l <= count_dollar (skipn i s).
Proof.
  induction 1 as [i E|i st en l E Hb Hl IH].
  - simpl. lia.
  - apply exec_Some in E as (Hi & Hm & _). rewrite match_here_dollar in Hm.
    apply span_len_dollars in Hm.
    rewrite (count_dollar_skipn (skipn i s) (st - i)).
    rewrite skipn_skipn. replace (st - i + i) with st by lia.
    rewrite (count_dollar_skipn (skipn st s) (en - st)).
    rewrite skipn_skipn. replace (en - st + st) with en by lia.
    cbn [length]. lia.
Qed.

Lemma has_dollar_count : forall s, has_dollar s = false -> count_dollar s = 0.
Proof.
  induction s as [|c s IH]; intros H; [reflexivity|].
  unfold has_dollar in H. cbn [existsb] in H.
  apply orb_false_iff in H as [Hc Hs].
  rewrite count_dollar_cons, Hc. simpl. auto.
Qed.

Lemma find_all_no_dollar : forall s, has_dollar s = false -> find_all s = [].
Proof.
  intros s H. pose proof (matches_from_dollars (find_all_matches s)) as B.
  simpl in B. rewrite (has_dollar_count _ H) in B.
  destruct (find_all s); [reflexivity|simpl in B; lia].
Qed.

(** X1.  Every match holds two delimiters of its own: a text node with [n]
    dollar signs yields at most [n / 2] matches. *)
Theorem find_all_dollars : forall s,
  2 * length (find_all s) <= count_dollar s.
Proof.
  intros s. exact (matches_from_dollars (find_all_matches s)).
Qed.

(** X2.  The test [s.indexOf('$') === -1] on a text node skips nothing the
    expression would have matched: with or without it the node contributes
    the matches of the expression, one entry each. *)
Theorem text_node_precheck_skips_nothing : forall doc el ti s,
  scan_text_node doc el ti s = map (push_match doc el ti s) (find_all s).
Proof.
  intros doc el ti s. unfold scan_text_node.
  destruct (has_dollar s) eqn:E; [reflexivity|].
  simpl. now rewrite find_all_no_dollar.
Qed.

Lemma scan_text_nodes_nil : forall doc el tns ti,
  (forall tn s, In (tn, s) tns -> has_dollar s = false) ->
  scan_text_nodes doc el ti tns = [].
Proof.
  intros doc el. induction tns as [|[tn s] tns IH]; intros ti H; [reflexivity|].
  cbn [scan_text_nodes snd]. unfold scan_text_node.
  rewrite (H tn s) by now left. simpl. apply IH.
  intros tn' s' Hin. apply H with tn'. now right.
Qed.

(** X3.  The test on [innerText] decides whether a leaf is scanned at all: a leaf
    whose [innerText] shows no [$] contributes nothing, whatever its text
    nodes hold.  When [innerText] shows a [$] whenever one of the leaf's text
    nodes holds one, the test skips nothing: the leaf contributes the matches
    of its text nodes. *)
Theorem leaf_precheck : forall doc el e ch,
  node_at doc el = Some (ElementNode e ch) ->
  (has_dollar (innerText e) = false -> scan_leaf doc el = []) /\
  ((forall tn s, In (tn, s) (getTextNodes doc el) -> has_dollar s = true ->
      has_dollar (innerText e) = true) ->
   scan_leaf doc el = scan_text_nodes doc el 0 (getTextNodes doc el)).
Proof.
  intros doc el e ch H. unfold scan_leaf. rewrite H. split.
  - intros ->. reflexivity.
  - intros Hin. destruct (has_dollar (innerText e)) eqn:E; simpl.
    + now destruct (getTextNodes doc el).
    + symmetry. apply scan_text_nodes_nil. intros tn s Hs.
      destruct (has_dollar s) eqn:Es; [|reflexivity].
      symmetry. now apply Hin with tn s.
Qed.

Lemma leaf_precheck_witness :
  let doc := document demo in
  let el := [0; 1; 0; 0] in
  let e := mkElement (lit "DIV") NS_HTML None []
             [(lit "data-content-editable-leaf", lit "true");
              (lit "contenteditable", lit "true")] true
             (lit "Energy is $$E=mc^2$$ always.") in
  let ch := [TextNode (lit "Energy is $$E=mc^2$$ always.")] in
  node_at doc el = Some (ElementNode e ch) /\
  (has_dollar (innerText e) = false -> scan_leaf doc el = []) /\
  ((forall tn s, In (tn, s) (getTextNodes doc el) -> has_dollar s = true ->
      has_dollar (innerText e) = true) ->
   scan_leaf doc el = scan_text_nodes doc el 0 (getTextNodes doc el)).
Proof.
  intros doc el e ch.
  assert (node_at doc el = Some (ElementNode e ch)) as H
    by (vm_compute; reflexivity).
  split; [exact H|]. exact (@leaf_precheck doc el e ch H).
Defined.

(** ** What the scanner reports *)

Lemma scan_text_node_map : forall doc el ti s,
  scan_text_node doc el ti s = map (push_match doc el ti s) (find_all s).
Proof.
  intros doc el ti s. unfold scan_text_node.
  destruct (has_dollar s) eqn:E; [reflexivity|].
  simpl. now rewrite find_all_no_dollar.
Qed.

Lemma in_scan_text_nodes : forall doc el tns ti r,
  In r (scan_text_nodes doc el ti tns) <->
  exists k tn s m, nth_error tns k = Some (tn, s) /\ In m (find_all s) /\
                   r = push_match doc el (ti + k) s m.
Proof.
  intros doc el. induction tns as [|[tn s] tns IH]; intros ti r.
  - simpl. split; [intros []|]. intros (k & tn & s & m & H & _).
    destruct k; discriminate H.
  - cbn [scan_text_nodes snd]. rewrite in_app_iff, scan_text_node_map, in_map_iff, IH.
    split.
    + intros [(m & <- & Hm)|(k & tn' & s' & m & Hk & Hm & ->)].
      * exists 0, tn, s, m. rewrite Nat.add_0_r. auto.
      * exists (S k), tn', s', m. rewrite Nat.add_succ_r. auto.
    + intros (k & tn' & s' & m & Hk & Hm & ->). destruct k as [|k].
      * injection Hk as <- <-. left. exists m. rewrite Nat.add_0_r. auto.
      * right. exists k, tn', s', m. rewrite Nat.add_succ_r. auto.
Qed.

Lemma in_scan_leaf : forall doc el r,
  In r (scan_leaf doc el) <->
  exists e ch ti tn s m,
    node_at doc el = Some (ElementNode e ch) /\
    has_dollar (innerText e) = true /\
    nth_error (getTextNodes doc el) ti = Some (tn, s) /\
    In m (find_all s) /\ r = push_match doc el ti s m.
Proof.
  intros doc el r. unfold scan_leaf.
  destruct (node_at doc el) as [[e ch| |]|] eqn:En;
    try (split; [intros []|intros (e' & ch' & _ & _ & _ & _ & H & _);
                             discriminate H]).
  destruct (has_dollar (innerText e)) eqn:E; simpl.
  - assert (In r (scan_text_nodes doc el 0 (getTextNodes doc el)) <->
            In r match getTextNodes doc el with
                 | [] => []
                 | _ :: _ => scan_text_nodes doc el 0 (getTextNodes doc el)
                 end) as Hnil by now destruct (getTextNodes doc el).
    rewrite <- Hnil, in_scan_text_nodes. split.
    + intros (k & tn & s & m & Hk & Hm & ->). exists e, ch, k, tn, s, m. auto.
    + intros (e' & ch' & ti & tn & s & m & _ & _ & Hk & Hm & ->).
      exists ti, tn, s, m. auto.
  - split; [intros []|].
    intros (e' & ch' & _ & _ & _ & _ & H & H' & _).
    injection H as <- <-. congruence.
Qed.

(** X4.  The scanner reports a match exactly when it lies in a text node below a
    visible element with [data-content-editable-leaf="true"], itself below
    the first element of class [notion-page-content], and the [innerText] of
    that leaf shows a [$].  Nothing outside the canvas is reported; nothing
    inside such a leaf is left out. *)
Theorem scanner_reports_exactly : forall p r,
  In r (JS_FIND_MATCHES p) <->
  exists root el e ch ti tn s m,
    querySelector (document p) (has_class NOTION_PAGE_CONTENT) = Some root /\
    In el (querySelectorAll (document p) root editable_leaf) /\
    node_at (document p) el = Some (ElementNode e ch) /\
    offsetParent e = true /\
    has_dollar (innerText e) = true /\
    nth_error (getTextNodes (document p) el) ti = Some (tn, s) /\
    In m (find_all s) /\
    r = push_match (document p) el ti s m.
Proof.
  intros p r. unfold JS_FIND_MATCHES. cbv zeta.
  destruct (querySelector (document p) (has_class NOTION_PAGE_CONTENT))
    as [root|] eqn:Eroot.
  - rewrite in_flat_map. split.
    + intros (el & Hc & Hr). unfold candidates in Hc.
      apply filter_In in Hc as [Hq Hv].
      apply in_scan_leaf in Hr as (e & ch & ti & tn & s & m & He & Hi & Hk & Hm & ->).
      unfold visible in Hv. rewrite He in Hv.
      exists root, el, e, ch, ti, tn, s, m. auto 10.
    + intros (root' & el & e & ch & ti & tn & s & m
              & Hroot & Hq & He & Hv & Hi & Hk & Hm & ->).
      injection Hroot as <-. exists el. split.
      * unfold candidates. apply filter_In. split; [exact Hq|].
        unfold visible. now rewrite He.
      * apply in_scan_leaf. exists e, ch, ti, tn, s, m. auto.
  - split; [intros []|].
    intros (root' & el & e & ch & ti & tn & s & m & Hroot & _). discriminate Hroot.
Qed.

Lemma firstn_add_split : forall (A : Type) n m (l : list A),
  firstn (n + m) l = firstn n l ++ firstn m (skipn n l).
Proof.
  intros A. induction n as [|n IH]; intros m l; [reflexivity|].
  destruct l as [|x l]; [now destruct m|]. simpl. now rewrite IH.
Qed.

Lemma slice_split : forall s a b c,
  a <= b <= c -> slice s a c = slice s a b ++ slice s b c.
Proof.
  intros s a b c H. unfold slice.
  replace (c - a) with ((b - a) + (c - b)) by lia.
  rewrite firstn_add_split, skipn_skipn.
  now replace (b - a + a) with b by lia.
Qed.

Lemma slice_min : forall s a c,
  slice s a (Nat.min (length s) c) = slice s a c.
Proof.
  intros s a c. unfold slice.
  destruct (Nat.le_ge_cases c (length s)) as [H|H].
  - now rewrite Nat.min_r.
  - rewrite Nat.min_l by exact H.
    rewrite !firstn_all2; [reflexivity| |]; rewrite length_skipn; lia.
Qed.

(** X5.  The preview of a reported match is the matched span with the ten
    characters before it and the ten after it, fewer where the text node
    ends: the span is always inside its preview. *)
Theorem preview_shows_match : forall p r,
  In r (JS_FIND_MATCHES p) ->
  exists el tn s,
    nth_error (getTextNodes (document p) el) (nodeIndex r) = Some (tn, s) /\
    preview r = slice s (start r - 10) (start r)
                ++ slice s (start r) (end_ r)
                ++ slice s (end_ r) (end_ r + 10) /\
    length (slice s (start r - 10) (start r)) = Nat.min (start r) 10 /\
    length (slice s (start r) (end_ r)) = end_ r - start r /\
    length (slice s (end_ r) (end_ r + 10)) = Nat.min (length s - end_ r) 10.
Proof.
  intros p r H. rewrite JS_FIND_MATCHES_locate in H.
  apply in_map_iff in H as ([[[el ti] s] [st en]] & <- & H).
  apply in_locate in H as (_ & (tn & Htn) & Hm).
  apply find_all_in in Hm as (Hb & _).
  exists el, tn, s.
  cbn [ref_of push_match xpath nodeIndex start end_ preview fst snd].
  split; [exact Htn|]. split.
  - rewrite Nat.max_0_l, slice_min.
    rewrite (@slice_split s (st - 10) st (en + 10)) by lia.
    now rewrite (@slice_split s st en (en + 10)) by lia.
  - unfold slice. rewrite !length_firstn, !length_skipn. lia.
Qed.

Lemma preview_shows_match_witness :
  let p := demo in
  let r := mkMatchRef first_leaf_address 0 10 20
                      (lit "Energy is $$E=mc^2$$ always.") in
  In r (JS_FIND_MATCHES p) /\
  exists el tn s,
    nth_error (getTextNodes (document p) el) (nodeIndex r) = Some (tn, s) /\
    preview r = slice s (start r - 10) (start r)
                ++ slice s (start r) (end_ r)
                ++ slice s (end_ r) (end_ r + 10) /\
    length (slice s (start r - 10) (start r)) = Nat.min (start r) 10 /\
    length (slice s (start r) (end_ r)) = end_ r - start r /\
    length (slice s (end_ r) (end_ r + 10)) = Nat.min (length s - end_ r) 10.
Proof.
  intros p r.
  assert (In r (JS_FIND_MATCHES p)) as H by (vm_compute; left; reflexivity).
  split; [exact H|]. exact (@preview_shows_match p r H).
Defined.

(** ** Pages without a canvas, and the toggles *)

(** X6.  On a page without an element of class [notion-page-content] the
    expansion script does nothing, the scanner reports nothing, and the pass
    loop ends in its first pass, returning 0 and leaving the page as it
    was. *)
Theorem no_canvas_no_work : forall B beyond click trigger p max_passes,
  querySelector (document p) (has_class NOTION_PAGE_CONTENT) = None ->
  (0 < max_passes)%Z ->
  JS_EXPAND_TOGGLES click p = p /\
  JS_FIND_MATCHES p = [] /\
  run (page_driver B beyond click trigger) p max_passes
  = mkOutcome p 0 1 false /\
  process_all_matches (page_driver B beyond click trigger) p max_passes
  = Some 0.
Proof.
  intros B beyond click trigger p max_passes H Hmax.
  assert (JS_EXPAND_TOGGLES click p = p) as He
    by (unfold JS_EXPAND_TOGGLES; now rewrite H).
  assert (JS_FIND_MATCHES p = []) as Hf
    by (unfold JS_FIND_MATCHES; cbv zeta; now rewrite H).
  split; [exact He|]. split; [exact Hf|].
  assert (run (page_driver B beyond click trigger) p max_passes
          = mkOutcome p 0 1 false) as R.
  { unfold run. destruct (Z.to_nat max_passes) as [|n] eqn:En; [lia|].
    cbn [pass_loop page_driver expand_toggles find_matches].
    now rewrite He, Hf. }
  split; [exact R|]. unfold process_all_matches. now rewrite R.
Qed.

Lemma no_canvas_no_work_witness :
  let p := sign_in_page in
  querySelector (document p) (has_class NOTION_PAGE_CONTENT) = None /\
  (0 < 2000)%Z /\
  JS_EXPAND_TOGGLES no_click p = p /\
  JS_FIND_MATCHES p = [] /\
  run stub_driver p 2000 = mkOutcome p 0 1 false /\
  process_all_matches stub_driver p 2000 = Some 0.
Proof.
  intros p.
  assert (querySelector (document p) (has_class NOTION_PAGE_CONTENT) = None)
    as H by (vm_compute; reflexivity).
  assert (0 < 2000)%Z as Hm by lia.
  split; [exact H|]. split; [exact Hm|].
  exact (@no_canvas_no_work sample_browser no_beyond no_click trigger p 2000
           H Hm).
Defined.

Lemma fold_left_invariant : forall (A B : Type) (f : A -> B -> A)
  (P : A -> Prop) (l : list B) (a : A),
  P a -> (forall x b, P x -> In b l -> P (f x b)) -> P (fold_left f l a).
Proof.
  intros A B f P. induction l as [|b l IH]; intros a Ha Hf; [exact Ha|].
  simpl. apply IH.
  - apply Hf; [exact Ha|now left].
  - intros x b' Hx Hb. apply Hf; [exact Hx|now right].
Qed.

(** X7.  The expansion script clicks nothing but collapsed toggles (elements with
    [role="button"] and [aria-expanded="false"]) strictly below the canvas,
    as they were when the script started: whatever property of the page
    those clicks preserve, the script preserves.  (On the page of the
    example the toggle inside the canvas is clicked and opens, the one
    outside stays as it is.) *)
Theorem expand_toggles_clicks : forall click (Inv : page -> Prop) p,
  Inv p ->
  (forall q b,
     Inv q ->
     (exists root q' e ch,
        querySelector (document p) (has_class NOTION_PAGE_CONTENT) = Some root /\
        q' <> [] /\ b = root ++ q' /\
        node_at (document p) b = Some (ElementNode e ch) /\
        collapsed_toggle e = true) ->
     Inv (click q b)) ->
  Inv (JS_EXPAND_TOGGLES click p).
Proof.
  intros click Inv p Hp Hclick. unfold JS_EXPAND_TOGGLES.
  destruct (querySelector (document p) (has_class NOTION_PAGE_CONTENT))
    as [root|] eqn:E; [|exact Hp].
  apply fold_left_invariant; [exact Hp|].
  intros q b Hq Hb. apply Hclick; [exact Hq|].
  apply in_querySelectorAll in Hb as (q' & e & ch & Hne & -> & Hn & Hs).
  exists root, q', e, ch. auto.
Qed.

Lemma expand_toggles_clicks_witness :
  let p := toggle_page in
  let inside := [0; 0; 1; 0] in
  let Inv := fun q : page => q = p \/ q = open_toggle p inside in
  Inv p /\
  (forall q b,
     Inv q ->
     (exists root q' e ch,
        querySelector (document p) (has_class NOTION_PAGE_CONTENT)
        = Some root /\
        q' <> [] /\ b = root ++ q' /\
        node_at (document p) b = Some (ElementNode e ch) /\
        collapsed_toggle e = true) ->
     Inv (open_toggle q b)) /\
  Inv (JS_EXPAND_TOGGLES open_toggle p) /\
  JS_EXPAND_TOGGLES open_toggle p = open_toggle p inside /\
  JS_EXPAND_TOGGLES open_toggle p <> p /\
  node_at (document (JS_EXPAND_TOGGLES open_toggle p)) [0; 0; 0]
  = node_at (document p) [0; 0; 0].
Proof.
  intros p inside Inv.
  assert (Inv p) as H1 by (left; reflexivity).
  assert (forall q b,
     Inv q ->
     (exists root q' e ch,
        querySelector (document p) (has_class NOTION_PAGE_CONTENT)
        = Some root /\
        q' <> [] /\ b = root ++ q' /\
        node_at (document p) b = Some (ElementNode e ch) /\
        collapsed_toggle e = true) ->
     Inv (open_toggle q b)) as H2.
  { intros q b Hq (root & q' & e & ch & Hroot & Hne & Hb & Hn & Hc).
    assert (In b (querySelectorAll (document p) root collapsed_toggle)) as Hin
      by (apply in_querySelectorAll; exists q', e, ch; auto).
    assert (root = [0; 0; 1]) as -> by (vm_compute in Hroot; congruence).
    assert (b = inside) as ->
      by (vm_compute in Hin; destruct Hin as [Hin|[]]; now symmetry).
    right. destruct Hq as [->| ->]; vm_compute; reflexivity. }
  split; [exact H1|]. split; [exact H2|].
  split; [exact (@expand_toggles_clicks open_toggle Inv p H1 H2)|].
  split; [vm_compute; reflexivity|].
  split; [vm_compute; discriminate|vm_compute; reflexivity].
Defined.

(** ** The selector, on success *)

Lemma editable_step : forall doc fuel q e ch,
  node_at doc q = Some (ElementNode e ch) ->
  closest_editable doc (S fuel) q =
  if editable doc q then Some q else closest_editable doc fuel (parentNode q).
Proof.
  intros doc fuel q e ch H. cbn [closest_editable]. unfold editable, attr_is.
  rewrite H.
  destruct (getAttribute (attributes e) (lit "contenteditable")) as [ce|];
    [|reflexivity].
  now destruct (text_eqb ce (lit "true")).
Qed.

Lemma closest_editable_spec : forall doc n q fuel,
  length q = n -> n < fuel ->
  (q = [] \/ exists e ch, node_at doc q = Some (ElementNode e ch)) ->
  match closest_editable doc fuel q with
  | Some f =>
      exists k, f = firstn k q /\ 1 <= k <= length q /\
                editable doc f = true /\
                forall j, k < j <= length q -> editable doc (firstn j q) = false
  | None => forall j, j <= length q -> editable doc (firstn j q) = false
  end.
Proof.
  intros doc. induction n as [|n IH]; intros q fuel Hl Hf Hq.
  - destruct q; [|discriminate Hl]. destruct fuel as [|fuel]; [lia|].
    simpl. intros j _. now destruct j.
  - destruct (exists_last (l:=q)) as (q' & i & ->);
      [intros ->; discriminate Hl|].
    rewrite length_app in Hl. simpl in Hl.
    destruct Hq as [Hq|(e & ch & He)]; [now destruct q'|].
    destruct fuel as [|fuel]; [lia|].
    rewrite (editable_step _ _ _ He). unfold parentNode. rewrite removelast_last.
    destruct (editable doc (q' ++ [i])) eqn:Ed.
    + exists (length (q' ++ [i])). rewrite firstn_all.
      split; [reflexivity|]. rewrite length_app. simpl.
      split; [lia|]. split; [exact Ed|]. intros j Hj. lia.
    + specialize (IH q' fuel ltac:(lia) ltac:(lia) (parent_is_element _ _ _ He)).
      assert (forall j, j <= length q' -> firstn j (q' ++ [i]) = firstn j q')
        as Hfirst.
      { intros j Hj. rewrite firstn_app.
        replace (j - length q') with 0 by lia. simpl. apply app_nil_r. }
      assert (forall j, length q' < j <= length (q' ++ [i]) ->
                firstn j (q' ++ [i]) = q' ++ [i]) as Hlast.
      { intros j Hj. apply firstn_all2. rewrite length_app in *.
        simpl in *. lia. }
      destruct (closest_editable doc fuel q') as [f|].
      * destruct IH as (k & -> & Hk & Hed & Hno). exists k.
        split; [now rewrite Hfirst by lia|].
        rewrite length_app. simpl. split; [lia|]. split; [exact Hed|].
        intros j Hj. destruct (Nat.le_gt_cases j (length q')) as [Hle|Hgt].
        -- rewrite Hfirst by exact Hle. apply Hno. lia.
        -- rewrite Hlast; [exact Ed|]. rewrite length_app. simpl. lia.
      * intros j Hj. destruct (Nat.le_gt_cases j (length q')) as [Hle|Hgt].
        -- rewrite Hfirst by exact Hle. now apply IH.
        -- rewrite Hlast; [exact Ed|]. lia.
Qed.

Lemma select_ok_inv : forall B p args p',
  JS_SELECT_MATCH B p args = Some (p', SelectOk) ->
  exists x el tn val,
    xpath_parse (arg_xpath args) = Some x /\
    hd_error (xpath_eval (document p) x) = Some el /\
    (0 <= arg_nodeIndex args)%Z /\
    nth_error (getTextNodes (document p) el) (Z.to_nat (arg_nodeIndex args))
    = Some (tn, val) /\
    offsets_valid args val /\
    p' = selected_page B p args el tn.
Proof.
  intros B p args p' H. destruct (select_parses _ _ _ H) as [x Hx].
  pose proof (JS_SELECT_MATCH_cases B p args Hx) as C. rewrite H in C.
  inversion C as [| | |x' el tn val Hx' Hel Hidx Hnth Hoff Heq].
  exists x', el, tn, val. repeat (split; [auto; lia|]). reflexivity.
Qed.

(** X8.  When the selector answers [ok:true], the range it has given to the
    selection lies in the text node that [nodeIndex] names below the first
    element of the address, its offsets are [start] and [end], and they are
    inside that node's value as it is now; before that the element has been
    scrolled into view, after it the nearest editable element is focused
    (the calls of [selected_page]). *)
Theorem select_success_range : forall B p args p',
  JS_SELECT_MATCH B p args = Some (p', SelectOk) ->
  exists el tn val,
    elementByXPath (document p) (arg_xpath args) = Some (Some el) /\
    nth_error (getTextNodes (document p) el) (Z.to_nat (arg_nodeIndex args))
    = Some (tn, val) /\
    node_at (document p) tn = Some (TextNode val) /\
    (0 <= arg_nodeIndex args)%Z /\
    (0 <= arg_start args < arg_end args)%Z /\
    (arg_end args <= Z.of_nat (length val))%Z /\
    Z.to_nat (arg_start args) < Z.to_nat (arg_end args) <= length val /\
    p' = selected_page B p args el tn.
Proof.
  intros B p args p' H.
  apply select_ok_inv in H as (x & el & tn & val & Hx & Hel & Hi & Hn & Hoff & ->).
  exists el, tn, val.
  split; [unfold elementByXPath; now rewrite Hx, Hel|].
  split; [exact Hn|]. split.
  { apply nth_error_In in Hn.
    apply in_getTextNodes in Hn as (_ & _ & _ & Hn). exact Hn. }
  unfold offsets_valid in Hoff. split; [exact Hi|]. split; [lia|].
  split; [lia|]. split; [lia|reflexivity].
Qed.

Lemma select_success_range_witness :
  let B := sample_browser in
  let p := demo in
  let args := mkSelectArgs first_leaf_address 0 10 20 in
  let p' := selected_page B p args [0; 1; 0; 0] [0; 1; 0; 0; 0] in
  JS_SELECT_MATCH B p args = Some (p', SelectOk) /\
  exists el tn val,
    elementByXPath (document p) (arg_xpath args) = Some (Some el) /\
    nth_error (getTextNodes (document p) el) (Z.to_nat (arg_nodeIndex args))
    = Some (tn, val) /\
    node_at (document p) tn = Some (TextNode val) /\
    (0 <= arg_nodeIndex args)%Z /\
    (0 <= arg_start args < arg_end args)%Z /\
    (arg_end args <= Z.of_nat (length val))%Z /\
    Z.to_nat (arg_start args) < Z.to_nat (arg_end args) <= length val /\
    p' = selected_page B p args el tn.
Proof.
  intros B p args p'.
  assert (JS_SELECT_MATCH B p args = Some (p', SelectOk)) as H
    by (vm_compute; reflexivity).
  split; [exact H|]. exact (@select_success_range B p args p' H).
Defined.

(** X9.  When the selector answers [ok:true], the one call of [focus] it has
    made, after the range was given to the selection, is on the nearest
    element with [contenteditable="true"] among the addressed element and its
    ancestors; when none of them has it, [focus] is not called at all. *)
Theorem select_focus_target : forall B p args p',
  JS_SELECT_MATCH B p args = Some (p', SelectOk) ->
  exists el tn,
    elementByXPath (document p) (arg_xpath args) = Some (Some el) /\
    let p2 := addRange B (scrollIntoView p el)
                (mkRange tn (Z.to_nat (arg_start args))
                         (Z.to_nat (arg_end args))) in
    ((exists k, 1 <= k <= length el /\
                p' = focus B p2 (firstn k el) /\
                editable (document p) (firstn k el) = true /\
                forall j, k < j <= length el ->
                          editable (document p) (firstn j el) = false) \/
     (p' = p2 /\
      forall j, j <= length el -> editable (document p) (firstn j el) = false)).
Proof.
  intros B p args p' H.
  apply select_ok_inv in H as (x & el & tn & val & Hx & Hel & Hi & Hn & Hoff & ->).
  exists el, tn. split; [unfold elementByXPath; now rewrite Hx, Hel|].
  assert (exists e ch, node_at (document p) el = Some (ElementNode e ch)) as He.
  { apply xpath_eval_elements with (arg_xpath args) x; [exact Hx|].
    now apply hd_error_In. }
  pose proof (@closest_editable_spec (document p) (length el) el
                (S (length el)) eq_refl ltac:(lia) (or_intror He)) as Hc.
  cbv zeta. unfold selected_page.
  destruct (closest_editable (document p) (S (length el)) el) as [f|].
  - destruct Hc as (k & -> & Hk & Hed & Hno). left. exists k. auto.
  - right. split; [reflexivity|exact Hc].
Qed.

Lemma select_focus_target_witness :
  let B := sample_browser in
  let p := demo in
  let args := mkSelectArgs first_leaf_address 0 10 20 in
  let p' := selected_page B p args [0; 1; 0; 0] [0; 1; 0; 0; 0] in
  JS_SELECT_MATCH B p args = Some (p', SelectOk) /\
  exists el tn,
    elementByXPath (document p) (arg_xpath args) = Some (Some el) /\
    let p2 := addRange B (scrollIntoView p el)
                (mkRange tn (Z.to_nat (arg_start args))
                         (Z.to_nat (arg_end args))) in
    ((exists k, 1 <= k <= length el /\
                p' = focus B p2 (firstn k el) /\
                editable (document p) (firstn k el) = true /\
                forall j, k < j <= length el ->
                          editable (document p) (firstn j el) = false) \/
     (p' = p2 /\
      forall j, j <= length el -> editable (document p) (firstn j el) = false)).
Proof.
  intros B p args p'.
  assert (JS_SELECT_MATCH B p args = Some (p', SelectOk)) as H
    by (vm_compute; reflexivity).
  split; [exact H|]. exact (@select_focus_target B p args p' H).
Defined.

(** ** From the scanner to the selector *)

Lemma selected_page_document : forall B p args el tn,
  document (selected_page B p args el tn) = document p.
Proof.
  intros B p args el tn. unfold selected_page.
  destruct (closest_editable _ _ _).
  - now rewrite focus_document, addRange_document.
  - now rewrite addRange_document.
Qed.

Lemma select_ok_document : forall B p args p',
  JS_SELECT_MATCH B p args = Some (p', SelectOk) -> document p' = document p.
Proof.
  intros B p args p' H.
  apply select_ok_inv in H as (x & el & tn & val & _ & _ & _ & _ & _ & ->).
  apply selected_page_document.
Qed.

(** What the session gives where the script answers. *)
Lemma page_driver_select : forall B beyond click trigger p a p' r,
  JS_SELECT_MATCH B p a = Some (p', r) ->
  select_match (page_driver B beyond click trigger) p a
  = (p', Returned (Some r)).
Proof.
  intros B beyond click trigger p a p' r H. unfold JS_SELECT_MATCH in H.
  cbn [select_match page_driver].
  destruct (elementByXPath (document p) (arg_xpath a)) as [res|];
    [|discriminate H].
  destruct (select_at B p a res) as [q [r'|]]; [|discriminate H].
  injection H as <- <-. reflexivity.
Qed.

Lemma ids_quote_free_at : forall doc el e ch,
  ids_quote_free doc = true -> node_at doc el = Some (ElementNode e ch) ->
  forallb not_dquote (el_id e) = true.
Proof.
  intros doc el e ch H Hn. unfold ids_quote_free in H.
  rewrite forallb_forall in H. apply in_forest_node_at in Hn.
  exact (H _ Hn).
Qed.

Lemma paths_eqb_eq : forall a b, paths_eqb a b = true -> a = b.
Proof.
  intros a b H. unfold paths_eqb in H.
  now destruct (list_eq_dec (list_eq_dec Nat.eq_dec) a b).
Qed.

Lemma ids_unique_at : forall doc el e ch,
  ids_unique doc = true -> node_at doc el = Some (ElementNode e ch) ->
  el_id e <> [] ->
  querySelectorAll doc [] (has_id (el_id e)) = [el].
Proof.
  intros doc el e ch H Hn Hid. unfold ids_unique in H.
  rewrite forallb_forall in H. apply in_forest_node_at in Hn.
  specialize (H _ Hn). cbn [snd fst] in H.
  destruct (el_id e) eqn:E; [now elim Hid|]. now apply paths_eqb_eq.
Qed.

Lemma address_parses : forall doc el e ch,
  html_names doc = true -> ids_quote_free doc = true ->
  node_at doc el = Some (ElementNode e ch) ->
  exists x, xpath_parse (getXPath doc el) = Some x.
Proof.
  intros doc el e ch Hn Hq He. destruct (el_id e) eqn:E.
  - pose proof (@decode_encode_html doc el e ch Hn He E) as D.
    unfold elementByXPath in D.
    destruct (xpath_parse (getXPath doc el)) as [x|]; [eauto|discriminate D].
  - rewrite (@getXPath_id doc el e ch He) by (rewrite E; discriminate).
    exists (ById (el_id e)). apply xpath_parse_id.
    exact (@ids_quote_free_at doc el e ch Hq He).
Qed.

Lemma address_decodes : forall doc el e ch,
  html_names doc = true -> ids_quote_free doc = true -> ids_unique doc = true ->
  node_at doc el = Some (ElementNode e ch) ->
  elementByXPath doc (getXPath doc el) = Some (Some el).
Proof.
  intros doc el e ch Hn Hq Hu He. destruct (el_id e) eqn:E.
  - exact (@decode_encode_html doc el e ch Hn He E).
  - assert (el_id e <> []) as Hid by (rewrite E; discriminate).
    apply decode_encode_id with e ch; auto.
    + exact (@ids_quote_free_at doc el e ch Hq He).
    + exact (@ids_unique_at doc el e ch Hu He Hid).
Qed.

Lemma in_JS_FIND_MATCHES : forall p r,
  In r (JS_FIND_MATCHES p) ->
  exists el e ch ti tn s st en,
    r = push_match (document p) el ti s (st, en) /\
    node_at (document p) el = Some (ElementNode e ch) /\
    nth_error (getTextNodes (document p) el) ti = Some (tn, s) /\
    st + 3 <= en <= length s /\
    span_len (skipn st s) = Some (en - st).
Proof.
  intros p r H. rewrite JS_FIND_MATCHES_locate in H.
  apply in_map_iff in H as ([[[el ti] s] [st en]] & <- & H).
  apply in_locate in H as ((e & ch & He & _) & (tn & Htn) & Hm).
  apply find_all_in in Hm as (Hb & Hs).
  exists el, e, ch, ti, tn, s, st, en. auto.
Qed.

Lemma scanned_match_selects : forall B p r,
  html_names (document p) = true ->
  ids_quote_free (document p) = true ->
  ids_unique (document p) = true ->
  In r (JS_FIND_MATCHES p) ->
  exists el tn s,
    xpath r = getXPath (document p) el /\
    elementByXPath (document p) (xpath r) = Some (Some el) /\
    nth_error (getTextNodes (document p) el) (nodeIndex r) = Some (tn, s) /\
    node_at (document p) tn = Some (TextNode s) /\
    JS_SELECT_MATCH B p (args_of r)
    = Some (selected_page B p (args_of r) el tn, SelectOk) /\
    match_here DOLLAR_RE (skipn (start r) s) = Some (end_ r - start r).
Proof.
  intros B p r Hn Hq Hu H.
  apply in_JS_FIND_MATCHES in H
    as (el & e & ch & ti & tn & s & st & en & -> & He & Htn & Hb & Hs).
  pose proof (@address_decodes (document p) el e ch Hn Hq Hu He) as D.
  set (args := args_of (push_match (document p) el ti s (st, en))).
  assert (arg_xpath args = getXPath (document p) el) as Ax by reflexivity.
  assert (arg_nodeIndex args = Z.of_nat ti) as Ai by reflexivity.
  assert (arg_start args = Z.of_nat st) as As by reflexivity.
  assert (arg_end args = Z.of_nat en) as Ae by reflexivity.
  exists el, tn, s.
  cbn [push_match xpath nodeIndex start end_ fst snd].
  split; [reflexivity|]. split; [exact D|]. split; [exact Htn|].
  split.
  { apply nth_error_In in Htn.
    apply in_getTextNodes in Htn as (_ & _ & _ & Htn). exact Htn. }
  split; [|now rewrite match_here_dollar].
  unfold elementByXPath in D. rewrite <- Ax in D.
  destruct (xpath_parse (arg_xpath args)) as [x|] eqn:Hx; [|discriminate D].
  injection D as D.
  assert (ti < length (getTextNodes (document p) el)) as Hti
    by (apply nth_error_Some; rewrite Htn; discriminate).
  pose proof (JS_SELECT_MATCH_cases B p args Hx) as C.
  inversion C as [x' Hx' Hel Heq | x' el' Hx' Hel Hidx Heq
                 | x' el' tn' val Hx' Hel Hidx Hnth Hoff Heq
                 | x' el' tn' val Hx' Hel Hidx Hnth Hoff Heq];
    rewrite Hx in Hx'; injection Hx' as <-; rewrite D in Hel;
    try discriminate Hel; injection Hel as <-.
  - exfalso. lia.
  - exfalso. rewrite Ai, Nat2Z.id, Htn in Hnth. injection Hnth as <- <-.
    apply Hoff. unfold offsets_valid. lia.
  - rewrite Ai, Nat2Z.id, Htn in Hnth. injection Hnth as <- <-.
    reflexivity.
Qed.

(** X10.  On a page of HTML elements whose [id]s are unique and free of double
    quotes, every MatchRef of a scan can be selected on that page: the
    address resolves to the leaf it was written for, the selector answers
    [ok:true] and leaves the tree as it is, and the range it gives to the
    selection is the reported span of the text node that [nodeIndex] names
    in that leaf, which is the match of the expression at [start]. *)
Theorem scan_then_select : forall B p r,
  html_names (document p) = true ->
  ids_quote_free (document p) = true ->
  ids_unique (document p) = true ->
  In r (JS_FIND_MATCHES p) ->
  exists p' el tn s,
    JS_SELECT_MATCH B p (args_of r) = Some (p', SelectOk) /\
    document p' = document p /\
    xpath r = getXPath (document p) el /\
    elementByXPath (document p) (xpath r) = Some (Some el) /\
    nth_error (getTextNodes (document p) el) (nodeIndex r) = Some (tn, s) /\
    node_at (document p) tn = Some (TextNode s) /\
    (let p2 := addRange B (scrollIntoView p el)
                 (mkRange tn (start r) (end_ r)) in
     p' = match closest_editable (document p) (S (length el)) el with
          | Some focusEl => focus B p2 focusEl
          | None => p2
          end) /\
    match_here DOLLAR_RE (skipn (start r) s) = Some (end_ r - start r) /\
    find_all (slice s (start r) (end_ r)) = [(0, end_ r - start r)].
Proof.
  intros B p r Hn Hq Hu H.
  destruct (scanned_match_selects B _ _ Hn Hq Hu H)
    as (el & tn & s & Hx & Hel & Htn & Hnode & Sel & Hm).
  exists (selected_page B p (args_of r) el tn), el, tn, s.
  split; [exact Sel|].
  split; [apply selected_page_document|].
  split; [exact Hx|]. split; [exact Hel|]. split; [exact Htn|].
  split; [exact Hnode|]. split.
  { cbv zeta. unfold selected_page, args_of.
    cbn [arg_start arg_end]. now rewrite !Nat2Z.id. }
  split; [exact Hm|].
  rewrite match_here_dollar in Hm. unfold slice. now apply find_all_span.
Qed.

Lemma scan_then_select_witness :
  let B := sample_browser in
  let p := demo in
  let r := mkMatchRef first_leaf_address 0 10 20
                      (lit "Energy is $$E=mc^2$$ always.") in
  html_names (document p) = true /\
  ids_quote_free (document p) = true /\
  ids_unique (document p) = true /\
  In r (JS_FIND_MATCHES p) /\
  exists p' el tn s,
    JS_SELECT_MATCH B p (args_of r) = Some (p', SelectOk) /\
    document p' = document p /\
    xpath r = getXPath (document p) el /\
    elementByXPath (document p) (xpath r) = Some (Some el) /\
    nth_error (getTextNodes (document p) el) (nodeIndex r) = Some (tn, s) /\
    node_at (document p) tn = Some (TextNode s) /\
    (let p2 := addRange B (scrollIntoView p el)
                 (mkRange tn (start r) (end_ r)) in
     p' = match closest_editable (document p) (S (length el)) el with
          | Some focusEl => focus B p2 focusEl
          | None => p2
          end) /\
    match_here DOLLAR_RE (skipn (start r) s) = Some (end_ r - start r) /\
    find_all (slice s (start r) (end_ r)) = [(0, end_ r - start r)].
Proof.
  intros B p r.
  assert (html_names (document p) = true) as H1 by (vm_compute; reflexivity).
  assert (ids_quote_free (document p) = true) as H2
    by (vm_compute; reflexivity).
  assert (ids_unique (document p) = true) as H3 by (vm_compute; reflexivity).
  assert (In r (JS_FIND_MATCHES p)) as H4 by (vm_compute; left; reflexivity).
  split; [exact H1|]. split; [exact H2|]. split; [exact H3|].
  split; [exact H4|]. exact (@scan_then_select B p r H1 H2 H3 H4).
Defined.

(** X11.  A MatchRef of a scan stays usable when the page has changed since: on a
    page of HTML elements whose [id]s hold no double quote, the address
    written by the scanner is an expression the selector can evaluate on any
    later page; the selector answers (with [ok:true] or one of its three
    errors) and leaves that page's tree as it is. *)
Theorem scanned_address_evaluates : forall B p r later,
  html_names (document p) = true ->
  ids_quote_free (document p) = true ->
  In r (JS_FIND_MATCHES p) ->
  exists p' res,
    JS_SELECT_MATCH B later (args_of r) = Some (p', res) /\
    document p' = document later /\
    (res = SelectOk \/ res = SelectError NOT_FOUND \/
     res = SelectError INDEX_OUT_OF_RANGE \/ res = SelectError INVALID_OFFSETS).
Proof.
  intros B p r later Hn Hq H.
  apply in_JS_FIND_MATCHES in H
    as (el & e & ch & ti & tn & s & st & en & -> & He & Htn & Hb & Hs).
  destruct (@address_parses (document p) el e ch Hn Hq He) as [x Hx].
  set (args := args_of (push_match (document p) el ti s (st, en))).
  assert (xpath_parse (arg_xpath args) = Some x) as Hx' by exact Hx.
  pose proof (JS_SELECT_MATCH_cases B later args Hx') as C.
  inversion C; eexists; eexists; (split; [reflexivity|]); (split; [|auto]);
    try reflexivity.
  apply selected_page_document.
Qed.

Lemma scanned_address_evaluates_witness :
  let B := sample_browser in
  let p := demo in
  let r := mkMatchRef first_leaf_address 0 10 20
                      (lit "Energy is $$E=mc^2$$ always.") in
  let later := two_node_leaf in
  html_names (document p) = true /\
  ids_quote_free (document p) = true /\
  In r (JS_FIND_MATCHES p) /\
  exists p' res,
    JS_SELECT_MATCH B later (args_of r) = Some (p', res) /\
    document p' = document later /\
    (res = SelectOk \/ res = SelectError NOT_FOUND \/
     res = SelectError INDEX_OUT_OF_RANGE \/ res = SelectError INVALID_OFFSETS).
Proof.
  intros B p r later.
  assert (html_names (document p) = true) as H1 by (vm_compute; reflexivity).
  assert (ids_quote_free (document p) = true) as H2
    by (vm_compute; reflexivity).
  assert (In r (JS_FIND_MATCHES p)) as H3 by (vm_compute; left; reflexivity).
  split; [exact H1|]. split; [exact H2|]. split; [exact H3|].
  exact (@scanned_address_evaluates B p r later H1 H2 H3).
Defined.

(** X12.  On a page of HTML elements whose [id]s are unique and free of double
    quotes, two different elements never get the same address. *)
Theorem addresses_distinct : forall doc a b ea cha eb chb,
  html_names doc = true ->
  ids_quote_free doc = true ->
  ids_unique doc = true ->
  node_at doc a = Some (ElementNode ea cha) ->
  node_at doc b = Some (ElementNode eb chb) ->
  a <> b ->
  getXPath doc a <> getXPath doc b.
Proof.
  intros doc a b ea cha eb chb Hn Hq Hu Ha Hb Hab E.
  pose proof (@address_decodes doc a ea cha Hn Hq Hu Ha) as Da.
  pose proof (@address_decodes doc b eb chb Hn Hq Hu Hb) as Db.
  rewrite E, Db in Da. injection Da as Da. now elim Hab.
Qed.

Lemma addresses_distinct_witness :
  let doc := address_doc in
  let a := [0; 1; 0] in
  let b := [0; 1; 2] in
  html_names doc = true /\
  ids_quote_free doc = true /\
  ids_unique doc = true /\
  node_at doc a = Some (ElementNode (plain "DIV") [TextNode (lit "a")]) /\
  node_at doc b = Some (ElementNode (with_id "DIV" "k") [TextNode (lit "b")]) /\
  a <> b /\
  getXPath doc a <> getXPath doc b.
Proof.
  intros doc a b.
  assert (html_names doc = true) as H1 by (vm_compute; reflexivity).
  assert (ids_quote_free doc = true) as H2 by (vm_compute; reflexivity).
  assert (ids_unique doc = true) as H3 by (vm_compute; reflexivity).
  assert (node_at doc a = Some (ElementNode (plain "DIV") [TextNode (lit "a")]))
    as H4 by reflexivity.
  assert (node_at doc b
          = Some (ElementNode (with_id "DIV" "k") [TextNode (lit "b")]))
    as H5 by reflexivity.
  assert (a <> b) as H6 by discriminate.
  split; [exact H1|]. split; [exact H2|]. split; [exact H3|].
  split; [exact H4|]. split; [exact H5|]. split; [exact H6|].
  exact (@addresses_distinct doc a b _ _ _ _ H1 H2 H3 H4 H5 H6).
Defined.

(** ** The calls of a run *)

Lemma pass_loop_logged : forall (W : Type) (d : driver W) n w log pr ps,
  let o := pass_loop (logged d) n (w, log) pr ps in
  let o' := pass_loop d n w pr ps in
  fst (final o) = final o' /\ processed o = processed o' /\
  passes o = passes o' /\ raised o = raised o' /\
  exists tr, snd (final o) = rev tr ++ log /\ well_paced tr /\
             processed o = pr + length (filter is_trigger tr) /\
             passes o = ps + length (filter is_expand tr) /\
             raised o = existsb is_raise tr.
Proof.
  intros W d. induction n as [|n IH]; intros w log pr ps; cbv zeta.
  - cbn [pass_loop final processed passes raised fst snd].
    repeat (split; [reflexivity|]). exists []. simpl.
    split; [reflexivity|]. split; [constructor|]. repeat split; lia.
  - cbn [pass_loop logged expand_toggles find_matches select_match
         send_shortcut_and_enter fst snd].
    destruct (find_matches d (expand_toggles d w)) as [w2 [|m ms]].
    + cbn [final processed passes raised fst snd].
      repeat (split; [reflexivity|]). exists [EvExpand; EvFind []]. simpl.
      split; [reflexivity|]. split; [constructor|]. repeat split; lia.
    + cbn [fst snd]. destruct (select_match d w2 (args_of m)) as [w3 r].
      destruct r as [r|].
      * destruct (is_ok (Returned r)) eqn:Eok; cbn [fst snd].
        -- specialize (IH (send_shortcut_and_enter d w3)
                         (EvTrigger :: EvSelect (args_of m) true
                            :: EvFind (m :: ms) :: EvExpand :: log)
                         (S pr) (S ps)).
           cbv zeta in IH.
           destruct IH as (H1 & H2 & H3 & H4 & tr & Ht & Hp & Hc1 & Hc2 & Hc3).
           repeat (split; [assumption|]).
           exists (EvExpand :: EvFind (m :: ms) :: EvSelect (args_of m) true
                     :: EvTrigger :: tr).
           split; [rewrite Ht; simpl; now rewrite <- !app_assoc|].
           split; [now constructor|]. simpl. repeat split; [lia|lia|exact Hc3].
        -- specialize (IH w3 (EvSelect (args_of m) false
                                :: EvFind (m :: ms) :: EvExpand :: log)
                          pr (S ps)).
           cbv zeta in IH.
           destruct IH as (H1 & H2 & H3 & H4 & tr & Ht & Hp & Hc1 & Hc2 & Hc3).
           repeat (split; [assumption|]).
           exists (EvExpand :: EvFind (m :: ms) :: EvSelect (args_of m) false
                     :: tr).
           split; [rewrite Ht; simpl; now rewrite <- !app_assoc|].
           split; [now constructor|]. simpl. repeat split; [lia|lia|exact Hc3].
      * cbn [final processed passes raised fst snd].
        repeat (split; [reflexivity|]).
        exists [EvExpand; EvFind (m :: ms); EvRaise (args_of m)]. simpl.
        split; [reflexivity|]. split; [constructor|]. repeat split; lia.
Qed.

(** X13.  The calls [process_all_matches] makes, in the order it makes them, are
    passes of: expand the toggles, scan, select the first match of that scan
    and, only when that selection succeeded, trigger the conversion; a pass
    whose scan is empty is the last, and so is one whose selection raises.
    The count is the number of triggers; it is the value returned unless a
    selection raised, in which case nothing is returned.  Keeping the record
    changes nothing of the run. *)
Theorem run_protocol : forall (W : Type) (d : driver W) w max_passes,
  let o := run (logged d) (w, []) max_passes in
  fst (final o) = final (run d w max_passes) /\
  exists tr,
    snd (final o) = rev tr /\ well_paced tr /\
    processed (run d w max_passes) = length (filter is_trigger tr) /\
    passes (run d w max_passes) = length (filter is_expand tr) /\
    process_all_matches d w max_passes
    = if existsb is_raise tr then None
      else Some (length (filter is_trigger tr)).
Proof.
  intros W d w max_passes. cbv zeta. unfold process_all_matches, run.
  pose proof (pass_loop_logged d (Z.to_nat max_passes) w [] 0 0) as L.
  cbv zeta in L.
  destruct L as (H1 & H2 & H3 & H4 & tr & Ht & Hp & Hc1 & Hc2 & Hc3).
  split; [exact H1|]. exists tr. rewrite app_nil_r in Ht.
  split; [exact Ht|]. split; [exact Hp|]. split; [lia|]. split; [lia|].
  rewrite <- H4, Hc3. destruct (existsb is_raise tr); [reflexivity|].
  f_equal. lia.
Qed.

(** ** A first match that cannot be selected *)

Lemma JS_FIND_MATCHES_document : forall p q,
  document q = document p -> JS_FIND_MATCHES q = JS_FIND_MATCHES p.
Proof. intros p q H. unfold JS_FIND_MATCHES. now rewrite H. Qed.

Lemma select_again : forall B p w a p1 r,
  document w = document p ->
  JS_SELECT_MATCH B p a = Some (p1, r) ->
  exists w1, JS_SELECT_MATCH B w a = Some (w1, r) /\
             document w1 = document p /\ document p1 = document p.
Proof.
  intros B p w a p1 r Hd H. unfold JS_SELECT_MATCH in *. rewrite Hd.
  destruct (elementByXPath (document p) (arg_xpath a)) as [res|];
    [|discriminate H].
  pose proof (@select_at_answer B p w a res Hd) as A.
  pose proof (select_at_document B w a res) as Dw.
  pose proof (select_at_document B p a res) as Dp.
  destruct (select_at B p a res) as [q [r'|]]; [|discriminate H].
  injection H as <- <-.
  destruct (select_at B w a res) as [q2 r2]. cbn [fst snd] in *. subst r2.
  exists q2. split; [reflexivity|]. split; [congruence|exact Dp].
Qed.

Lemma expand_document : forall click p,
  (forall q b, document (click q b) = document q) ->
  document (JS_EXPAND_TOGGLES click p) = document p.
Proof.
  intros click p Hc. unfold JS_EXPAND_TOGGLES.
  destruct (querySelector (document p) (has_class NOTION_PAGE_CONTENT));
    [|reflexivity].
  apply fold_left_invariant with (P := fun q => document q = document p);
    [reflexivity|]. intros q b Hq _. now rewrite Hc.
Qed.

Lemma pass_loop_starved : forall B beyond click trigger p m ms p1 e,
  (forall q b, document (click q b) = document q) ->
  JS_FIND_MATCHES p = m :: ms ->
  JS_SELECT_MATCH B p (args_of m) = Some (p1, SelectError e) ->
  forall n w pr ps,
    document w = document p ->
    let o := pass_loop (page_driver B beyond click trigger) n w pr ps in
    processed o = pr /\ passes o = ps + n /\ raised o = false /\
    document (final o) = document p.
Proof.
  intros B beyond click trigger p m ms p1 e Hc Hf Hs.
  induction n as [|n IH]; intros w pr ps Hw; cbv zeta.
  - cbn [pass_loop processed passes final raised]. auto.
  - cbn [pass_loop].
    change (expand_toggles (page_driver B beyond click trigger) w)
      with (JS_EXPAND_TOGGLES click w).
    change (find_matches (page_driver B beyond click trigger)
              (JS_EXPAND_TOGGLES click w))
      with (JS_EXPAND_TOGGLES click w, JS_FIND_MATCHES (JS_EXPAND_TOGGLES click w)).
    pose proof (expand_document click w Hc) as He. rewrite Hw in He.
    rewrite (@JS_FIND_MATCHES_document p _ He), Hf.
    destruct (@select_again B p _ (args_of m) p1 (SelectError e) He Hs)
      as (w' & Sel & Hw' & _).
    rewrite (@page_driver_select B beyond click trigger _ _ _ _ Sel). cbn [is_ok].
    specialize (IH w' pr (S ps) Hw'). cbv zeta in IH.
    destruct IH as (I1 & I2 & I3 & I4).
    split; [exact I1|]. split; [lia|]. split; [exact I3|exact I4].
Qed.

(** X14.  The loop always selects the first match of the scan.  When the selector
    rejects that match and the clicks of the expansion leave the tree as it
    is, nothing changes between passes: the same match is tried again in
    every pass, no later match is ever reached, and the loop uses all of
    [max_passes] passes and returns 0. *)
Theorem rejected_first_match_starves :
  forall B beyond click trigger p m ms p1 e max_passes,
  (forall q b, document (click q b) = document q) ->
  JS_FIND_MATCHES p = m :: ms ->
  JS_SELECT_MATCH B p (args_of m) = Some (p1, SelectError e) ->
  (0 <= max_passes)%Z ->
  process_all_matches (page_driver B beyond click trigger) p max_passes
  = Some 0 /\
  Z.of_nat (passes (run (page_driver B beyond click trigger) p max_passes))
  = max_passes /\
  document (final (run (page_driver B beyond click trigger) p max_passes))
  = document p.
Proof.
  intros B beyond click trigger p m ms p1 e max_passes Hc Hf Hs Hmax.
  unfold process_all_matches, run.
  pose proof (@pass_loop_starved B beyond click trigger p m ms p1 e Hc Hf Hs
                (Z.to_nat max_passes) p 0 0 eq_refl) as L.
  cbv zeta in L. destruct L as (L1 & L2 & L3 & L4).
  rewrite L3, L1. split; [reflexivity|]. split; [lia|exact L4].
Qed.

Lemma rejected_first_match_starves_witness :
  let p := shadowed_leaf in
  let m := hd (mkMatchRef [] 0 0 0 []) (JS_FIND_MATCHES p) in
  let ms := tl (JS_FIND_MATCHES p) in
  let p1 := scrollIntoView p [0; 0; 0] in
  (forall q b, document (no_click q b) = document q) /\
  JS_FIND_MATCHES p = m :: ms /\
  length ms = 1 /\
  JS_SELECT_MATCH sample_browser p (args_of m)
  = Some (p1, SelectError INDEX_OUT_OF_RANGE) /\
  (0 <= 50)%Z /\
  process_all_matches stub_driver p 50 = Some 0 /\
  Z.of_nat (passes (run stub_driver p 50)) = 50%Z /\
  document (final (run stub_driver p 50)) = document p.
Proof.
  intros p m ms p1.
  assert (forall q b, document (no_click q b) = document q) as H1
    by (intros q b; reflexivity).
  assert (JS_FIND_MATCHES p = m :: ms) as H2 by (vm_compute; reflexivity).
  assert (JS_SELECT_MATCH sample_browser p (args_of m)
          = Some (p1, SelectError INDEX_OUT_OF_RANGE)) as H3
    by (vm_compute; reflexivity).
  assert (0 <= 50)%Z as H4 by lia.
  split; [exact H1|]. split; [exact H2|].
  split; [vm_compute; reflexivity|]. split; [exact H3|]. split; [exact H4|].
  exact (@rejected_first_match_starves sample_browser no_beyond no_click
           trigger p m ms p1 INDEX_OUT_OF_RANGE 50 H1 H2 H3 H4).
Defined.

Lemma pass_loop_early : forall B beyond click trigger n w pr ps,
  let o := pass_loop (page_driver B beyond click trigger) n w pr ps in
  raised o = false -> passes o < ps + n -> JS_FIND_MATCHES (final o) = [].
Proof.
  intros B beyond click trigger. induction n as [|n IH]; intros w pr ps;
    cbv zeta.
  - cbn [pass_loop passes]. lia.
  - cbn [pass_loop].
    change (expand_toggles (page_driver B beyond click trigger) w)
      with (JS_EXPAND_TOGGLES click w).
    change (find_matches (page_driver B beyond click trigger)
              (JS_EXPAND_TOGGLES click w))
      with (JS_EXPAND_TOGGLES click w, JS_FIND_MATCHES (JS_EXPAND_TOGGLES click w)).
    destruct (JS_FIND_MATCHES (JS_EXPAND_TOGGLES click w)) as [|m ms] eqn:E.
    + intros _ _. exact E.
    + destruct (select_match (page_driver B beyond click trigger)
                  (JS_EXPAND_TOGGLES click w) (args_of m)) as [w3 [r|]].
      * destruct (is_ok (Returned r)); intros Hr H; apply IH; [exact Hr|lia|exact Hr|lia].
      * cbn [raised]. discriminate.
Qed.

(** X15.  When the call returns (no selection has raised) and the loop has
    stopped before it had used [max_passes] passes, it stopped on an empty
    scan: the scanner finds no match on the page the loop leaves.  A call
    that ends by the exception of a selection leaves the match it was
    selecting unconverted. *)
Theorem early_stop_leaves_no_match :
  forall B beyond click trigger p max_passes n,
  process_all_matches (page_driver B beyond click trigger) p max_passes
  = Some n ->
  (Z.of_nat (passes (run (page_driver B beyond click trigger) p max_passes))
   < max_passes)%Z ->
  JS_FIND_MATCHES (final (run (page_driver B beyond click trigger) p max_passes))
  = [].
Proof.
  intros B beyond click trigger p max_passes n Hn H.
  unfold process_all_matches in Hn. unfold run in *.
  apply (pass_loop_early B beyond click trigger (Z.to_nat max_passes) p 0 0);
    [|lia].
  destruct (raised (pass_loop (page_driver B beyond click trigger)
                      (Z.to_nat max_passes) p 0 0));
    [discriminate Hn|reflexivity].
Qed.

Lemma early_stop_leaves_no_match_witness :
  process_all_matches stub_driver two_spans 2000 = Some 2 /\
  (Z.of_nat (passes (run stub_driver two_spans 2000)) < 2000)%Z /\
  JS_FIND_MATCHES (final (run stub_driver two_spans 2000)) = [].
Proof.
  assert (process_all_matches stub_driver two_spans 2000 = Some 2) as H0
    by (vm_compute; reflexivity).
  assert (Z.of_nat (passes (run stub_driver two_spans 2000)) < 2000)%Z as H
    by (vm_compute; reflexivity).
  split; [exact H0|]. split; [exact H|].
  exact (@early_stop_leaves_no_match sample_browser no_beyond no_click trigger
           two_spans 2000 2 H0 H).
Defined.

(** The run on the page whose leaf has a double quote in its [id]: the
    first selection raises, the call returns nothing, and the match is still
    there. *)
Example quoted_id_stops_the_run :
  let o := run stub_driver quoted_leaf 2000 in
  raised o = true /\ passes o = 1 /\ processed o = 0 /\
  process_all_matches stub_driver quoted_leaf 2000 = None /\
  length (JS_FIND_MATCHES (final o)) = 1.
Proof. vm_compute. repeat split; reflexivity. Qed.

(** ** The sign-in check *)

(** X16.  When [on_login_gate] answers [True] for a page, the page has no canvas
    and shows an e-mail input; the scanner reports nothing on it and the pass
    loop would return 0. *)
Theorem login_gate_has_no_canvas :
  forall (email_input : element -> bool) (p : page),
  Login.on_login_gate Login.page_find_elements email_input p = true ->
  querySelector (document p) (has_class NOTION_PAGE_CONTENT) = None /\
  querySelectorAll (document p) [] email_input <> [] /\
  JS_FIND_MATCHES p = [] /\
  forall B beyond click trigger max_passes,
    process_all_matches (page_driver B beyond click trigger) p max_passes
    = Some 0.
Proof.
  intros email_input p H.
  unfold Login.on_login_gate, Login.page_find_elements in H. cbv zeta in H.
  assert (querySelector (document p) (has_class NOTION_PAGE_CONTENT) = None)
    as Hq.
  { unfold querySelector.
    destruct (querySelectorAll (document p) [] (has_class NOTION_PAGE_CONTENT));
      [reflexivity|discriminate H]. }
  assert (JS_FIND_MATCHES p = []) as Hf
    by (unfold JS_FIND_MATCHES; cbv zeta; now rewrite Hq).
  split; [exact Hq|]. split.
  { destruct (querySelectorAll (document p) [] (has_class NOTION_PAGE_CONTENT));
      [|discriminate H].
    destruct (querySelectorAll (document p) [] email_input);
      [discriminate H|discriminate]. }
  split; [exact Hf|].
  intros B beyond click trigger max_passes. unfold process_all_matches, run.
  destruct (Z.to_nat max_passes) as [|n]; [reflexivity|].
  cbn [pass_loop page_driver expand_toggles find_matches].
  assert (JS_EXPAND_TOGGLES click p = p) as He
    by (unfold JS_EXPAND_TOGGLES; now rewrite Hq).
  now rewrite He, Hf.
Qed.

Lemma login_gate_has_no_canvas_witness :
  let email_input := attr_is (lit "type") (lit "email") in
  let p := sign_in_page in
  Login.on_login_gate Login.page_find_elements email_input p = true /\
  querySelector (document p) (has_class NOTION_PAGE_CONTENT) = None /\
  querySelectorAll (document p) [] email_input <> [] /\
  JS_FIND_MATCHES p = [] /\
  forall B beyond click trigger max_passes,
    process_all_matches (page_driver B beyond click trigger) p max_passes
    = Some 0.
Proof.
  intros email_input p.
  assert (Login.on_login_gate Login.page_find_elements email_input p = true)
    as H by (vm_compute; reflexivity).
  split; [exact H|]. exact (@login_gate_has_no_canvas email_input p H).
Defined.

(** ** The shortcut *)

(** X17.  Whatever the platform, the shortcut is one stroke of [e] with SHIFT and
    one modifier held (COMMAND on [darwin], CONTROL anywhere else), then one
    stroke of ENTER with nothing held; both modifiers are released again, so
    no key stays down after the call. *)
Theorem shortcut_releases_its_keys : forall platform strokes,
  let mod_ := if Keyboard.is_mac platform
              then Keyboard.COMMAND else Keyboard.CONTROL in
  Keyboard.perform_all (Keyboard.mkKeyboard [] strokes)
                       (Keyboard.send_shortcut_and_enter platform)
  = Keyboard.mkKeyboard []
      ((Keyboard.ENTER, [])
       :: (Keyboard.Char "e"%char, [Keyboard.SHIFT; mod_]) :: strokes).
Proof.
  intros platform strokes. cbv zeta.
  unfold Keyboard.send_shortcut_and_enter.
  now destruct (Keyboard.is_mac platform).
Qed.

(** ** Selecting again *)

(** X18.  The answer of the selector depends on the tree only, and the
    selector leaves the tree as it is: selecting the same MatchRef a second
    time gives the same answer, and so does selecting it on any page with the
    same tree. *)
Theorem select_is_repeatable : forall B p args p1 r,
  JS_SELECT_MATCH B p args = Some (p1, r) ->
  document p1 = document p /\
  (exists p2,
     JS_SELECT_MATCH B p1 args = Some (p2, r) /\ document p2 = document p) /\
  forall w, document w = document p ->
    exists w1, JS_SELECT_MATCH B w args = Some (w1, r) /\
               document w1 = document p.
Proof.
  intros B p args p1 r H.
  assert (forall w, document w = document p ->
            exists w1, JS_SELECT_MATCH B w args = Some (w1, r) /\
                       document w1 = document p) as A.
  { intros w Hw. destruct (@select_again B p w args p1 r Hw H)
      as (w1 & H1 & H2 & _). eauto. }
  destruct (@select_again B p p args p1 r eq_refl H) as (_ & _ & _ & Hd).
  split; [exact Hd|]. split; [exact (A p1 Hd)|exact A].
Qed.

Lemma select_is_repeatable_witness :
  let B := sample_browser in
  let p := demo in
  let args := mkSelectArgs first_leaf_address 0 10 20 in
  let p1 := selected_page B p args [0; 1; 0; 0] [0; 1; 0; 0; 0] in
  let r := SelectOk in
  JS_SELECT_MATCH B p args = Some (p1, r) /\
  document p1 = document p /\
  (exists p2,
     JS_SELECT_MATCH B p1 args = Some (p2, r) /\ document p2 = document p) /\
  forall w, document w = document p ->
    exists w1, JS_SELECT_MATCH B w args = Some (w1, r) /\
               document w1 = document p.
Proof.
  intros B p args p1 r.
  assert (JS_SELECT_MATCH B p args = Some (p1, r)) as H
    by (vm_compute; reflexivity).
  split; [exact H|]. exact (@select_is_repeatable B p args p1 r H).
Defined.

(** ** Runs on well-addressed pages, and runs that end early *)

Lemma pass_loop_no_waste :
  forall B beyond click trigger (good : page -> Prop),
  (forall q, good q ->
     html_names (document q) = true /\ ids_quote_free (document q) = true /\
     ids_unique (document q) = true) ->
  (forall q q', good q -> document q' = document q -> good q') ->
  (forall q b, good q -> good (click q b)) ->
  (forall q, good q -> good (trigger q)) ->
  forall n w pr ps,
    good w ->
    let o := pass_loop (page_driver B beyond click trigger) n w pr ps in
    passes o + pr <= processed o + ps + 1 /\
    (JS_FIND_MATCHES (final o) <> [] -> passes o + pr = processed o + ps) /\
    raised o = false.
Proof.
  intros B beyond click trigger good Hgood Hdoc Hclick Htrig.
  induction n as [|n IH]; intros w pr ps Hw; cbv zeta.
  - cbn [pass_loop passes processed raised]. repeat split; lia.
  - cbn [pass_loop].
    change (expand_toggles (page_driver B beyond click trigger) w)
      with (JS_EXPAND_TOGGLES click w).
    change (find_matches (page_driver B beyond click trigger)
              (JS_EXPAND_TOGGLES click w))
      with (JS_EXPAND_TOGGLES click w, JS_FIND_MATCHES (JS_EXPAND_TOGGLES click w)).
    assert (good (JS_EXPAND_TOGGLES click w)) as Hw1.
    { unfold JS_EXPAND_TOGGLES.
      destruct (querySelector (document w) (has_class NOTION_PAGE_CONTENT));
        [|exact Hw].
      apply fold_left_invariant; [exact Hw|]. intros q b Hq _. now apply Hclick. }
    set (w1 := JS_EXPAND_TOGGLES click w) in *.
    destruct (JS_FIND_MATCHES w1) as [|m ms] eqn:E.
    + cbn [passes processed final raised]. split; [lia|].
      split; [|reflexivity]. intros H. now elim H.
    + destruct (Hgood _ Hw1) as (G1 & G2 & G3).
      destruct (@scanned_match_selects B w1 m G1 G2 G3
                  ltac:(rewrite E; now left))
        as (el & tn & s & _ & _ & _ & _ & Sel & _).
      rewrite (@page_driver_select B beyond click trigger _ _ _ _ Sel). cbn [is_ok].
      change (send_shortcut_and_enter (page_driver B beyond click trigger)
                (selected_page B w1 (args_of m) el tn))
        with (trigger (selected_page B w1 (args_of m) el tn)).
      assert (good (trigger (selected_page B w1 (args_of m) el tn))) as Hw'.
      { apply Htrig. apply Hdoc with w1; [exact Hw1|].
        apply selected_page_document. }
      specialize (IH _ (S pr) (S ps) Hw'). cbv zeta in IH.
      destruct IH as (I1 & I2 & I3). split; [lia|]. split; [|exact I3].
      intros H. specialize (I2 H). lia.
Qed.

(** X19.  On pages of HTML elements whose [id]s are unique and free of double
    quotes, and as long as clicks and trigger keep the page so, no pass is
    wasted: every pass whose scan finds a match converts one, so the count
    falls short of the number of passes by one at most (the pass of the empty
    scan), and not at all when matches are left at the end; no selection
    raises. *)
Theorem well_addressed_run_converts_each_pass :
  forall B beyond click trigger (good : page -> Prop) p max_passes,
  (forall q, good q ->
     html_names (document q) = true /\ ids_quote_free (document q) = true /\
     ids_unique (document q) = true) ->
  (forall q q', good q -> document q' = document q -> good q') ->
  (forall q b, good q -> good (click q b)) ->
  (forall q, good q -> good (trigger q)) ->
  good p ->
  let o := run (page_driver B beyond click trigger) p max_passes in
  passes o <= processed o + 1 /\
  (JS_FIND_MATCHES (final o) <> [] -> processed o = passes o) /\
  process_all_matches (page_driver B beyond click trigger) p max_passes
  = Some (processed o).
Proof.
  intros B beyond click trigger good p max_passes Hgood Hdoc Hclick Htrig Hp.
  cbv zeta. unfold process_all_matches, run.
  pose proof (@pass_loop_no_waste B beyond click trigger good Hgood Hdoc
                Hclick Htrig (Z.to_nat max_passes) p 0 0 Hp) as L.
  cbv zeta in L. destruct L as (L1 & L2 & L3). split; [lia|].
  split; [|now rewrite L3].
  intros H. specialize (L2 H). lia.
Qed.

Lemma well_addressed_run_converts_each_pass_witness :
  let good := fun q : page => document q = document two_spans in
  let o := run idle_driver two_spans 7 in
  (forall q, good q ->
     html_names (document q) = true /\ ids_quote_free (document q) = true /\
     ids_unique (document q) = true) /\
  (forall q q', good q -> document q' = document q -> good q') /\
  (forall q b, good q -> good (no_click q b)) /\
  (forall q : page, good q -> good ((fun q => q) q)) /\
  good two_spans /\
  passes o <= processed o + 1 /\
  (JS_FIND_MATCHES (final o) <> [] -> processed o = passes o) /\
  process_all_matches idle_driver two_spans 7 = Some (processed o).
Proof.
  intros good o.
  assert (forall q, good q ->
     html_names (document q) = true /\ ids_quote_free (document q) = true /\
     ids_unique (document q) = true) as H1.
  { intros q Hq. unfold good in Hq. rewrite Hq.
    repeat split; vm_compute; reflexivity. }
  assert (forall q q', good q -> document q' = document q -> good q') as H2
    by (unfold good; intros q q' Hq Hq'; congruence).
  assert (forall q b, good q -> good (no_click q b)) as H3
    by (intros q b Hq; exact Hq).
  assert (forall q : page, good q -> good ((fun q => q) q)) as H4
    by (intros q Hq; exact Hq).
  assert (good two_spans) as H5 by reflexivity.
  split; [exact H1|]. split; [exact H2|]. split; [exact H3|].
  split; [exact H4|]. split; [exact H5|].
  exact (@well_addressed_run_converts_each_pass sample_browser no_beyond
           no_click (fun q => q) good two_spans 7 H1 H2 H3 H4 H5).
Defined.

Lemma pass_loop_finished : forall (W : Type) (d : driver W) n k w pr ps,
  passes (pass_loop d n w pr ps) < ps + n ->
  pass_loop d (n + k) w pr ps = pass_loop d n w pr ps.
Proof.
  intros W d. induction n as [|n IH]; intros k w pr ps H.
  - cbn [pass_loop passes] in H. lia.
  - cbn [Nat.add pass_loop] in *.
    destruct (find_matches d (expand_toggles d w)) as [w2 [|m ms]];
      [reflexivity|].
    destruct (select_match d w2 (args_of m)) as [w3 [r|]]; [|reflexivity].
    destruct (is_ok (Returned r)); apply IH; lia.
Qed.

(** X20.  A run that ends before it has used [max_passes] passes is the same
    under any larger bound: same count, same passes, same final state. *)
Theorem finished_run_ignores_bound :
  forall (W : Type) (d : driver W) w max_passes larger,
  (Z.of_nat (passes (run d w max_passes)) < max_passes)%Z ->
  (max_passes <= larger)%Z ->
  run d w larger = run d w max_passes.
Proof.
  intros W d w max_passes larger H Hle. unfold run in *.
  replace (Z.to_nat larger)
    with (Z.to_nat max_passes + (Z.to_nat larger - Z.to_nat max_passes))
    by lia.
  apply pass_loop_finished. lia.
Qed.

Lemma finished_run_ignores_bound_witness :
  (Z.of_nat (passes (run stub_driver two_spans 5)) < 5)%Z /\
  (5 <= 2000)%Z /\
  run stub_driver two_spans 2000 = run stub_driver two_spans 5.
Proof.
  assert (Z.of_nat (passes (run stub_driver two_spans 5)) < 5)%Z as H1
    by (vm_compute; reflexivity).
  assert (5 <= 2000)%Z as H2 by lia.
  split; [exact H1|]. split; [exact H2|].
  exact (@finished_run_ignores_bound page stub_driver two_spans 5 2000 H1 H2).
Defined.
